(** * Link Manager: the ordering engine (LinkManager.tsx) and the worker API
      (src/worker/index.ts), embedded shallowly and verified.

    Conventions of the embedding.
    - JavaScript strings are [string]s, read as their UTF-8 bytes.  The
      functions [toLowerCase] and [trim] of the platform are parameters
      (class [StringPrototype]), of which only what ECMAScript fixes on
      ASCII text is assumed.
    - [order], [createdAt] and array indices are integers ([Z], [nat]).
    - A React state setter called with an updater function is a function on
      the component state; an event handler is the composition of the
      setters it calls, in source order, reading the values captured by its
      closure from the state it was rendered with. *)

From stdpp Require Import prelude strings list sorting gmap pretty.
From Stdlib Require Import ZArith Ascii.

Local Open Scope string_scope.
Local Open Scope list_scope.
Local Open Scope Z_scope.

(** ** Data model (type definitions of LinkManager.tsx) *)

Record SubLink := mkSubLink {
  sub_id : string;
  sub_title : string;
  sub_url : string
}.

Record LinkItem := mkLinkItem {
  link_id : string;
  link_title : string;
  link_url : string;
  link_description : option string;
  link_categoryId : string;
  link_createdAt : Z;
  link_order : Z;
  link_subLinks : list SubLink
}.

Record Category := mkCategory {
  cat_id : string;
  cat_name : string;
  cat_order : Z
}.

Record AppData := mkAppData {
  data_categories : list Category;
  data_links : list LinkItem
}.

Inductive ItemType := CATEGORY | LINK.

Record DragItem := mkDragItem {
  drag_type : ItemType;
  drag_id : string;
  drag_categoryId : option string
}.

Inductive DropPosition := BEFORE | AFTER.

Record DeleteTarget := mkDeleteTarget {
  del_type : ItemType;
  del_id : string;
  del_name : string
}.

#[global] Instance SubLink_eq_dec : EqDecision SubLink.
Proof. solve_decision. Defined.
#[global] Instance LinkItem_eq_dec : EqDecision LinkItem.
Proof. solve_decision. Defined.
#[global] Instance Category_eq_dec : EqDecision Category.
Proof. solve_decision. Defined.
#[global] Instance ItemType_eq_dec : EqDecision ItemType.
Proof. solve_decision. Defined.
#[global] Instance DropPosition_eq_dec : EqDecision DropPosition.
Proof. solve_decision. Defined.

(** [{ ...l, categoryId: c }] and [{ ...l, order: n }]. *)
Definition with_categoryId (c : string) (l : LinkItem) : LinkItem :=
  {| link_id := link_id l; link_title := link_title l; link_url := link_url l;
     link_description := link_description l; link_categoryId := c;
     link_createdAt := link_createdAt l; link_order := link_order l;
     link_subLinks := link_subLinks l |}.

Definition with_order (n : Z) (l : LinkItem) : LinkItem :=
  {| link_id := link_id l; link_title := link_title l; link_url := link_url l;
     link_description := link_description l; link_categoryId := link_categoryId l;
     link_createdAt := link_createdAt l; link_order := n;
     link_subLinks := link_subLinks l |}.

(** [{ ...item, order: n }] on a category. *)
Definition cat_with_order (n : Z) (c : Category) : Category :=
  {| cat_id := cat_id c; cat_name := cat_name c; cat_order := n |}.

(** ** JavaScript array primitives *)

(** [Array.prototype.findIndex]: the first index whose element satisfies the
    predicate, [-1] when there is none. *)
Definition findIndex {A} (P : A → Prop) `{∀ x, Decision (P x)} (l : list A) : Z :=
  match list_find P l with
  | Some (i, _) => Z.of_nat i
  | None => -1
  end.

(** [Array.prototype.splice(start, deleteCount, ...items)]: a negative
    [start] counts from the end, and [start] is clamped to the array.
    Returns the removed elements and the array as it is afterwards. *)
Definition splice {A} (start : Z) (deleteCount : nat) (items l : list A)
  : list A * list A :=
  let len := Z.of_nat (length l) in
  let k := Z.to_nat (if decide (start < 0) then Z.max (len + start) 0
                     else Z.min start len) in
  (take deleteCount (drop k l), take k l ++ items ++ drop (k + deleteCount) l).

(** [arr.map((l, idx) => ({ ...l, order: idx }))]. *)
Definition renumber (l : list LinkItem) : list LinkItem :=
  imap (λ idx x, with_order (Z.of_nat idx) x) l.

Definition cat_renumber (l : list Category) : list Category :=
  imap (λ idx x, cat_with_order (Z.of_nat idx) x) l.

(** ** Component state of [LinkManager] *)

(** [editingLink] is kept as the value it was given.  The link dialog is
    opened on an object of [links]; when it is closed without saving,
    [editingLink] goes on holding that object, and the one in-place write
    of the page ([draggedLink.categoryId = ...] in [handleDropWithState])
    can change it.  The state does not follow that sharing, and nothing is
    stated below about [editingLink] after a drop. *)
Record State := mkState {
  categories : list Category;
  links : list LinkItem;
  searchQuery : string;
  selectedCategory : string;
  isLinkModalOpen : bool;
  editingLink : option LinkItem;
  deleteTarget : option DeleteTarget;
  draggedItem : option DragItem;
  dragOverId : option string;
  dropPosition : option DropPosition
}.

(** The state setters; [setCategories] and [setLinks] take an updater. *)
Definition setCategories (f : list Category → list Category) (s : State) : State :=
  mkState (f (categories s)) (links s) (searchQuery s) (selectedCategory s)
    (isLinkModalOpen s) (editingLink s) (deleteTarget s) (draggedItem s)
    (dragOverId s) (dropPosition s).

Definition setLinks (f : list LinkItem → list LinkItem) (s : State) : State :=
  mkState (categories s) (f (links s)) (searchQuery s) (selectedCategory s)
    (isLinkModalOpen s) (editingLink s) (deleteTarget s) (draggedItem s)
    (dragOverId s) (dropPosition s).

Definition setSelectedCategory (c : string) (s : State) : State :=
  mkState (categories s) (links s) (searchQuery s) c
    (isLinkModalOpen s) (editingLink s) (deleteTarget s) (draggedItem s)
    (dragOverId s) (dropPosition s).

Definition setIsLinkModalOpen (b : bool) (s : State) : State :=
  mkState (categories s) (links s) (searchQuery s) (selectedCategory s)
    b (editingLink s) (deleteTarget s) (draggedItem s)
    (dragOverId s) (dropPosition s).

Definition setEditingLink (e : option LinkItem) (s : State) : State :=
  mkState (categories s) (links s) (searchQuery s) (selectedCategory s)
    (isLinkModalOpen s) e (deleteTarget s) (draggedItem s)
    (dragOverId s) (dropPosition s).

Definition setDeleteTarget (d : option DeleteTarget) (s : State) : State :=
  mkState (categories s) (links s) (searchQuery s) (selectedCategory s)
    (isLinkModalOpen s) (editingLink s) d (draggedItem s)
    (dragOverId s) (dropPosition s).

Definition setDraggedItem (d : option DragItem) (s : State) : State :=
  mkState (categories s) (links s) (searchQuery s) (selectedCategory s)
    (isLinkModalOpen s) (editingLink s) (deleteTarget s) d
    (dragOverId s) (dropPosition s).

Definition setDragOverId (d : option string) (s : State) : State :=
  mkState (categories s) (links s) (searchQuery s) (selectedCategory s)
    (isLinkModalOpen s) (editingLink s) (deleteTarget s) (draggedItem s)
    d (dropPosition s).

Definition setDropPosition (p : option DropPosition) (s : State) : State :=
  mkState (categories s) (links s) (searchQuery s) (selectedCategory s)
    (isLinkModalOpen s) (editingLink s) (deleteTarget s) (draggedItem s)
    (dragOverId s) p.

(** The state of the first render (the arguments of [useState]). *)
Definition initialState : State :=
  mkState [] [] "" "ALL" false None None None None None.

(** [SEED_DATA]; [now] is the value of [Date.now()] when the module is
    loaded. *)
Definition SEED_DATA (now : Z) : AppData :=
  {| data_categories :=
       [ mkCategory "cat_dev" "Development" 0;
         mkCategory "cat_design" "Design" 1;
         mkCategory "cat_news" "Reading" 2 ];
     data_links :=
       [ mkLinkItem "link_1" "GitHub" "https://github.com"
           (Some "Where the world builds software.") "cat_dev" now 0
           [ mkSubLink "sub_1" "Issues" "https://github.com/issues";
             mkSubLink "sub_2" "Pull Requests" "https://github.com/pulls" ];
         mkLinkItem "link_2" "React" "https://react.dev"
           (Some "The library for web and native user interfaces.") "cat_dev" now 1 [];
         mkLinkItem "link_3" "Figma" "https://www.figma.com"
           (Some "Collaborative interface design tool.") "cat_design" now 0 [] ] |}.

(** The body of [loadData] once [StorageProvider.get()] has resolved to
    [data]. *)
Definition loadData (data : AppData) (s : State) : State :=
  setLinks (λ _, data_links data) (setCategories (λ _, data_categories data) s).

(** ** Drag and drop: [handleDropWithState] *)

(** The updater passed to [setCategories] ("1. Reorder Categories"). *)
Definition dropCategories (draggedId targetId : string) (prev : list Category)
  : list Category :=
  let items := prev in
  let oldIndex := findIndex (λ i, cat_id i = draggedId) items in
  let newIndex := findIndex (λ i, cat_id i = targetId) items in
  if decide (oldIndex ≠ -1 ∧ newIndex ≠ -1) then
    let '(moved, items) := splice oldIndex 1 [] items in
    let '(_, items) := splice newIndex 0 (take 1 moved) items in
    cat_renumber items
  else prev.

(** The updater passed to [setLinks] ("2. Reorder Links").  The assignment
    [draggedLink.categoryId = targetLink.categoryId] writes through the
    object shared by [prevLinks] and its shallow copy [allLinks]: it is the
    update of slot [draggedLinkIndex].  Every [return prevLinks] precedes
    it, and the array returned after it consists of fresh objects, so the
    write shows in the result only through [removed].  (The same object
    can also be the one [editingLink] holds; see [State].)
    The two [None] branches stand for reads of [undefined]; they are never
    taken, see [dropLinks_reads_defined]. *)
Definition dropLinks (draggedId targetId : string) (type : ItemType)
    (dropPosition : option DropPosition) (prevLinks : list LinkItem)
  : list LinkItem :=
  let allLinks := prevLinks in
  let draggedLinkIndex := findIndex (λ l, link_id l = draggedId) allLinks in
  if decide (draggedLinkIndex = -1) then prevLinks else
  match type with
  | LINK =>
      let targetLinkIndex := findIndex (λ l, link_id l = targetId) allLinks in
      if decide (targetLinkIndex = -1) then prevLinks else
      match allLinks !! Z.to_nat draggedLinkIndex,
            allLinks !! Z.to_nat targetLinkIndex with
      | Some draggedLink, Some targetLink =>
          if decide (draggedLinkIndex = targetLinkIndex) then prevLinks else
          let allLinks :=
            <[Z.to_nat draggedLinkIndex :=
                with_categoryId (link_categoryId targetLink) draggedLink]> allLinks in
          let '(removed, allLinks) := splice draggedLinkIndex 1 [] allLinks in
          let newTargetIndex := findIndex (λ l, link_id l = targetId) allLinks in
          let newTargetIndex :=
            if decide (dropPosition = Some AFTER) then newTargetIndex + 1
            else newTargetIndex in
          let '(_, allLinks) := splice newTargetIndex 0 (take 1 removed) allLinks in
          renumber allLinks
      | _, _ => prevLinks
      end
  | CATEGORY =>
      (λ l, if decide (link_id l = draggedId) then with_categoryId targetId l else l)
        <$> allLinks
  end.

Definition handleDropWithState (targetId : string) (type : ItemType) (s : State)
  : State :=
  let s := setDragOverId None s in
  let pos := dropPosition s in
  let s := setDropPosition None s in
  match draggedItem s with
  | None => s
  | Some d =>
      let s :=
        if decide (drag_type d = CATEGORY ∧ type = CATEGORY)
        then setCategories (dropCategories (drag_id d) targetId) s else s in
      let s :=
        if decide (drag_type d = LINK)
        then setLinks (dropLinks (drag_id d) targetId type pos) s else s in
      setDraggedItem None s
  end.

Definition handleDragStart (item : DragItem) (s : State) : State :=
  setDraggedItem (Some item) s.

(** [handleDragOver]: [leftOfCenter] is the outcome of the pointer test
    [hoverClientX < hoverMiddleX] on the hovered element. *)
Definition handleDragOver (leftOfCenter : bool) (id : string) (s : State) : State :=
  match draggedItem s with
  | Some d =>
      if decide (drag_type d = LINK) then
        let position := if leftOfCenter then BEFORE else AFTER in
        setDropPosition (Some position) (setDragOverId (Some id) s)
      else setDragOverId (Some id) s
  | None => setDragOverId (Some id) s
  end.

Definition handleDragEnd (s : State) : State :=
  setDropPosition None (setDragOverId None (setDraggedItem None s)).

(** ** String primitives used by the search filter *)

(** The two string functions on ASCII text: the letters [A] to [Z] are
    mapped to [a] to [z], and the white space is TAB, LF, VT, FF, CR and
    SPACE.  [toLowerCaseASCII] is also the byte-lowercasing of header
    names. *)
Definition lower_ascii (c : ascii) : ascii :=
  let n := nat_of_ascii c in
  if decide (65 ≤ n ≤ 90)%nat then ascii_of_nat (n + 32) else c.

Fixpoint toLowerCaseASCII (s : string) : string :=
  match s with
  | EmptyString => EmptyString
  | String c s' => String (lower_ascii c) (toLowerCaseASCII s')
  end.

Definition is_space (c : ascii) : bool :=
  let n := nat_of_ascii c in
  bool_decide ((9 ≤ n ≤ 13)%nat ∨ n = 32%nat).

Fixpoint trimStart (s : string) : string :=
  match s with
  | EmptyString => EmptyString
  | String c s' => if is_space c then trimStart s' else s
  end.

Fixpoint trimEnd (s : string) : string :=
  match s with
  | EmptyString => EmptyString
  | String c s' =>
      match trimEnd s' with
      | EmptyString => if is_space c then EmptyString else String c EmptyString
      | t => String c t
      end
  end.

Definition trimASCII (s : string) : string := trimEnd (trimStart s).

Definition ascii_text (s : string) : Prop :=
  Forall (λ c, (nat_of_ascii c < 128)%nat) (String.list_ascii_of_string s).

(** [String.prototype.toLowerCase] and [String.prototype.trim] are functions
    of the platform, which ECMAScript defines through the case mappings and
    the white-space class of Unicode.  The page is embedded over any two
    functions that are, on ASCII text, what the standard makes them there;
    beyond ASCII nothing is assumed of them. *)
Class StringPrototype := {
  toLowerCase : string → string;
  trim : string → string;
  toLowerCase_ascii s : ascii_text s → toLowerCase s = toLowerCaseASCII s;
  trim_ascii s : ascii_text s → trim s = trimASCII s
}.

(** The two functions cut down to their ASCII mappings, for computing on
    ASCII text. *)
Definition asciiStrings : StringPrototype :=
  {| toLowerCase := toLowerCaseASCII; trim := trimASCII;
     toLowerCase_ascii := λ _ _, eq_refl; trim_ascii := λ _ _, eq_refl |}.

(** [s.startsWith(q)] and [s.includes(q)]. *)
Fixpoint startsWith (s q : string) : bool :=
  match q, s with
  | EmptyString, _ => true
  | String _ _, EmptyString => false
  | String b q', String a s' => bool_decide (a = b) && startsWith s' q'
  end.

Fixpoint includes (s q : string) : bool :=
  startsWith s q ||
  match s with
  | EmptyString => false
  | String _ s' => includes s' q
  end.

(** ** [Array.prototype.sort] *)

(** The sort is stable (ECMAScript 2019) and the comparators used here are
    consistent, so the result is the one of any stable sort: an insertion
    sort that moves an element only past elements that compare strictly
    smaller. *)
Fixpoint sort_insert {A} (cmp : A → A → Z) (x : A) (l : list A) : list A :=
  match l with
  | [] => [x]
  | y :: l' => if decide (cmp y x < 0) then y :: sort_insert cmp x l' else x :: l
  end.

Definition js_sort {A} (cmp : A → A → Z) (l : list A) : list A :=
  foldr (sort_insert cmp) [] l.

(** The comparator [(a, b) => a.order - b.order]. *)
Definition by_order (a b : LinkItem) : Z := link_order a - link_order b.

(** ** [getFilteredLinks] *)

(** The callback of [linkList.filter] for the lower-cased query [q]. *)
Definition matchesQuery {SP : StringPrototype} (q : string) (l : LinkItem) : bool :=
  includes (toLowerCase (link_title l)) q
  || includes (toLowerCase (link_url l)) q
  || match link_description l with
     | Some d => includes (toLowerCase d) q
     | None => false
     end
  || existsb (λ sl, includes (toLowerCase (sub_title sl)) q) (link_subLinks l).

(** [searchQuery] is the state variable the closure reads; [sort] works in
    place on [linkList], which every caller passes as a fresh array
    ([links.filter(...)]). *)
Definition getFilteredLinks {SP : StringPrototype} (searchQuery : string)
    (linkList : list LinkItem) : list LinkItem :=
  if decide (trim searchQuery = "") then js_sort by_order linkList
  else
    let q := toLowerCase searchQuery in
    js_sort by_order (filter (λ l, matchesQuery q l = true) linkList).

(** ** Saving and deleting *)

(** The argument of [handleSaveLink], declared as
    [Omit<LinkItem, 'id' | 'createdAt' | 'order'> & { id?: string }].  The
    form passes its [formData]: for a new link the five properties of its
    initial state, for an edited link the properties of the link the dialog
    was opened on, [createdAt] and [order] included, with the edits made
    in the form. *)
Record LinkData := mkLinkData {
  ld_id : option string;
  ld_title : string;
  ld_url : string;
  ld_description : option string;
  ld_categoryId : string;
  ld_createdAt : option Z;
  ld_order : option Z;
  ld_subLinks : list SubLink
}.

(** [{ ...l, ...linkData }]: the properties [linkData] has replace those of
    [l]; an absent property leaves the one of [l]. *)
Definition mergeLinkData (l : LinkItem) (d : LinkData) : LinkItem :=
  {| link_id := default (link_id l) (ld_id d);
     link_title := ld_title d; link_url := ld_url d;
     link_description :=
       match ld_description d with Some x => Some x | None => link_description l end;
     link_categoryId := ld_categoryId d;
     link_createdAt := default (link_createdAt l) (ld_createdAt d);
     link_order := default (link_order l) (ld_order d);
     link_subLinks := ld_subLinks d |}.

(** The object literal [{ ...linkData, id: generateId(), createdAt:
    Date.now(), order: prev.length }]; the results of [generateId()] and
    [Date.now()] are the arguments [newId] and [now]. *)
Definition newLink (newId : string) (now : Z) (linkData : LinkData)
    (prev : list LinkItem) : LinkItem :=
  {| link_id := newId; link_title := ld_title linkData;
     link_url := ld_url linkData;
     link_description := ld_description linkData;
     link_categoryId := ld_categoryId linkData;
     link_createdAt := now;
     link_order := Z.of_nat (length prev);
     link_subLinks := ld_subLinks linkData |}.

(** [handleSaveLink]: [linkData.id] is truthy when it is present and not
    the empty string. *)
Definition handleSaveLink (newId : string) (now : Z) (linkData : LinkData)
    (s : State) : State :=
  let s :=
    match ld_id linkData with
    | Some lid =>
        if decide (lid ≠ "") then
          setLinks (λ prev,
            (λ l, if decide (link_id l = lid) then mergeLinkData l linkData else l)
              <$> prev) s
        else setLinks (λ prev, prev ++ [newLink newId now linkData prev]) s
    | None => setLinks (λ prev, prev ++ [newLink newId now linkData prev]) s
    end in
  setEditingLink None (setIsLinkModalOpen false s).

Definition requestDeleteLink (id title : string) (s : State) : State :=
  setDeleteTarget (Some (mkDeleteTarget LINK id title)) s.

Definition requestDeleteCategory (id name : string) (s : State) : State :=
  setDeleteTarget (Some (mkDeleteTarget CATEGORY id name)) s.

Definition performDelete (s : State) : State :=
  match deleteTarget s with
  | None => s
  | Some t =>
      let s' :=
        match del_type t with
        | LINK => setLinks (filter (λ l, link_id l ≠ del_id t)) s
        | CATEGORY =>
            let s1 := setCategories (filter (λ c, cat_id c ≠ del_id t)) s in
            let s2 :=
              setLinks (fmap (λ l, if decide (link_categoryId l = del_id t)
                                   then with_categoryId "uncategorized" l else l)) s1 in
            if decide (selectedCategory s = del_id t)
            then setSelectedCategory "ALL" s2 else s2
        end in
      setDeleteTarget None s'
  end.

(** ** Adding and renaming categories *)

(** [handleAddCategory]; [newId] is the result of [generateId()].  The order
    is read from the [categories] of the closure.  The handler also closes
    the category dialog, a state variable outside [State]. *)
Definition handleAddCategory (newId name : string) (s : State) : State :=
  let newCat := mkCategory ("cat_" +:+ newId) name (Z.of_nat (length (categories s))) in
  setCategories (λ prev, prev ++ [newCat]) s.

(** [performRenameCategory] for the value [renamingCategory] of the
    closure, [None] being [null]; the handler also resets that state
    variable, which is outside [State]. *)
Definition performRenameCategory (renamingCategory : option (string * string))
    (s : State) : State :=
  match renamingCategory with
  | None => s
  | Some (rid, rname) =>
      setCategories
        (fmap (λ c, if decide (cat_id c = rid)
                    then mkCategory (cat_id c) rname (cat_order c) else c)) s
  end.

(** ** The cards that are rendered *)

(** [getFilteredLinks(links.filter(l => l.categoryId === cat.id))]. *)
Definition categoryLinks {SP : StringPrototype} (s : State) (cat : Category) : list LinkItem :=
  getFilteredLinks (searchQuery s)
    (filter (λ l, link_categoryId l = cat_id cat) (links s)).

(** The section "uncategorized" of the view of all links:
    [l.categoryId === 'uncategorized' || !categories.find(c => c.id === l.categoryId)]. *)
Definition uncategorizedLinks {SP : StringPrototype} (s : State) : list LinkItem :=
  getFilteredLinks (searchQuery s)
    (filter (λ l, link_categoryId l = "uncategorized"
                  ∨ list_find (λ c, cat_id c = link_categoryId l) (categories s) = None)
       (links s)).

(** The view of one category, [selectedCategory]. *)
Definition singleCategoryLinks {SP : StringPrototype} (s : State) : list LinkItem :=
  getFilteredLinks (searchQuery s)
    (filter (λ l, link_categoryId l = selectedCategory s) (links s)).

(** The cards of the content grid, in the order of the page: nothing when
    there are no links; in the view ['ALL'] the sections of the categories,
    in the order of [categories], then the section "uncategorized";
    otherwise the view of the selected category. *)
Definition shownCards {SP : StringPrototype} (s : State) : list LinkItem :=
  if decide (length (links s) = 0%nat) then []
  else if decide (selectedCategory s = "ALL")
  then mjoin (categoryLinks s <$> categories s) ++ uncategorizedLinks s
  else singleCategoryLinks s.

(** ** [formatUrlDisplay] *)

(** [s] without the prefix [p], when it starts with it. *)
Fixpoint stripPrefix (p s : string) : option string :=
  match p, s with
  | EmptyString, _ => Some s
  | String a p', String b s' => if decide (a = b) then stripPrefix p' s' else None
  | String _ _, EmptyString => None
  end.

(** [s.replace(/\/$/, '')]. *)
Fixpoint stripTrailingSlash (s : string) : string :=
  match s with
  | EmptyString => EmptyString
  | String c EmptyString => if decide (c = "/"%char) then EmptyString else s
  | String c s' => String c (stripTrailingSlash s')
  end.

(** [url.replace(/^https?:\/\//, '').replace(/\/$/, '')]. *)
Definition formatUrlDisplay (url : string) : string :=
  let s :=
    match stripPrefix "https://" url with
    | Some r => r
    | None => default url (stripPrefix "http://" url)
    end in
  stripTrailingSlash s.

(** ** The sub-links of [LinkForm] *)

(** [formData : Partial<LinkItem>]. *)
Record FormData := mkFormData {
  fd_id : option string;
  fd_title : option string;
  fd_url : option string;
  fd_description : option string;
  fd_categoryId : option string;
  fd_createdAt : option Z;
  fd_order : option Z;
  fd_subLinks : option (list SubLink)
}.

(** [{ ...formData, subLinks: newSubs }]. *)
Definition with_subLinks (newSubs : list SubLink) (fd : FormData) : FormData :=
  mkFormData (fd_id fd) (fd_title fd) (fd_url fd) (fd_description fd)
    (fd_categoryId fd) (fd_createdAt fd) (fd_order fd) (Some newSubs).

(** [keyof SubLink]. *)
Inductive SubLinkField := F_id | F_title | F_url.

(** [{ ...sub, [field]: value }]. *)
Definition with_field (field : SubLinkField) (value : string) (sub : SubLink)
  : SubLink :=
  match field with
  | F_id => mkSubLink value (sub_title sub) (sub_url sub)
  | F_title => mkSubLink (sub_id sub) value (sub_url sub)
  | F_url => mkSubLink (sub_id sub) (sub_title sub) value
  end.

(** [handleSubLinkChange]: the form calls it with the index of a row it
    renders.  For an index past the end JavaScript leaves holes in the
    array and a row without its other properties; this is outside the
    model, [None]. *)
Definition handleSubLinkChange (idx : nat) (field : SubLinkField) (value : string)
    (formData : FormData) : option FormData :=
  let newSubs := default [] (fd_subLinks formData) in
  match newSubs !! idx with
  | Some sub => Some (with_subLinks (<[idx := with_field field value sub]> newSubs) formData)
  | None => None
  end.

(** [addSubLink]; [newId] is the result of [generateId()]. *)
Definition addSubLink (newId : string) (formData : FormData) : FormData :=
  with_subLinks (default [] (fd_subLinks formData) ++ [mkSubLink newId "" ""]) formData.

(** [removeSubLink]. *)
Definition removeSubLink (idx : nat) (formData : FormData) : FormData :=
  let newSubs := default [] (fd_subLinks formData) in
  with_subLinks (splice (Z.of_nat idx) 1 [] newSubs).2 formData.

(** * The worker (src/worker/index.ts) *)

(** ** Platform functions: SHA-256 ([crypto.subtle.digest]) *)

Module SHA256.

(** 32-bit words are integers in [[0, 2^32)]. *)
Definition w32 (x : Z) : Z := x mod 2 ^ 32.
Definition add32 (x y : Z) : Z := w32 (x + y).
Definition rotr (n x : Z) : Z :=
  w32 (Z.lor (Z.shiftr x n) (Z.shiftl x (32 - n))).
Definition not32 (x : Z) : Z := Z.lxor x 0xffffffff.

Definition Ch (x y z : Z) : Z := Z.lxor (Z.land x y) (Z.land (not32 x) z).
Definition Maj (x y z : Z) : Z :=
  Z.lxor (Z.lxor (Z.land x y) (Z.land x z)) (Z.land y z).
Definition Sigma0 (x : Z) : Z := Z.lxor (Z.lxor (rotr 2 x) (rotr 13 x)) (rotr 22 x).
Definition Sigma1 (x : Z) : Z := Z.lxor (Z.lxor (rotr 6 x) (rotr 11 x)) (rotr 25 x).
Definition sigma0 (x : Z) : Z := Z.lxor (Z.lxor (rotr 7 x) (rotr 18 x)) (Z.shiftr x 3).
Definition sigma1 (x : Z) : Z := Z.lxor (Z.lxor (rotr 17 x) (rotr 19 x)) (Z.shiftr x 10).

(** The constants of the standard: the first 32 bits of the fractional
    parts of the cube roots of the first 64 primes (round constants) and
    of the square roots of the first 8 primes (initial hash value). *)
Definition is_prime (p : Z) : bool :=
  forallb (λ d, bool_decide (p mod d ≠ 0)) (seqZ 2 (p - 2)).

Definition primes : list Z := filter (λ p, is_prime p = true) (seqZ 2 310).

Fixpoint cube_root (bit : nat) (n r : Z) : Z :=
  match bit with
  | O => r
  | S bit' =>
      let c := r + 2 ^ Z.of_nat bit' in
      cube_root bit' n (if decide (c * c * c ≤ n) then c else r)
  end.

Definition K : list Z :=
  Eval vm_compute in (λ p, w32 (cube_root 36 (p * 2 ^ 96) 0)) <$> primes.

(** The hash value: eight words. *)
Definition hstate : Type := Z * Z * Z * Z * Z * Z * Z * Z.

Definition H0 : hstate :=
  Eval vm_compute in
    match (λ p, w32 (Z.sqrt (p * 2 ^ 64))) <$> take 8 primes with
    | [a; b; c; d; e; f; g; h] => (a, b, c, d, e, f, g, h)
    | _ => (0, 0, 0, 0, 0, 0, 0, 0)
    end.

(** Padding: a [1] bit, zeros up to 56 modulo 64 bytes, then the length
    of the message in bits as a 64-bit big-endian integer. *)
Definition be_bytes (n : nat) (x : Z) : list Z :=
  (λ i, (x / 2 ^ (8 * Z.of_nat i)) mod 256) <$> reverse (seq 0 n).

Definition pad (msg : list Z) : list Z :=
  let len := Z.of_nat (length msg) in
  let zeros := Z.to_nat ((55 - len) mod 64) in
  msg ++ [0x80] ++ replicate zeros 0 ++ be_bytes 8 (8 * len).

Fixpoint be_words (fuel : nat) (bs : list Z) : list Z :=
  match fuel, bs with
  | S fuel', b0 :: b1 :: b2 :: b3 :: bs' =>
      (((b0 * 256 + b1) * 256 + b2) * 256 + b3) :: be_words fuel' bs'
  | _, _ => []
  end.

(** The message schedule: [t] more words after the sixteen of the block. *)
Fixpoint schedule (t : nat) (w : list Z) : list Z :=
  match t with
  | O => w
  | S t' =>
      let n := length w in
      let at_ k := w !!! (n - k)%nat in
      schedule t'
        (w ++ [add32 (add32 (sigma1 (at_ 2%nat)) (at_ 7%nat))
                     (add32 (sigma0 (at_ 15%nat)) (at_ 16%nat))])
  end.

Definition round (s : hstate) (kw : Z * Z) : hstate :=
  let '(a, b, c, d, e, f, g, h) := s in
  let t1 := add32 (add32 (add32 h (Sigma1 e)) (add32 (Ch e f g) kw.1)) kw.2 in
  let t2 := add32 (Sigma0 a) (Maj a b c) in
  (add32 t1 t2, a, b, c, add32 d t1, e, f, g).

Definition compress (s : hstate) (block : list Z) : hstate :=
  let w := schedule 48 (be_words 16 block) in
  let '(a, b, c, d, e, f, g, h) := foldl round s (zip K w) in
  let '(a0, b0, c0, d0, e0, f0, g0, h0) := s in
  (add32 a0 a, add32 b0 b, add32 c0 c, add32 d0 d,
   add32 e0 e, add32 f0 f, add32 g0 g, add32 h0 h).

Fixpoint blocks (fuel : nat) (s : hstate) (bs : list Z) : hstate :=
  match fuel with
  | O => s
  | S fuel' =>
      match bs with
      | [] => s
      | _ => blocks fuel' (compress s (take 64 bs)) (drop 64 bs)
      end
  end.

(** The digest: 32 bytes. *)
Definition digest (msg : list Z) : list Z :=
  let p := pad msg in
  let '(a, b, c, d, e, f, g, h) := blocks (length p) H0 p in
  be_bytes 4 a ++ be_bytes 4 b ++ be_bytes 4 c ++ be_bytes 4 d ++
  be_bytes 4 e ++ be_bytes 4 f ++ be_bytes 4 g ++ be_bytes 4 h.

End SHA256.

(** ** [hashPassword] *)

(** [new TextEncoder().encode(s)]: the UTF-8 bytes of [s]. *)
Definition encode (s : string) : list Z :=
  (λ c, Z.of_nat (nat_of_ascii c)) <$> String.list_ascii_of_string s.

Definition hex_digit (upper : bool) (d : Z) : ascii :=
  if decide (d < 10) then ascii_of_nat (Z.to_nat (48 + d))
  else ascii_of_nat (Z.to_nat ((if upper then 55 else 87) + d)).

(** [n.toString(16)] for an integer [n ≥ 0]. *)
Fixpoint toString16_aux (fuel : nat) (n : Z) (acc : string) : string :=
  match fuel with
  | O => acc
  | S fuel' =>
      let acc := String (hex_digit false (n mod 16)) acc in
      if decide (n / 16 = 0) then acc else toString16_aux fuel' (n / 16) acc
  end.

Definition toString16 (n : Z) : string :=
  toString16_aux (S (Z.to_nat (Z.log2 n))) n "".

(** [s.padStart(2, "0")]. *)
Definition padStart2 (s : string) : string :=
  match s with
  | EmptyString => "00"
  | String c EmptyString => String "0" s
  | _ => s
  end.

Definition hashPassword (password : string) : string :=
  let data := encode password in
  let bytes := SHA256.digest data in
  String.concat "" ((λ b, padStart2 (toString16 b)) <$> bytes).

(** ** JavaScript values obtained from JSON *)

Local Set Warnings "-register-all".


(** A number is an integer and an object is the list of its own properties
    in insertion order, read at the first binding of a key.  The values the
    model covers are those of [json_value] below. *)
Inductive JsVal :=
  | JNull
  | JBool (b : bool)
  | JNum (n : Z)
  | JStr (s : string)
  | JArr (items : list JsVal)
  | JObj (props : list (string * JsVal)).

Fixpoint assoc {V} (k : string) (l : list (string * V)) : option V :=
  match l with
  | [] => None
  | (k', v) :: l' => if decide (k' = k) then Some v else assoc k l'
  end.

(** [v?.key]: [None] is [undefined].  Only own properties of objects are
    found; the keys read by the worker are no properties of arrays,
    strings, numbers or booleans. *)
Definition js_get (key : string) (v : JsVal) : option JsVal :=
  match v with
  | JObj props => assoc key props
  | _ => None
  end.

(** [obj.key = x] followed by serialization: an existing property keeps its
    place, a new one is added last. *)
Fixpoint assoc_set {V} (k : string) (x : V) (l : list (string * V))
  : list (string * V) :=
  match l with
  | [] => [(k, x)]
  | (k', v) :: l' => if decide (k' = k) then (k, x) :: l' else (k', v) :: assoc_set k x l'
  end.

(** Truthiness, with [undefined] as [None]. *)
Definition truthy (v : option JsVal) : bool :=
  match v with
  | None | Some JNull => false
  | Some (JBool b) => b
  | Some (JNum n) => bool_decide (n ≠ 0)
  | Some (JStr s) => bool_decide (s ≠ "")
  | Some (JArr _) | Some (JObj _) => true
  end.

(** The values the model covers: every number is a safe integer (at most
    [2^53 - 1] in absolute value), for which the JSON text, the double it
    is parsed to and its decimal string conversion agree; and no object has
    a key twice.  Other numbers (fractions, exponents such as [1e21], an
    overflow to [Infinity]) print and serialize otherwise, and are left
    out. *)
Fixpoint json_value (v : JsVal) : bool :=
  match v with
  | JNum n => bool_decide (- (2 ^ 53 - 1) ≤ n ≤ 2 ^ 53 - 1)
  | JArr items => forallb json_value items
  | JObj props =>
      bool_decide (NoDup (fst <$> props))
      && forallb (λ kv, let '(_, x) := kv in json_value x) props
  | _ => true
  end.

Inductive JsError := SyntaxError | TypeError | URIError.

(** Computations that may throw. *)
Inductive Result (A : Type) :=
  | Ok (a : A)
  | Throw (e : JsError).
Arguments Ok {A} a.
Arguments Throw {A} e.

#[global] Instance Result_ret : MRet Result := λ A a, Ok a.
#[global] Instance Result_bind : MBind Result := λ A B f m,
  match m with
  | Ok a => f a
  | Throw e => Throw e
  end.

(** [Array.prototype.join(",")] over strings. *)
Definition join_comma (l : list string) : string := String.concat "," l.

(** The string conversion of a value of [json_value]: [v.toString()] for a
    value that is not [null], and the conversion of the elements in
    [Array.prototype.join]
    ([null] elements give the empty string).  An object converts to
    ["[object Object]"] through [Object.prototype.toString]; an object that
    has a property [toString] of its own (not a function, as it comes from
    JSON) throws a [TypeError]. *)
Fixpoint js_toString (v : JsVal) : Result string :=
  match v with
  | JNull => Ok "null"
  | JBool b => Ok (if b then "true" else "false")
  | JNum n => Ok (pretty n)
  | JStr s => Ok s
  | JArr items =>
      (fix go (l : list JsVal) : Result (list string) :=
         match l with
         | [] => Ok []
         | x :: l' =>
             match (match x with JNull => Ok "" | _ => js_toString x end) with
             | Ok s => match go l' with Ok ss => Ok (s :: ss) | Throw e => Throw e end
             | Throw e => Throw e
             end
         end) items ≫= λ ss, Ok (join_comma ss)
  | JObj props =>
      match assoc "toString" props with
      | Some _ => Throw TypeError
      | None => Ok "[object Object]"
      end
  end.

(** [(v || "").toString()]. *)
Definition orEmpty_toString (v : option JsVal) : Result string :=
  match v with
  | Some x => if truthy v then js_toString x else Ok ""
  | None => Ok ""
  end.

(** [a === b] for a string [a]. *)
Definition str_strict_eq (a : string) (b : JsVal) : bool :=
  match b with
  | JStr s => bool_decide (a = s)
  | _ => false
  end.

(** ** Requests, responses and the KV namespace *)

(** Of a request the worker reads the method, the path of the URL, the
    [Cookie] header and the parsed body; [req_json = None] when
    [req.json()] rejects (the body is not JSON). *)
Record Request := mkRequest {
  req_method : string;
  req_pathname : string;
  req_cookie : option string;
  req_json : option JsVal
}.

(** A response built by [json]: its body is the serialization of
    [res_data]. *)
Record Response := mkResponse {
  res_status : Z;
  res_headers : list (string * string);
  res_data : JsVal
}.

(** [env.LINKS_KV]: every stored text was written by [JSON.stringify], and
    [get(key, "json")] parses it; the map holds the parsed values. *)
Record Env := mkEnv {
  LINKS_KV : gmap string JsVal
}.

Definition DATA_KEY : string := "links_data_v1".
Definition CONFIG_KEY : string := "app_config_v1".
Definition AUTH_COOKIE : string := "LM_AUTH".
Definition DEFAULT_PASSWORD : string := "linkmanager".

(** [Headers.has] compares the byte-lowercased names. *)
Definition headers_has (name : string) (h : list (string * string)) : bool :=
  existsb (λ kv, bool_decide (toLowerCaseASCII kv.1 = toLowerCaseASCII name)) h.

Definition json (data : JsVal) (status : Z) (headers : list (string * string))
  : Response :=
  let headers :=
    if headers_has "Content-Type" headers then headers
    else headers ++ [("Content-Type", "application/json; charset=utf-8")] in
  mkResponse status headers data.

(** ** Cookies *)

(** [cookie.split(/; */)]: [skip] holds while the blanks that follow a
    semicolon are consumed. *)
Fixpoint splitCookie (skip : bool) (s : string) : list string :=
  match s with
  | EmptyString => [""]
  | String c s' =>
      if skip && bool_decide (c = " "%char) then splitCookie true s'
      else if bool_decide (c = ";"%char) then "" :: splitCookie true s'
      else match splitCookie false s' with
           | p :: ps => String c p :: ps
           | [] => [String c ""]
           end
  end.

(** [part.split("=")]. *)
Fixpoint splitEq (s : string) : list string :=
  match s with
  | EmptyString => [""]
  | String c s' =>
      if bool_decide (c = "="%char) then "" :: splitEq s'
      else match splitEq s' with
           | p :: ps => String c p :: ps
           | [] => [String c ""]
           end
  end.

Definition hex_value (c : ascii) : option Z :=
  let n := Z.of_nat (nat_of_ascii c) in
  if decide (48 ≤ n ≤ 57) then Some (n - 48)
  else if decide (65 ≤ n ≤ 70) then Some (n - 55)
  else if decide (97 ≤ n ≤ 102) then Some (n - 87)
  else None.

(** [decodeURIComponent]: a [%] must start an escape [%XX], and the escaped
    bytes from [0x80] on must form well-formed UTF-8, each byte of a
    sequence being an escape; anything else throws a [URIError]. *)
Inductive UriToken := ULit (c : ascii) | UEsc (b : Z).

Fixpoint uriTokens (s : string) : Result (list UriToken) :=
  match s with
  | EmptyString => Ok []
  | String c s1 =>
      if bool_decide (c = "%"%char) then
        match s1 with
        | String a (String b s2) =>
            match hex_value a, hex_value b with
            | Some x, Some y => ts ← uriTokens s2; Ok (UEsc (16 * x + y) :: ts)
            | _, _ => Throw URIError
            end
        | _ => Throw URIError
        end
      else ts ← uriTokens s1; Ok (ULit c :: ts)
  end.

Definition byte_char (b : Z) : ascii := ascii_of_nat (Z.to_nat b).

(** [pending] continuation bytes are still due, the next one within
    [[lo, hi]]. *)
Fixpoint uriBytes (pending : nat) (lo hi : Z) (ts : list UriToken) : Result string :=
  match ts with
  | [] => if decide (pending = 0%nat) then Ok "" else Throw URIError
  | ULit c :: ts' =>
      if decide (pending = 0%nat)
      then s ← uriBytes 0 0x80 0xbf ts'; Ok (String c s)
      else Throw URIError
  | UEsc b :: ts' =>
      match pending with
      | O =>
          let continue (n : nat) (lo hi : Z) :=
            s ← uriBytes n lo hi ts'; Ok (String (byte_char b) s) in
          if decide (b < 0x80) then continue 0%nat 0x80 0xbf
          else if decide (0xc2 ≤ b ≤ 0xdf) then continue 1%nat 0x80 0xbf
          else if decide (b = 0xe0) then continue 2%nat 0xa0 0xbf
          else if decide (b = 0xed) then continue 2%nat 0x80 0x9f
          else if decide (0xe1 ≤ b ≤ 0xef) then continue 2%nat 0x80 0xbf
          else if decide (b = 0xf0) then continue 3%nat 0x90 0xbf
          else if decide (0xf1 ≤ b ≤ 0xf3) then continue 3%nat 0x80 0xbf
          else if decide (b = 0xf4) then continue 3%nat 0x80 0x8f
          else Throw URIError
      | S n =>
          if decide (lo ≤ b ≤ hi)
          then s ← uriBytes n 0x80 0xbf ts'; Ok (String (byte_char b) s)
          else Throw URIError
      end
  end.

Definition decodeURIComponent (s : string) : Result string :=
  ts ← uriTokens s; uriBytes 0 0x80 0xbf ts.

(** [encodeURIComponent]: letters, digits and [- _ . ! ~ * ' ( )] stay, every
    other byte becomes [%XX] with upper-case digits. *)
Definition uri_unreserved (c : ascii) : bool :=
  let n := Z.of_nat (nat_of_ascii c) in
  bool_decide (48 ≤ n ≤ 57 ∨ 65 ≤ n ≤ 90 ∨ 97 ≤ n ≤ 122
               ∨ n ∈ [45; 95; 46; 33; 126; 42; 39; 40; 41]).

Fixpoint encodeURIComponent (s : string) : string :=
  match s with
  | EmptyString => EmptyString
  | String c s' =>
      if uri_unreserved c then String c (encodeURIComponent s')
      else
        let n := Z.of_nat (nat_of_ascii c) in
        String "%" (String (hex_digit true (n / 16))
                      (String (hex_digit true (n mod 16)) (encodeURIComponent s')))
  end.

(** [getCookie]: the loop over the parts of the header; [None] is [null]. *)
Fixpoint getCookie_parts (name : string) (parts : list string)
  : Result (option string) :=
  match parts with
  | [] => Ok None
  | part :: parts' =>
      let kv := splitEq part in
      match kv !! 0%nat, kv !! 1%nat with
      | Some k, Some v =>
          if bool_decide (k = name) && bool_decide (v ≠ "")
          then s ← decodeURIComponent v; Ok (Some s)
          else getCookie_parts name parts'
      | _, _ => getCookie_parts name parts'
      end
  end.

Definition getCookie (req : Request) (name : string) : Result (option string) :=
  match req_cookie req with
  | None => Ok None
  | Some cookie =>
      if decide (cookie = "") then Ok None
      else getCookie_parts name (splitCookie false cookie)
  end.

(** ** Configuration and authentication *)

(** [getConfig]: [raw || {}]. *)
Definition getConfig (env : Env) : JsVal :=
  let raw := LINKS_KV env !! CONFIG_KEY in
  match raw with
  | Some v => if truthy raw then v else JObj []
  | None => JObj []
  end.

Definition kv_put (key : string) (v : JsVal) (env : Env) : Env :=
  mkEnv (<[key := v]> (LINKS_KV env)).

Definition saveConfig (env : Env) (config : JsVal) : Env :=
  kv_put CONFIG_KEY config env.

Definition getCurrentPasswordHash (env : Env) : JsVal :=
  let cfg := getConfig env in
  match js_get "passwordHash" cfg with
  | Some h => if truthy (Some h) then h else JStr (hashPassword DEFAULT_PASSWORD)
  | None => JStr (hashPassword DEFAULT_PASSWORD)
  end.

Definition isAuthenticated (req : Request) (env : Env) : Result bool :=
  token ← getCookie req AUTH_COOKIE;
  match token with
  | None => Ok false
  | Some t =>
      if decide (t = "") then Ok false
      else
        let currentHash := getCurrentPasswordHash env in
        Ok (str_strict_eq t currentHash)
  end.

Definition maxAge : Z := 60 * 60 * 24 * 30.

Definition setAuthCookie (hash : string) : string :=
  AUTH_COOKIE +:+ "=" +:+ encodeURIComponent hash
    +:+ "; Path=/; HttpOnly; Secure; SameSite=Lax; Max-Age=" +:+ pretty maxAge.

(** [cfg.passwordHash = newHash]: module code is strict, so the assignment
    throws a [TypeError] on a number, a string or a boolean; on an array it
    adds a property that [JSON.stringify] leaves out. *)
Definition set_passwordHash (newHash : string) (cfg : JsVal) : Result JsVal :=
  match cfg with
  | JObj props => Ok (JObj (assoc_set "passwordHash" (JStr newHash) props))
  | JArr items => Ok (JArr items)
  | _ => Throw TypeError
  end.

(** ** The request handler *)

(** What [fetch] resolves to: a response of the worker, or the response of
    [env.ASSETS.fetch(req)]. *)
Inductive Outcome :=
  | Respond (r : Response)
  | Assets (req : Request).

Definition error (msg : string) : JsVal := JObj [("error", JStr msg)].
Definition ok_true : JsVal := JObj [("ok", JBool true)].

(** [fetch]: the outcome and the KV namespace afterwards; when it throws,
    nothing has been written.  A default status is [200].  In the login
    branch [setAuthCookie(currentHash)] is applied to [inputHash], which
    [currentHash] is once the comparison [!==] has failed to tell them
    apart. *)
Definition fetch (req : Request) (env : Env) : Result (Outcome * Env) :=
  let pathname := req_pathname req in
  if bool_decide (pathname = "/api/auth-status") && bool_decide (req_method req = "GET")
  then
    ok ← isAuthenticated req env;
    Ok (Respond (json (JObj [("authenticated", JBool ok)]) 200 []), env)
  else if bool_decide (pathname = "/api/login") && bool_decide (req_method req = "POST")
  then
    match req_json req with
    | None => Ok (Respond (json (error "Invalid JSON") 400 []), env)
    | Some body =>
        password ← orEmpty_toString (js_get "password" body);
        if decide (password = "")
        then Ok (Respond (json (error "Password required") 400 []), env)
        else
          let currentHash := getCurrentPasswordHash env in
          let inputHash := hashPassword password in
          if negb (str_strict_eq inputHash currentHash)
          then Ok (Respond (json (error "Wrong password") 401 []), env)
          else
            let headers := [("Set-Cookie", setAuthCookie inputHash)] in
            Ok (Respond (json ok_true 200 headers), env)
    end
  else if bool_decide (pathname = "/api/change-password")
          && bool_decide (req_method req = "POST")
  then
    authed ← isAuthenticated req env;
    if negb authed then Ok (Respond (json (error "Unauthorized") 401 []), env)
    else
      match req_json req with
      | None => Ok (Respond (json (error "Invalid JSON") 400 []), env)
      | Some body =>
          oldPassword ← orEmpty_toString (js_get "oldPassword" body);
          newPassword ← orEmpty_toString (js_get "newPassword" body);
          if bool_decide (oldPassword = "") || bool_decide (newPassword = "")
          then Ok (Respond (json (error "oldPassword and newPassword are required")
                              400 []), env)
          else
            let currentHash := getCurrentPasswordHash env in
            let oldHash := hashPassword oldPassword in
            if negb (str_strict_eq oldHash currentHash)
            then Ok (Respond (json (error "Old password incorrect") 400 []), env)
            else
              let newHash := hashPassword newPassword in
              cfg ← set_passwordHash newHash (getConfig env);
              let env := saveConfig env cfg in
              let headers := [("Set-Cookie", setAuthCookie newHash)] in
              Ok (Respond (json ok_true 200 headers), env)
      end
  else if bool_decide (pathname = "/api/data")
  then
    authed ← isAuthenticated req env;
    if negb authed then Ok (Respond (json (error "Unauthorized") 401 []), env)
    else if bool_decide (req_method req = "GET")
    then
      let data := LINKS_KV env !! DATA_KEY in
      match data with
      | Some d =>
          if truthy data then Ok (Respond (json d 200 []), env)
          else Ok (Respond (json (JObj [("categories", JArr []); ("links", JArr [])])
                              200 []), env)
      | None =>
          Ok (Respond (json (JObj [("categories", JArr []); ("links", JArr [])])
                         200 []), env)
      end
    else if bool_decide (req_method req = "POST")
    then
      match req_json req with
      | None => Throw SyntaxError
      | Some body =>
          let env := kv_put DATA_KEY body env in
          Ok (Respond (json ok_true 200 []), env)
      end
    else Ok (Respond (json (error "Method not allowed") 405 []), env)
  else Ok (Assets req, env).

(** * Notions used in the statements *)

(** Every [order] is the index of its link (of its category) in the array. *)
Definition positional (l : list LinkItem) : Prop :=
  ∀ (k : nat) x, l !! k = Some x → link_order x = Z.of_nat k.

Definition cat_positional (l : list Category) : Prop :=
  ∀ (k : nat) c, l !! k = Some c → cat_order c = Z.of_nat k.

(** The links of one category, in the order of the flat array. *)
Definition linksOf (c : string) (l : list LinkItem) : list LinkItem :=
  filter (λ x, link_categoryId x = c) l.

(** The drop of a category on a category in the words of the specification:
    the dragged category is re-inserted at the index that the target has
    after the removal. *)
Definition spec_dropCategories (draggedId targetId : string) (prev : list Category)
  : list Category :=
  match list_find (λ c, cat_id c = draggedId) prev with
  | Some (i, moved) =>
      let rest := delete i prev in
      match list_find (λ c, cat_id c = targetId) rest with
      | Some (k, _) => cat_renumber (take k rest ++ moved :: drop k rest)
      | None => prev
      end
  | None => prev
  end.

(** One reorder gesture on link cards: the card [op_dragged] is picked up,
    held over the card [op_target] on the side given by [op_left], and
    dropped there. *)
Record LinkDrop := mkLinkDrop {
  op_dragged : string;
  op_target : string;
  op_left : bool
}.

Definition reorderLink (op : LinkDrop) (s : State) : State :=
  let s := handleDragStart (mkDragItem LINK (op_dragged op) None) s in
  let s := handleDragOver (op_left op) (op_target op) s in
  let s := handleDropWithState (op_target op) LINK s in
  handleDragEnd s.

Definition reorderLinks (ops : list LinkDrop) (s : State) : State :=
  foldl (λ s op, reorderLink op s) s ops.

(** The orders of the links of category [c] are a permutation of
    [[0, N-1]], [N] the number of its links. *)
Definition category_orders_contiguous (c : string) (l : list LinkItem) : Prop :=
  link_order <$> linksOf c l
  ≡ₚ Z.of_nat <$> seq 0 (length (linksOf c l)).

(** The order of links by their [order] field. *)
Definition order_le (a b : LinkItem) : Prop := link_order a ≤ link_order b.
Definition order_lt (a b : LinkItem) : Prop := link_order a < link_order b.

(** A query that is empty or consists of ASCII white space only. *)
Definition blank (s : string) : Prop :=
  Forall (λ c, nat_of_ascii c ∈ [9; 10; 11; 12; 13; 32]%nat)
    (String.list_ascii_of_string s).

(** [text] contains [query] as a substring. *)
Definition contains (text query : string) : Prop :=
  ∃ pre post, text = pre +:+ query +:+ post.

(** Two characters that are equal or the two cases of one ASCII letter, and
    two strings that are the same up to the case of their letters. *)
Definition same_letter (a b : ascii) : Prop :=
  a = b
  ∨ ((65 ≤ nat_of_ascii a ≤ 90)%nat ∧ nat_of_ascii b = (nat_of_ascii a + 32)%nat)
  ∨ ((65 ≤ nat_of_ascii b ≤ 90)%nat ∧ nat_of_ascii a = (nat_of_ascii b + 32)%nat).

Definition same_up_to_case (s t : string) : Prop :=
  Forall2 same_letter (String.list_ascii_of_string s) (String.list_ascii_of_string t).

(** [text] contains [query] as a substring, up to the case of letters. *)
Definition ci_contains (text query : string) : Prop :=
  ∃ pre mid post, text = pre +:+ mid +:+ post ∧ same_up_to_case mid query.

(** The texts of a link that the search looks at. *)
Definition searched_texts (l : LinkItem) : list string :=
  [link_title l; link_url l]
  ++ match link_description l with Some d => [d] | None => [] end
  ++ (sub_title <$> link_subLinks l).

(** The links the search keeps for a query that is not blank: a searched
    text, lower-cased, contains the lower-cased query. *)
Definition Found {SP : StringPrototype} (query : string) (l : LinkItem) : Prop :=
  ∃ text, text ∈ searched_texts l ∧ contains (toLowerCase text) (toLowerCase query).

(** On ASCII text: a searched text contains the query up to case. *)
Definition Matches (query : string) (l : LinkItem) : Prop :=
  ∃ text, text ∈ searched_texts l ∧ ci_contains text query.

Definition ascii_link (l : LinkItem) : Prop :=
  Forall ascii_text (searched_texts l).

(** Strings of lower-case hexadecimal digits. *)
Definition is_lower_hex (c : ascii) : bool :=
  let n := Z.of_nat (nat_of_ascii c) in
  bool_decide (48 ≤ n ≤ 57 ∨ 97 ≤ n ≤ 102).

Definition hex_string (s : string) : Prop :=
  Forall (λ c, is_lower_hex c = true) (String.list_ascii_of_string s).

(** Requests of the API. *)
Definition loginRequest (body : option JsVal) : Request :=
  mkRequest "POST" "/api/login" None body.

Definition passwordBody (password : string) : JsVal :=
  JObj [("password", JStr password)].

Definition changePasswordRequest (cookie : option string) (old new : string)
  : Request :=
  mkRequest "POST" "/api/change-password" cookie
    (Some (JObj [("oldPassword", JStr old); ("newPassword", JStr new)])).

Definition dataRequest (method : string) (cookie : option string)
    (body : option JsVal) : Request :=
  mkRequest method "/api/data" cookie body.

(** The [Cookie] header a browser sends back for [Set-Cookie: LM_AUTH=hash]. *)
Definition authCookie (hash : string) : string := AUTH_COOKIE +:+ "=" +:+ hash.

(** A namespace in which nothing was ever stored. *)
Definition unconfigured : Env := mkEnv ∅.

(** [authenticate(password)]: the login with [password] is answered by
    [200]. *)
Definition authenticate (password : string) (env : Env) : Prop :=
  ∃ r, fetch (loginRequest (Some (passwordBody password))) env = Ok (Respond r, env)
       ∧ res_status r = 200.

(** The empty data set served when nothing is stored. *)
Definition emptyDataset : JsVal :=
  JObj [("categories", JArr []); ("links", JArr [])].

(** Scenarios. *)
Definition aLink (id categoryId : string) (order : Z) : LinkItem :=
  mkLinkItem id id ("https://" +:+ id) None categoryId 0 order [].

Definition aState (categories : list Category) (links : list LinkItem) : State :=
  loadData (mkAppData categories links) initialState.

(** Link A (category X, order 2) and link B (category Y, order 0). *)
Definition scenario_AB : State :=
  aState [mkCategory "X" "X" 0; mkCategory "Y" "Y" 1]
         [aLink "B" "Y" 0; aLink "C" "Y" 1; aLink "A" "X" 2].

Definition scenario_abc : State :=
  aState [mkCategory "a" "A" 0; mkCategory "b" "B" 1; mkCategory "c" "C" 2] [].

(** Two categories; the links carry distinct orders. *)
Definition scenario_two_categories : State :=
  aState [mkCategory "X" "X" 0; mkCategory "Y" "Y" 1]
         [aLink "c" "Y" 0; aLink "a" "X" 1; aLink "b" "X" 2].

(** One category; the orders are distinct, with gaps. *)
Definition scenario_gaps : State :=
  aState [mkCategory "X" "X" 0] [aLink "a" "X" 5; aLink "b" "X" 9].

(** The seed data after the category "Development" has been deleted. *)
Definition scenario_after_delete : State :=
  performDelete
    (requestDeleteCategory "cat_dev" "Development"
       (loadData (SEED_DATA 0) initialState)).

Definition scenario_two_links : State :=
  aState [] [aLink "a" "uncategorized" 0; aLink "b" "uncategorized" 1].

(** What a link is apart from its category and its order, and what a
    category is apart from its order. *)
Definition link_content (l : LinkItem)
  : string * string * string * option string * Z * list SubLink :=
  (link_id l, link_title l, link_url l, link_description l, link_createdAt l,
   link_subLinks l).

Definition cat_content (c : Category) : string * string := (cat_id c, cat_name c).

(** The links the search keeps for the query [q]. *)
Definition keeps {SP : StringPrototype} (q : string) (l : LinkItem) : Prop :=
  trim q = "" ∨ matchesQuery (toLowerCase q) l = true.

(** The code of a character, and the strings that are well-formed UTF-8
    (the byte sequences of the Unicode standard, table 3-7). *)
Definition code (c : ascii) : Z := Z.of_nat (nat_of_ascii c).

Definition continuation (c : ascii) : Prop := 0x80 ≤ code c ≤ 0xbf.

Inductive wf_utf8 : string → Prop :=
  | utf8_empty : wf_utf8 ""
  | utf8_one c s : code c < 0x80 → wf_utf8 s → wf_utf8 (String c s)
  | utf8_two c1 c2 s :
      0xc2 ≤ code c1 ≤ 0xdf → continuation c2 → wf_utf8 s →
      wf_utf8 (String c1 (String c2 s))
  | utf8_three c1 c2 c3 s :
      (code c1 = 0xe0 ∧ 0xa0 ≤ code c2 ≤ 0xbf)
      ∨ (0xe1 ≤ code c1 ≤ 0xef ∧ code c1 ≠ 0xed ∧ continuation c2)
      ∨ (code c1 = 0xed ∧ 0x80 ≤ code c2 ≤ 0x9f) →
      continuation c3 → wf_utf8 s →
      wf_utf8 (String c1 (String c2 (String c3 s)))
  | utf8_four c1 c2 c3 c4 s :
      (code c1 = 0xf0 ∧ 0x90 ≤ code c2 ≤ 0xbf)
      ∨ (0xf1 ≤ code c1 ≤ 0xf3 ∧ continuation c2)
      ∨ (code c1 = 0xf4 ∧ 0x80 ≤ code c2 ≤ 0x8f) →
      continuation c3 → continuation c4 → wf_utf8 s →
      wf_utf8 (String c1 (String c2 (String c3 (String c4 s)))).

(** A request that carries the cookie header [cookie] and nothing else of
    interest. *)
Definition cookieRequest (method pathname : string) (cookie : string) : Request :=
  mkRequest method pathname (Some cookie) None.

(** The character [c] does not occur in [s]. *)
Definition free_of (c : ascii) (s : string) : Prop :=
  c ∉ String.list_ascii_of_string s.

(** The token [encodeURIComponent] leaves for a character. *)
Definition token_of (c : ascii) : UriToken :=
  if uri_unreserved c then ULit c else UEsc (code c).

(** * Verification of the ordering engine *)

(** ** Array primitives *)

Section array_primitives.
Context {A : Type} (P : A → Prop) `{!∀ x, Decision (P x)}.
Implicit Types l items : list A.

Lemma findIndex_Some l i x :
  list_find P l = Some (i, x) → findIndex P l = Z.of_nat i.
Proof. unfold findIndex. by intros ->. Qed.

Lemma findIndex_None l : list_find P l = None ↔ findIndex P l = -1.
Proof.
  unfold findIndex. destruct (list_find P l) as [[i x]|]; split; try done; lia.
Qed.

Lemma findIndex_found l :
  findIndex P l ≠ -1 →
  ∃ i x, list_find P l = Some (i, x) ∧ findIndex P l = Z.of_nat i.
Proof.
  unfold findIndex. destruct (list_find P l) as [[i x]|]; [eauto|done].
Qed.

(** A start index within the array is used as it is. *)
Lemma splice_nat (k n : nat) items l :
  (k ≤ length l)%nat →
  splice (Z.of_nat k) n items l
  = (take n (drop k l), take k l ++ items ++ drop (k + n) l).
Proof.
  intros Hk. unfold splice. rewrite decide_False by lia.
  by replace (Z.to_nat (Z.of_nat k `min` Z.of_nat (length l))) with k by lia.
Qed.

Lemma splice_remove_one (k : nat) l x :
  l !! k = Some x → splice (Z.of_nat k) 1 [] l = ([x], delete k l).
Proof.
  intros Hx. rewrite splice_nat by (apply lookup_lt_Some in Hx; lia).
  rewrite delete_take_drop. replace (k + 1)%nat with (S k) by lia.
  f_equal. by rewrite (drop_S _ _ _ Hx).
Qed.

Lemma splice_insert_one (k : nat) l x :
  (k ≤ length l)%nat →
  splice (Z.of_nat k) 0 [x] l = ([], take k l ++ x :: drop k l).
Proof.
  intros Hk. rewrite splice_nat by done. by rewrite Nat.add_0_r.
Qed.

(** Removing another element shifts the first match down by at most one. *)
Lemma list_find_delete_ne l (i j : nat) t :
  list_find P l = Some (j, t) → i ≠ j →
  list_find P (delete i l)
  = Some ((if decide (i < j)%nat then pred j else j), t).
Proof.
  intros (Hj & Ht & Hmin)%list_find_Some Hij. apply list_find_Some.
  split_and!; [|done|].
  - case_decide.
    + rewrite list_lookup_delete_ge by lia. by replace (S (pred j)) with j by lia.
    + by rewrite list_lookup_delete_lt by lia.
  - intros k y Hk Hlt. destruct (decide (k < i)%nat).
    + rewrite list_lookup_delete_lt in Hk by done.
      apply (Hmin k y Hk). case_decide; lia.
    + rewrite list_lookup_delete_ge in Hk by lia.
      apply (Hmin (S k) y Hk). case_decide; lia.
Qed.

Lemma list_delete_insert_same l (i : nat) x :
  delete i (<[i:=x]> l) = delete i l.
Proof.
  by rewrite !delete_take_drop, take_insert_ge, drop_insert_lt by lia.
Qed.

(** The list split at its first match. *)
Lemma list_find_split l j t :
  list_find P l = Some (j, t) →
  l = take j l ++ t :: drop (S j) l
  ∧ length (take j l) = j
  ∧ Forall (λ x, ¬ P x) (take j l).
Proof.
  intros (Hj & Ht & Hmin)%list_find_Some. split_and!.
  - by rewrite take_drop_middle.
  - apply lookup_lt_Some in Hj. rewrite length_take. lia.
  - apply Forall_lookup. intros k y Hk.
    apply lookup_take_Some in Hk as [Hk ?]. eauto.
Qed.
End array_primitives.

Lemma renumber_lookup (l : list LinkItem) (k : nat) (x : LinkItem) :
  renumber l !! k = Some x → link_order x = Z.of_nat k.
Proof.
  unfold renumber. rewrite list_lookup_imap.
  destruct (l !! k); simpl; [|done]. by intros [= <-].
Qed.

Lemma renumber_length (l : list LinkItem) : length (renumber l) = length l.
Proof. apply length_imap. Qed.

(** ** Link dropped on a link *)

Lemma dropLinks_on_link prevLinks draggedId targetId pos (i j : nat) d t :
  list_find (λ l, link_id l = draggedId) prevLinks = Some (i, d) →
  list_find (λ l, link_id l = targetId) prevLinks = Some (j, t) →
  i ≠ j →
  let d' := with_categoryId (link_categoryId t) d in
  let rest := delete i prevLinks in
  let j' := if decide (i < j)%nat then pred j else j in
  list_find (λ l, link_id l = targetId) rest = Some (j', t)
  ∧ dropLinks draggedId targetId LINK pos prevLinks
    = renumber (if decide (pos = Some AFTER)
                then take (S j') rest ++ d' :: drop (S j') rest
                else take j' rest ++ d' :: drop j' rest).
Proof.
  intros Hd Ht Hij d' rest j'.
  pose proof (list_find_delete_ne _ _ i j t Ht Hij) as Hrest.
  split; [done|].
  unfold dropLinks.
  rewrite (findIndex_Some _ _ _ _ Hd), (findIndex_Some _ _ _ _ Ht).
  apply list_find_Some in Hd as (Hdi & _ & _).
  apply list_find_Some in Ht as (Htj & _ & _).
  rewrite decide_False by lia. rewrite decide_False by lia.
  rewrite !Nat2Z.id, Hdi, Htj. rewrite decide_False by lia.
  assert (Hi : (i < length prevLinks)%nat) by by eapply lookup_lt_Some.
  rewrite (splice_remove_one _ _ d') by by apply list_lookup_insert_eq.
  cbv beta iota. rewrite list_delete_insert_same.
  rewrite (findIndex_Some _ _ _ _ Hrest). simpl take. fold j' rest.
  assert (Hj' : (j' < length rest)%nat).
  { apply list_find_Some in Hrest as (? & _). by eapply lookup_lt_Some. }
  destruct (decide (pos = Some AFTER)).
  - replace (Z.of_nat j' + 1) with (Z.of_nat (S j')) by lia.
    by rewrite splice_insert_one by lia.
  - by rewrite splice_insert_one by lia.
Qed.

Lemma cat_renumber_lookup (l : list Category) (k : nat) (x : Category) :
  cat_renumber l !! k = Some x → cat_order x = Z.of_nat k.
Proof.
  unfold cat_renumber. rewrite list_lookup_imap.
  destruct (l !! k); simpl; [|done]. by intros [= <-].
Qed.

(** The reads of [allLinks[draggedLinkIndex]] and [allLinks[targetLinkIndex]]
    in [dropLinks] are defined whenever they are reached. *)
Lemma dropLinks_reads_defined (prevLinks : list LinkItem) (id : string) :
  findIndex (λ l, link_id l = id) prevLinks ≠ -1 →
  is_Some (prevLinks !! Z.to_nat (findIndex (λ l, link_id l = id) prevLinks)).
Proof.
  intros (i & x & Hf & ->)%findIndex_found.
  apply list_find_Some in Hf as (? & _). rewrite Nat2Z.id. eauto.
Qed.

(** A drop of a link on a link either returns the previous array or a
    renumbered one. *)
Lemma dropLinks_link_cases draggedId targetId pos prevLinks :
  dropLinks draggedId targetId LINK pos prevLinks = prevLinks
  ∨ ∃ i j d t,
      list_find (λ l, link_id l = draggedId) prevLinks = Some (i, d)
      ∧ list_find (λ l, link_id l = targetId) prevLinks = Some (j, t)
      ∧ i ≠ j.
Proof.
  destruct (list_find (λ l, link_id l = draggedId) prevLinks) as [[i d]|] eqn:Hd;
    last first.
  { left. unfold dropLinks. apply findIndex_None in Hd. rewrite Hd.
    by rewrite decide_True. }
  destruct (list_find (λ l, link_id l = targetId) prevLinks) as [[j t]|] eqn:Ht;
    last first.
  { left. unfold dropLinks. apply findIndex_None in Ht. rewrite Ht.
    rewrite (findIndex_Some _ _ _ _ Hd).
    rewrite decide_False by lia. by rewrite decide_True. }
  destruct (decide (i = j)) as [->|Hij]; [|right; by eauto 10].
  left. unfold dropLinks.
  rewrite (findIndex_Some _ _ _ _ Hd), (findIndex_Some _ _ _ _ Ht).
  apply list_find_Some in Hd as (Hdi & _ & _).
  apply list_find_Some in Ht as (Htj & _ & _).
  rewrite decide_False by lia. rewrite decide_False by lia.
  rewrite !Nat2Z.id, Hdi. by rewrite decide_True.
Qed.

(** ** Category dropped on a category *)

Lemma dropCategories_found prev draggedId targetId (i j : nat) m t :
  list_find (λ c, cat_id c = draggedId) prev = Some (i, m) →
  list_find (λ c, cat_id c = targetId) prev = Some (j, t) →
  dropCategories draggedId targetId prev
  = cat_renumber (take j (delete i prev) ++ m :: drop j (delete i prev)).
Proof.
  intros Hd Ht. unfold dropCategories.
  rewrite (findIndex_Some _ _ _ _ Hd), (findIndex_Some _ _ _ _ Ht).
  apply list_find_Some in Hd as (Hdi & _ & _).
  apply list_find_Some in Ht as (Htj & _ & _).
  rewrite decide_True by lia.
  rewrite (splice_remove_one _ _ m) by done. cbv beta iota. simpl take.
  apply lookup_lt_Some in Hdi, Htj.
  rewrite splice_insert_one; [done|]. rewrite length_delete by eauto using lookup_lt_is_Some_2. lia.
Qed.

Lemma dropCategories_not_found prev draggedId targetId :
  list_find (λ c, cat_id c = draggedId) prev = None
  ∨ list_find (λ c, cat_id c = targetId) prev = None →
  dropCategories draggedId targetId prev = prev.
Proof.
  intros H. unfold dropCategories. rewrite decide_False; [done|].
  intros [? ?]. destruct H as [H|H]; apply findIndex_None in H; done.
Qed.

(** Re-inserting an element where it was removed gives the list back. *)
Lemma take_delete_reinsert {A} (l : list A) (i : nat) (x : A) :
  l !! i = Some x → take i (delete i l) ++ x :: drop i (delete i l) = l.
Proof.
  intros Hx. rewrite delete_take_drop.
  assert (Hlen : length (take i l) = i).
  { apply lookup_lt_Some in Hx. rewrite length_take. lia. }
  rewrite take_app_length' by done. rewrite drop_app_length' by done.
  by apply take_drop_middle.
Qed.

(** Inserting next to the element at which a list is split. *)
Lemma insert_before_split {A} (pre post : list A) (t x : A) :
  take (length pre) (pre ++ t :: post) ++ x :: drop (length pre) (pre ++ t :: post)
  = pre ++ x :: t :: post.
Proof. by rewrite take_app_length, drop_app_length. Qed.

Lemma insert_after_split {A} (pre post : list A) (t x : A) :
  take (S (length pre)) (pre ++ t :: post)
    ++ x :: drop (S (length pre)) (pre ++ t :: post)
  = pre ++ t :: x :: post.
Proof.
  rewrite (cons_middle t), app_assoc.
  replace (S (length pre)) with (length (pre ++ [t]))
    by (rewrite length_app; simpl; lia).
  by rewrite take_app_length, drop_app_length, <-app_assoc.
Qed.

Lemma insert_at_split {A} (l pre post : list A) (t x : A) (k : nat) :
  l = pre ++ t :: post → length pre = k →
  take k l ++ x :: drop k l = pre ++ x :: t :: post
  ∧ take (S k) l ++ x :: drop (S k) l = pre ++ t :: x :: post.
Proof.
  intros -> <-. split; [apply insert_before_split | apply insert_after_split].
Qed.

(** ** Renumbering *)

Lemma cat_renumber_length (l : list Category) : length (cat_renumber l) = length l.
Proof. apply length_imap. Qed.

Lemma cat_renumber_ids (l : list Category) :
  cat_id <$> cat_renumber l = cat_id <$> l.
Proof.
  apply list_eq. intros k. unfold cat_renumber.
  rewrite !list_lookup_fmap, list_lookup_imap. by destruct (l !! k).
Qed.

Lemma cat_renumber_names (l : list Category) :
  cat_name <$> cat_renumber l = cat_name <$> l.
Proof.
  apply list_eq. intros k. unfold cat_renumber.
  rewrite !list_lookup_fmap, list_lookup_imap. by destruct (l !! k).
Qed.

Lemma cat_renumber_positional (l : list Category) :
  cat_positional l → cat_renumber l = l.
Proof.
  intros Hpos. apply list_eq. intros k. unfold cat_renumber.
  rewrite list_lookup_imap. destruct (l !! k) as [c|] eqn:Hc; [|done].
  simpl. f_equal. specialize (Hpos k c Hc). destruct c; simpl in *. by subst.
Qed.

Lemma renumber_positional (l : list LinkItem) : positional (renumber l).
Proof. intros k x. apply renumber_lookup. Qed.

Lemma renumber_of_positional (l : list LinkItem) :
  positional l → renumber l = l.
Proof.
  intros Hpos. apply list_eq. intros k. unfold renumber.
  rewrite list_lookup_imap. destruct (l !! k) as [x|] eqn:Hx; [|done].
  simpl. f_equal. specialize (Hpos k x Hx). destruct x; simpl in *. by subst.
Qed.

Lemma positional_orders (l : list LinkItem) :
  positional l → link_order <$> l = Z.of_nat <$> seq 0 (length l).
Proof.
  intros Hpos. apply list_eq. intros k. rewrite !list_lookup_fmap.
  destruct (l !! k) as [x|] eqn:Hx; simpl.
  - rewrite lookup_seq_lt by by eapply lookup_lt_Some.
    simpl. f_equal. by apply Hpos.
  - rewrite lookup_seq_ge; [done|]. by apply lookup_ge_None.
Qed.

Lemma positional_NoDup (l : list LinkItem) :
  positional l → NoDup (link_order <$> l).
Proof.
  intros ->%positional_orders. apply NoDup_fmap; [apply _|apply NoDup_seq].
Qed.

(** A category dropped on itself is renumbered in place. *)
Lemma dropCategories_self (id : string) (prev : list Category) :
  dropCategories id id prev
  = if decide (is_Some (list_find (λ c, cat_id c = id) prev))
    then cat_renumber prev else prev.
Proof.
  case_decide as Hf.
  - destruct Hf as [[i m] Hf]. rewrite (dropCategories_found _ _ _ i i m m) by done.
    apply list_find_Some in Hf as (? & _). by rewrite take_delete_reinsert.
  - apply dropCategories_not_found. left. by apply eq_None_not_Some.
Qed.

(** ** The sort *)

Section sorting.
Implicit Types l : list LinkItem.

Lemma sort_insert_perm {A} (cmp : A → A → Z) (x : A) (l : list A) :
  sort_insert cmp x l ≡ₚ x :: l.
Proof.
  induction l as [|y l IH]; simpl; [done|].
  case_decide; [|done]. rewrite IH. apply Permutation_swap.
Qed.

Lemma js_sort_perm {A} (cmp : A → A → Z) (l : list A) : js_sort cmp l ≡ₚ l.
Proof.
  induction l as [|x l IH]; simpl; [done|].
  by rewrite sort_insert_perm, IH.
Qed.

Lemma sort_insert_sorted x l :
  StronglySorted order_le l → StronglySorted order_le (sort_insert by_order x l).
Proof.
  induction 1 as [|y l Hl IH Hy]; simpl.
  - repeat constructor.
  - unfold by_order at 1. case_decide as Hc.
    + constructor; [done|]. rewrite sort_insert_perm.
      constructor; [unfold order_le; lia|done].
    + constructor; [by constructor|].
      constructor; [unfold order_le; lia|].
      eapply Forall_impl; [exact Hy|]. unfold order_le. intros; lia.
Qed.

Lemma js_sort_sorted l : StronglySorted order_le (js_sort by_order l).
Proof.
  induction l as [|x l IH]; simpl; [constructor|by apply sort_insert_sorted].
Qed.

(** An array already in order is left as it is. *)
Lemma js_sort_of_sorted l : Sorted order_le l → js_sort by_order l = l.
Proof.
  induction 1 as [|x l Hl IH Hx]; simpl; [done|].
  rewrite IH. destruct Hx as [|y l Hxy]; simpl; [done|].
  unfold by_order, order_le in *. by rewrite decide_False by lia.
Qed.

(** The sort is stable: links of equal order keep their relative
    position. *)
Lemma sort_insert_filter (P : LinkItem → Prop) `{!∀ x, Decision (P x)} x l :
  (∀ y, P y → y ∈ l → P x → link_order x ≤ link_order y) →
  filter P (sort_insert by_order x l) = filter P (x :: l).
Proof.
  induction l as [|y l IH]; intros Hle; simpl; [done|].
  unfold by_order at 1. case_decide as Hc; [|done].
  rewrite filter_cons, IH by (intros; apply Hle; set_solver).
  rewrite !filter_cons. destruct (decide (P y)) as [Hy|]; [|done].
  destruct (decide (P x)) as [Hx|]; [|done].
  specialize (Hle y Hy ltac:(set_solver) Hx). lia.
Qed.

Lemma js_sort_stable (n : Z) l :
  filter (λ x, link_order x = n) (js_sort by_order l)
  = filter (λ x, link_order x = n) l.
Proof.
  induction l as [|x l IH]; simpl; [done|].
  rewrite sort_insert_filter, !filter_cons, IH; [done|].
  intros y -> _ ->. lia.
Qed.
End sorting.

Lemma positional_sorted (l : list LinkItem) :
  positional l → StronglySorted order_lt l.
Proof.
  induction l as [|x l IH] using rev_ind; intros Hpos; [constructor|].
  apply StronglySorted_app_2.
  - intros y z Hy ->%list_elem_of_singleton.
    apply list_elem_of_lookup in Hy as [k Hk].
    pose proof (lookup_lt_Some _ _ _ Hk) as Hlt.
    unfold order_lt. rewrite (Hpos k y) by by apply lookup_app_l_Some.
    rewrite (Hpos (length l) x); [lia|].
    by rewrite list_lookup_middle.
  - apply IH. intros k y Hk. apply Hpos. by apply lookup_app_l_Some.
  - repeat constructor.
Qed.

Lemma StronglySorted_filter {A} (R : relation A) (P : A → Prop)
    `{!∀ x, Decision (P x)} (l : list A) :
  StronglySorted R l → StronglySorted R (filter P l).
Proof.
  induction 1 as [|x l Hl IH Hx]; [constructor|].
  rewrite filter_cons. case_decide; [|done].
  constructor; [done|]. apply Forall_forall. intros y [_ Hy]%list_elem_of_filter.
  by eapply Forall_forall in Hx.
Qed.

Lemma StronglySorted_weaken {A} (R R' : relation A) (l : list A) :
  (∀ x y, R x y → R' x y) → StronglySorted R l → StronglySorted R' l.
Proof.
  intros HR. induction 1 as [|x l Hl IH Hx]; constructor; [done|].
  eapply Forall_impl; [exact Hx|]. auto.
Qed.

Lemma filter_all_length {A} (P : A → Prop) `{!∀ x, Decision (P x)} (l : list A) :
  length (filter P l) = length l → filter P l = l.
Proof.
  induction l as [|x l IH]; [done|]. rewrite filter_cons.
  case_decide; simpl; intros Hlen.
  - f_equal. apply IH. lia.
  - pose proof (length_filter P l). lia.
Qed.

(** ** Strings *)

Lemma append_cons (c : ascii) (a b : string) :
  String c a +:+ b = String c (a +:+ b).
Proof. reflexivity. Qed.

Lemma append_empty_l (b : string) : "" +:+ b = b.
Proof. reflexivity. Qed.

Lemma toLowerCaseASCII_app (a b : string) :
  toLowerCaseASCII (a +:+ b) = toLowerCaseASCII a +:+ toLowerCaseASCII b.
Proof.
  induction a as [|x a IH]; [done|].
  rewrite append_cons. simpl. by rewrite IH.
Qed.

(** A split of the lower-cased string is the lower-casing of a split. *)
Lemma toLowerCaseASCII_split (s x y : string) :
  toLowerCaseASCII s = x +:+ y →
  ∃ a b, s = a +:+ b ∧ toLowerCaseASCII a = x ∧ toLowerCaseASCII b = y.
Proof.
  revert s. induction x as [|c x IH]; intros s.
  - rewrite append_empty_l. intros <-. by exists "", s.
  - rewrite append_cons. destruct s as [|c' s]; simpl; [done|]. intros [= Hc Hs].
    destruct (IH s Hs) as (a & b & -> & <- & <-).
    exists (String c' a), b. simpl. by rewrite Hc.
Qed.

Lemma nat_of_ascii_inj (a b : ascii) : nat_of_ascii a = nat_of_ascii b → a = b.
Proof.
  intros H. rewrite <-(ascii_nat_embedding a), <-(ascii_nat_embedding b).
  by rewrite H.
Qed.

Lemma lower_ascii_code (c : ascii) :
  nat_of_ascii (lower_ascii c)
  = if decide (65 ≤ nat_of_ascii c ≤ 90)%nat
    then (nat_of_ascii c + 32)%nat else nat_of_ascii c.
Proof.
  unfold lower_ascii. case_decide; [|done].
  apply nat_ascii_embedding. lia.
Qed.

(** Lower-casing identifies exactly the two cases of a letter. *)
Lemma lower_ascii_same_letter (a b : ascii) :
  lower_ascii a = lower_ascii b ↔ same_letter a b.
Proof.
  unfold same_letter. split.
  - intros H. apply (f_equal nat_of_ascii) in H. rewrite !lower_ascii_code in H.
    destruct (decide (nat_of_ascii a = nat_of_ascii b)) as [Hab|Hab];
      [left; by apply nat_of_ascii_inj|right].
    repeat case_decide; lia.
  - intros H. apply nat_of_ascii_inj. rewrite !lower_ascii_code.
    destruct H as [->|[[? ?]|[? ?]]]; [done|..]; repeat case_decide; lia.
Qed.

Lemma toLowerCaseASCII_same (s t : string) :
  toLowerCaseASCII s = toLowerCaseASCII t ↔ same_up_to_case s t.
Proof.
  unfold same_up_to_case. revert t.
  induction s as [|a s IH]; intros [|b t]; simpl.
  - split; [constructor|done].
  - split; [done|]. by inversion 1.
  - split; [done|]. by inversion 1.
  - rewrite Forall2_cons, <-IH, <-lower_ascii_same_letter. split.
    + by intros [= -> ->].
    + by intros [-> ->].
Qed.

Lemma startsWith_spec (s q : string) :
  startsWith s q = true ↔ ∃ post, s = q +:+ post.
Proof.
  revert s. induction q as [|b q IH]; intros s.
  - destruct s; split; eauto.
  - destruct s as [|a s]; simpl.
    + split; [done|]. by intros [? ?].
    + rewrite andb_true_iff, bool_decide_eq_true, IH. split.
      * intros [-> [post ->]]. eauto.
      * intros [post [= -> ->]]. eauto.
Qed.

Lemma includes_spec (s q : string) :
  includes s q = true ↔ contains s q.
Proof.
  unfold contains. induction s as [|a s IH].
  - cbn [includes]. rewrite orb_false_r, startsWith_spec. split.
    + intros [post ->]. by exists "", post.
    + intros ([|? pre] & post & H); [eauto|done].
  - cbn [includes]. rewrite orb_true_iff, startsWith_spec, IH. split.
    + intros [[post ->]|(pre & post & ->)].
      * by exists "", post.
      * by exists (String a pre), post.
    + intros ([|c pre] & post & H).
      * left. eauto.
      * right. rewrite append_cons in H. injection H as -> ->. eauto.
Qed.

(** On the ASCII mapping, containment of the lower-cased query in the
    lower-cased text is containment up to case. *)
Lemma contains_lower_spec (text query : string) :
  contains (toLowerCaseASCII text) (toLowerCaseASCII query) ↔ ci_contains text query.
Proof.
  unfold contains, ci_contains. split.
  - intros (x & y & H). apply toLowerCaseASCII_split in H as (pre & r & -> & <- & H).
    apply toLowerCaseASCII_split in H as (mid & post & -> & H & <-).
    exists pre, mid, post. split; [done|]. by apply toLowerCaseASCII_same.
  - intros (pre & mid & post & -> & H%toLowerCaseASCII_same).
    exists (toLowerCaseASCII pre), (toLowerCaseASCII post).
    by rewrite !toLowerCaseASCII_app, H.
Qed.

(** The callback of the filter looks for the query in the searched texts. *)
Lemma matchesQuery_texts {SP : StringPrototype} (q : string) (l : LinkItem) :
  matchesQuery q l = true
  ↔ ∃ text, text ∈ searched_texts l ∧ contains (toLowerCase text) q.
Proof.
  unfold matchesQuery, searched_texts.
  rewrite !orb_true_iff, existsb_exists. setoid_rewrite includes_spec.
  split.
  - intros [[[?|?]|Hd]|(sl & Hin & Hsl)].
    + exists (link_title l). split; [|done]. set_solver.
    + exists (link_url l). split; [|done]. set_solver.
    + destruct (link_description l) as [d|]; [|done].
      apply includes_spec in Hd. exists d. split; [|done]. set_solver.
    + apply list_elem_of_In in Hin. exists (sub_title sl). split; [|done].
      rewrite !elem_of_app. right; right. apply list_elem_of_fmap. eauto.
  - intros (text & Hin & Hc).
    rewrite !elem_of_app, !elem_of_cons in Hin.
    destruct Hin as [[->|[->|Hin]]|[Hin|Hin]].
    + by left; left; left.
    + by left; left; right.
    + by apply elem_of_nil in Hin.
    + left; right. destruct (link_description l) as [d|].
      * apply list_elem_of_singleton in Hin as ->. by apply includes_spec.
      * by apply elem_of_nil in Hin.
    + right. apply list_elem_of_fmap in Hin as (sl & -> & Hin).
      exists sl. by rewrite <-list_elem_of_In.
Qed.

Lemma matchesQuery_spec {SP : StringPrototype} (query : string) (l : LinkItem) :
  matchesQuery (toLowerCase query) l = true ↔ Found query l.
Proof. apply matchesQuery_texts. Qed.

(** [trimASCII] leaves nothing exactly of the blank strings. *)
Lemma is_space_spec (c : ascii) :
  is_space c = true ↔ nat_of_ascii c ∈ [9; 10; 11; 12; 13; 32]%nat.
Proof.
  unfold is_space. rewrite bool_decide_eq_true, !elem_of_cons, elem_of_nil. lia.
Qed.

Lemma trimEnd_empty (s : string) : trimEnd s = "" ↔ blank s.
Proof.
  unfold blank. induction s as [|c s IH]; simpl.
  - split; [constructor|done].
  - rewrite Forall_cons, <-IH, <-is_space_spec. destruct (trimEnd s) eqn:Ht.
    + destruct (is_space c); split; try done. by intros [? _].
    + split; [done|]. by intros [_ ?].
Qed.

Lemma trimStart_blank (s : string) : blank (trimStart s) ↔ blank s.
Proof.
  unfold blank. induction s as [|c s IH]; simpl; [done|].
  destruct (is_space c) eqn:Hc.
  - rewrite IH, Forall_cons, <-is_space_spec. tauto.
  - done.
Qed.

Lemma trimASCII_empty (s : string) : trimASCII s = "" ↔ blank s.
Proof. unfold trimASCII. by rewrite trimEnd_empty, trimStart_blank. Qed.

(** ** ASCII text *)

Lemma ascii_text_app (a b : string) :
  ascii_text (a +:+ b) ↔ ascii_text a ∧ ascii_text b.
Proof.
  unfold ascii_text. induction a as [|c a IH].
  - rewrite append_empty_l. simpl. split; [by split; [constructor|]|by intros [_ ?]].
  - rewrite append_cons. simpl. rewrite !Forall_cons, IH. tauto.
Qed.

Lemma ascii_text_empty : ascii_text "".
Proof. constructor. Qed.

Lemma trim_empty_string {SP : StringPrototype} : trim "" = "".
Proof. by rewrite trim_ascii by apply ascii_text_empty. Qed.

(** On ASCII text the search is containment up to case. *)
Lemma Found_ascii {SP : StringPrototype} (query : string) (l : LinkItem) :
  ascii_text query → ascii_link l → (Found query l ↔ Matches query l).
Proof.
  intros Hq Hl. unfold Found, Matches, ascii_link in *.
  rewrite Forall_forall in Hl.
  split; intros (text & Hin & Hc); exists text; (split; [done|]).
  - apply contains_lower_spec.
    by rewrite <-(toLowerCase_ascii text), <-(toLowerCase_ascii query) by auto.
  - rewrite (toLowerCase_ascii text), (toLowerCase_ascii query) by auto.
    by apply contains_lower_spec.
Qed.

(** Renumbering changes the [order] fields only. *)
Lemma renumber_fmap {B} (f : LinkItem → B) (l : list LinkItem) :
  (∀ n x, f (with_order n x) = f x) → f <$> renumber l = f <$> l.
Proof.
  intros Hf. apply list_eq. intros k. unfold renumber.
  rewrite !list_lookup_fmap, list_lookup_imap.
  destruct (l !! k); simpl; [|done]. by rewrite Hf.
Qed.

(** ** What a drop does to the two arrays *)

Lemma handleDrop_links (s : State) (di : DragItem) targetId type :
  draggedItem s = Some di →
  links (handleDropWithState targetId type s)
  = if decide (drag_type di = LINK)
    then dropLinks (drag_id di) targetId type (dropPosition s) (links s)
    else links s.
Proof.
  intros Hdi. unfold handleDropWithState. simpl. rewrite Hdi.
  repeat case_decide; done.
Qed.

Lemma handleDrop_categories (s : State) (di : DragItem) targetId type :
  draggedItem s = Some di →
  categories (handleDropWithState targetId type s)
  = if decide (drag_type di = CATEGORY ∧ type = CATEGORY)
    then dropCategories (drag_id di) targetId (categories s)
    else categories s.
Proof.
  intros Hdi. unfold handleDropWithState. simpl. rewrite Hdi.
  repeat case_decide; done.
Qed.

(** C1. A link dropped on a different link: the dragged link takes the
    category of the target, leaves its slot and is put back next to the
    target, immediately before it, or immediately after it when the drop
    position is AFTER; [pre] are the links before the target once the
    dragged link is removed, so its length is the target's index after the
    removal.  Then every link's order is its index in the whole array.
    Field by field: the category ids of the result are those of [pre], then
    the target's twice (the dragged link's own is gone), then those of
    [post]; and id, title, url, description, creation time and sub-links
    are those of the links in the new sequence. *)
Theorem link_dropped_on_link (s : State) (di : DragItem) (targetId : string)
    (i j : nat) (d t : LinkItem) :
  draggedItem s = Some di →
  drag_type di = LINK →
  list_find (λ l, link_id l = drag_id di) (links s) = Some (i, d) →
  list_find (λ l, link_id l = targetId) (links s) = Some (j, t) →
  i ≠ j →
  let d' := with_categoryId (link_categoryId t) d in
  let result := links (handleDropWithState targetId LINK s) in
  ∃ pre post,
    delete i (links s) = pre ++ t :: post
    ∧ findIndex (λ l, link_id l = targetId) (delete i (links s))
      = Z.of_nat (length pre)
    ∧ result = renumber (if decide (dropPosition s = Some AFTER)
                         then pre ++ t :: d' :: post
                         else pre ++ d' :: t :: post)
    ∧ length result = length (links s)
    ∧ positional result
    ∧ link_categoryId <$> result
      = (link_categoryId <$> pre) ++ [link_categoryId t; link_categoryId t]
          ++ (link_categoryId <$> post)
    ∧ link_content <$> result
      = link_content <$> (if decide (dropPosition s = Some AFTER)
                          then pre ++ t :: d :: post
                          else pre ++ d :: t :: post).
Proof.
  intros Hdi Hty Hd Ht Hij d' result.
  destruct (dropLinks_on_link _ _ _ (dropPosition s) _ _ _ _ Hd Ht Hij)
    as [Hrest Hres].
  set (rest := delete i (links s)) in *.
  set (j' := if decide (i < j)%nat then pred j else j) in *.
  destruct (list_find_split _ _ _ _ Hrest) as (Hsplit & Hlen & Hpre).
  assert (Hresult : result
                    = renumber (if decide (dropPosition s = Some AFTER)
                                then take j' rest ++ t :: d' :: drop (S j') rest
                                else take j' rest ++ d' :: t :: drop (S j') rest)).
  { unfold result. rewrite (handleDrop_links _ _ _ _ Hdi), decide_True by done.
    rewrite Hres. f_equal.
    destruct (insert_at_split rest _ _ t d' j' Hsplit Hlen) as [Hb Ha].
    by destruct (decide (dropPosition s = Some AFTER)). }
  exists (take j' rest), (drop (S j') rest). split_and!.
  - done.
  - rewrite Hlen. by apply findIndex_Some with t.
  - done.
  - unfold result. rewrite (handleDrop_links _ _ _ _ Hdi), decide_True by done.
    rewrite Hres, renumber_length.
    assert (Hi : (i < length (links s))%nat).
    { apply list_find_Some in Hd as (? & _). by eapply lookup_lt_Some. }
    assert (length rest = pred (length (links s))) as Hr.
    { unfold rest. rewrite length_delete; [lia|]. by apply lookup_lt_is_Some_2. }
    case_decide; rewrite length_app; simpl; rewrite length_take, length_drop; lia.
  - unfold result. rewrite (handleDrop_links _ _ _ _ Hdi), decide_True by done.
    rewrite Hres. intros k x. apply renumber_lookup.
  - rewrite Hresult, renumber_fmap by done.
    destruct (decide (dropPosition s = Some AFTER));
      by rewrite fmap_app, !fmap_cons.
  - rewrite Hresult, renumber_fmap by done.
    destruct (decide (dropPosition s = Some AFTER));
      by rewrite !fmap_app, !fmap_cons.
Qed.

(** C2, as the code has it.  A category dropped on a different category
    leaves its slot and is put back at the index the target had before the
    removal: it lands on the target's old slot [j], the other categories
    keep their relative order, and the target ends up right before it when
    the drag went down the list ([i < j]) and right after it when the drag
    went up.  Then every category's order is its index. *)
Theorem category_dropped_on_category (s : State) (di : DragItem)
    (targetId : string) (i j : nat) (m t : Category) :
  draggedItem s = Some di →
  drag_type di = CATEGORY →
  list_find (λ c, cat_id c = drag_id di) (categories s) = Some (i, m) →
  list_find (λ c, cat_id c = targetId) (categories s) = Some (j, t) →
  i ≠ j →
  let result := categories (handleDropWithState targetId CATEGORY s) in
  ∃ arranged,
    result = cat_renumber arranged
    ∧ arranged !! j = Some m
    ∧ delete j arranged = delete i (categories s)
    ∧ arranged !! (if decide (i < j)%nat then pred j else S j) = Some t
    ∧ length result = length (categories s)
    ∧ cat_positional result.
Proof.
  intros Hdi Hty Hd Ht Hij result.
  assert (Hres : result = cat_renumber
            (take j (delete i (categories s)) ++ m :: drop j (delete i (categories s)))).
  { unfold result. rewrite (handleDrop_categories _ _ _ _ Hdi), decide_True by done.
    by apply dropCategories_found with t. }
  apply list_find_Some in Hd as (Hi & _ & _).
  apply list_find_Some in Ht as (Hj & _ & _).
  set (rest := delete i (categories s)) in *.
  assert (Hlenr : S (length rest) = length (categories s)).
  { unfold rest. rewrite length_delete by eauto. apply lookup_lt_Some in Hi. lia. }
  assert (Hjr : (j ≤ length rest)%nat) by (apply lookup_lt_Some in Hj; lia).
  assert (Hlen : length (take j rest) = j) by (rewrite length_take; lia).
  exists (take j rest ++ m :: drop j rest). split_and!.
  - done.
  - by rewrite list_lookup_middle.
  - rewrite <-Hlen at 1. by rewrite delete_middle, take_drop.
  - case_decide.
    + rewrite lookup_app_l by lia. rewrite lookup_take_lt by lia.
      unfold rest. rewrite list_lookup_delete_ge by lia.
      by replace (S (pred j)) with j by lia.
    + rewrite lookup_app_r by lia. rewrite Hlen.
      replace (S j - j)%nat with 1%nat by lia. simpl.
      rewrite lookup_drop, Nat.add_0_r. unfold rest.
      by rewrite list_lookup_delete_lt by lia.
  - rewrite Hres, cat_renumber_length, length_app. simpl.
    rewrite length_take, length_drop. lia.
  - rewrite Hres. intros k c. apply cat_renumber_lookup.
Qed.

(** C4, as the code has it.  A link dropped on itself changes neither
    array.  A category dropped on itself leaves the links alone and keeps
    every category in its place, with its id and its name; the array of
    categories is the previous one whenever the orders already were the
    indices. *)
Theorem drop_on_itself (s0 : State) (item : DragItem) :
  let s := handleDragStart item s0 in
  let s' := handleDropWithState (drag_id item) (drag_type item) s in
  links s' = links s0
  ∧ (drag_type item = LINK → categories s' = categories s0)
  ∧ (drag_type item = CATEGORY →
       cat_id <$> categories s' = cat_id <$> categories s0
       ∧ cat_name <$> categories s' = cat_name <$> categories s0
       ∧ (cat_positional (categories s0) → categories s' = categories s0)).
Proof.
  intros s s'.
  assert (Hdi : draggedItem s = Some item) by done.
  split_and!.
  - unfold s'. rewrite (handleDrop_links _ _ _ _ Hdi). case_decide as Hty; [|done].
    rewrite Hty.
    destruct (dropLinks_link_cases (drag_id item) (drag_id item) (dropPosition s)
                (links s)) as [H|(i & j & d & t & Hd & Ht & Hij)]; [done|].
    rewrite Hd in Ht. by simplify_eq.
  - intros Hty. unfold s'. rewrite (handleDrop_categories _ _ _ _ Hdi).
    rewrite decide_False; [done|]. rewrite Hty. by intros [? _].
  - intros Hty. unfold s'. rewrite (handleDrop_categories _ _ _ _ Hdi).
    rewrite decide_True by done. rewrite dropCategories_self. simpl.
    case_decide; [|done].
    by rewrite cat_renumber_ids, cat_renumber_names;
      auto using cat_renumber_positional.
Qed.

(** C5. Deleting a category removes it from the categories, keeps the other
    categories, and keeps every link in its place: a link of the deleted
    category gets the category ["uncategorized"], and nothing else of any
    link changes. *)
Theorem delete_category (s : State) (id name : string) :
  let s' := performDelete (requestDeleteCategory id name s) in
  categories s' = filter (λ c, cat_id c ≠ id) (categories s)
  ∧ (∀ c, c ∈ categories s' ↔ c ∈ categories s ∧ cat_id c ≠ id)
  ∧ length (links s') = length (links s)
  ∧ ∀ (k : nat) l, links s !! k = Some l →
      ∃ l', links s' !! k = Some l'
        ∧ link_categoryId l'
          = (if decide (link_categoryId l = id) then "uncategorized"
             else link_categoryId l)
        ∧ link_id l' = link_id l ∧ link_title l' = link_title l
        ∧ link_url l' = link_url l ∧ link_description l' = link_description l
        ∧ link_createdAt l' = link_createdAt l ∧ link_order l' = link_order l
        ∧ link_subLinks l' = link_subLinks l.
Proof.
  intros s'.
  assert (Hc : categories s' = filter (λ c, cat_id c ≠ id) (categories s)).
  { unfold s', performDelete, requestDeleteCategory. simpl. by case_decide. }
  assert (Hl : links s' = (λ l, if decide (link_categoryId l = id)
                                then with_categoryId "uncategorized" l else l)
                          <$> links s).
  { unfold s', performDelete, requestDeleteCategory. simpl. by case_decide. }
  split_and!.
  - done.
  - intros c. rewrite Hc, list_elem_of_filter. tauto.
  - by rewrite Hl, length_fmap.
  - intros k l Hk. rewrite Hl, list_lookup_fmap, Hk. simpl.
    eexists. split; [done|]. by case_decide.
Qed.

(** ** Sequences of reorder gestures *)

Lemma reorderLink_links (op : LinkDrop) (s : State) :
  links (reorderLink op s)
  = dropLinks (op_dragged op) (op_target op) LINK
      (Some (if op_left op then BEFORE else AFTER)) (links s).
Proof. by destruct op as [d t []]. Qed.

Lemma renumber_ids (l : list LinkItem) : link_id <$> renumber l = link_id <$> l.
Proof.
  apply list_eq. intros k. unfold renumber.
  rewrite !list_lookup_fmap, list_lookup_imap. by destruct (l !! k).
Qed.

Lemma dropLinks_ids draggedId targetId pos (l : list LinkItem) :
  link_id <$> dropLinks draggedId targetId LINK pos l ≡ₚ link_id <$> l.
Proof.
  destruct (dropLinks_link_cases draggedId targetId pos l)
    as [->|(i & j & d & t & Hd & Ht & Hij)]; [done|].
  destruct (dropLinks_on_link _ _ _ pos _ _ _ _ Hd Ht Hij) as [_ ->].
  apply list_find_Some in Hd as (Hi & _ & _).
  rewrite renumber_ids, (delete_Permutation l i d Hi).
  set (rest := delete i l). set (k := if decide (i < j)%nat then pred j else j).
  case_decide.
  - rewrite fmap_app, fmap_cons, <-Permutation_middle, <-fmap_app.
    by rewrite take_drop.
  - rewrite fmap_app, fmap_cons, <-Permutation_middle, <-fmap_app.
    by rewrite take_drop.
Qed.

Lemma dropLinks_positional draggedId targetId pos (l : list LinkItem) :
  positional l → positional (dropLinks draggedId targetId LINK pos l).
Proof.
  intros Hpos.
  destruct (dropLinks_link_cases draggedId targetId pos l)
    as [->|(i & j & d & t & Hd & Ht & Hij)]; [done|].
  destruct (dropLinks_on_link _ _ _ pos _ _ _ _ Hd Ht Hij) as [_ ->].
  apply renumber_positional.
Qed.

(** A drop of a link on a different link of the array renumbers. *)
Lemma dropLinks_effective draggedId targetId pos (l : list LinkItem) :
  draggedId ≠ targetId →
  draggedId ∈ link_id <$> l → targetId ∈ link_id <$> l →
  positional (dropLinks draggedId targetId LINK pos l).
Proof.
  intros Hne (d & Hdid & Hd)%list_elem_of_fmap (t & Htid & Ht)%list_elem_of_fmap.
  destruct (list_find_elem_of (λ x, link_id x = draggedId) l d Hd) as [[i d'] Hfd];
    [done|].
  destruct (list_find_elem_of (λ x, link_id x = targetId) l t Ht) as [[j t'] Hft];
    [done|].
  assert (i ≠ j) as Hij.
  { intros ->. apply list_find_Some in Hfd as (H1 & H2 & _).
    apply list_find_Some in Hft as (H3 & H4 & _). congruence. }
  destruct (dropLinks_on_link _ _ _ pos _ _ _ _ Hfd Hft Hij) as [_ ->].
  apply renumber_positional.
Qed.

Lemma reorderLinks_app (ops1 ops2 : list LinkDrop) (s : State) :
  reorderLinks (ops1 ++ ops2) s = reorderLinks ops2 (reorderLinks ops1 s).
Proof. apply foldl_app. Qed.

Lemma reorderLinks_ids (ops : list LinkDrop) (s : State) :
  link_id <$> links (reorderLinks ops s) ≡ₚ link_id <$> links s.
Proof.
  revert s. induction ops as [|op ops IH]; intros s; [done|].
  simpl. fold (reorderLinks ops (reorderLink op s)).
  by rewrite IH, reorderLink_links, dropLinks_ids.
Qed.

Lemma reorderLinks_positional (ops : list LinkDrop) (s : State) :
  positional (links s) → positional (links (reorderLinks ops s)).
Proof.
  revert s. induction ops as [|op ops IH]; intros s Hpos; [done|].
  simpl. fold (reorderLinks ops (reorderLink op s)).
  apply IH. rewrite reorderLink_links. by apply dropLinks_positional.
Qed.

(** C3, as the code has it.  After a sequence of reorder gestures of which
    at least one drops a link on a different link of the array (or on an
    array whose orders already were the indices), the orders of the [M]
    links of the whole array are [0 .. M-1] in array order.  For every
    category, the orders of its links are then distinct numbers below [M]
    that increase along the array, the sequence shown for the category (the
    sort by order) is the sequence of its links in the array, and the
    orders are [0 .. N-1] when all links are in the category. *)
Theorem reorder_sequence_orders {SP : StringPrototype} (s : State) (ops : list LinkDrop) :
  positional (links s)
  ∨ (∃ op, op ∈ ops ∧ op_dragged op ≠ op_target op
           ∧ op_dragged op ∈ link_id <$> links s
           ∧ op_target op ∈ link_id <$> links s) →
  let final := links (reorderLinks ops s) in
  length final = length (links s)
  ∧ link_order <$> final = Z.of_nat <$> seq 0 (length final)
  ∧ ∀ c, let shown := linksOf c final in
      StronglySorted order_lt shown
      ∧ Forall (λ x, 0 ≤ link_order x < Z.of_nat (length final)) shown
      ∧ getFilteredLinks "" shown = shown
      ∧ (length shown = length final →
         link_order <$> shown = Z.of_nat <$> seq 0 (length shown)).
Proof.
  intros Hyp final.
  assert (Hpos : positional final).
  { destruct Hyp as [Hpos|(op & Hin & Hne & Hd & Ht)].
    - by apply reorderLinks_positional.
    - apply list_elem_of_split in Hin as (ops1 & ops2 & ->).
      unfold final. rewrite reorderLinks_app. simpl.
      fold (reorderLinks ops2 (reorderLink op (reorderLinks ops1 s))).
      apply reorderLinks_positional. rewrite reorderLink_links.
      apply dropLinks_effective; [done|by rewrite reorderLinks_ids..]. }
  split_and!.
  - rewrite <-(length_fmap link_id final), <-(length_fmap link_id (links s)).
    apply Permutation_length, reorderLinks_ids.
  - by apply positional_orders.
  - intros c shown.
    assert (Hsorted : StronglySorted order_lt shown)
      by by apply StronglySorted_filter, positional_sorted.
    split_and!.
    + done.
    + apply Forall_forall. intros x [_ Hx]%list_elem_of_filter.
      apply list_elem_of_lookup in Hx as [k Hk].
      rewrite (Hpos k x Hk). apply lookup_lt_Some in Hk. lia.
    + unfold getFilteredLinks. rewrite decide_True by apply trim_empty_string.
      apply js_sort_of_sorted, StronglySorted_Sorted.
      eapply StronglySorted_weaken; [|exact Hsorted].
      unfold order_lt, order_le. intros; lia.
    + intros Hall. unfold shown, linksOf in *.
      rewrite (filter_all_length _ _ Hall). by apply positional_orders.
Qed.

(** C6. The search returns, in ascending order, the links of which the
    title, the url, the description or the title of a sub-link, lower-cased,
    contains the lower-cased query; a query that [trim] empties keeps all
    links.  On ASCII text, where the two functions are fixed, this is: a
    query of white space only (or the empty one) keeps all links, and any
    other query keeps exactly the links with a searched text that contains
    the query up to the case of letters. *)
Theorem search_filter {SP : StringPrototype} (query : string) (linkList : list LinkItem) :
  let result := getFilteredLinks query linkList in
  StronglySorted order_le result
  ∧ (trim query = "" → result ≡ₚ linkList)
  ∧ (trim query ≠ "" →
       result ≡ₚ filter (λ l, matchesQuery (toLowerCase query) l = true) linkList
       ∧ ∀ l, l ∈ result ↔ l ∈ linkList ∧ Found query l)
  ∧ (ascii_text query →
       (blank query → result ≡ₚ linkList)
       ∧ (¬ blank query →
          ∀ l, ascii_link l → (l ∈ result ↔ l ∈ linkList ∧ Matches query l))).
Proof.
  intros result. unfold result, getFilteredLinks. split_and!.
  - case_decide; apply js_sort_sorted.
  - intros Hb. rewrite decide_True by done. apply js_sort_perm.
  - intros Hb. rewrite decide_False by done.
    split; [apply js_sort_perm|]. intros l.
    rewrite js_sort_perm, list_elem_of_filter, matchesQuery_spec. tauto.
  - intros Hq.
    assert (Hblank : trim query = "" ↔ blank query)
      by (by rewrite trim_ascii, trimASCII_empty).
    split.
    + intros Hb%Hblank. rewrite decide_True by done. apply js_sort_perm.
    + intros Hb. rewrite decide_False by by rewrite Hblank.
      intros l Hl.
      rewrite js_sort_perm, list_elem_of_filter, matchesQuery_spec.
      rewrite (Found_ascii query l Hq Hl). tauto.
Qed.

(** C10. A new link gets the length of the array as its order, and
    deleting a link leaves the orders of the others as they are; so a
    deletion followed by an addition can leave two links with the same
    order, where a drop of a link on a different link leaves none. *)
Theorem add_and_delete_orders :
  (∀ s newId now linkData, ld_id linkData = None →
     ∃ x, links (handleSaveLink newId now linkData s) = links s ++ [x]
          ∧ link_id x = newId
          ∧ link_order x = Z.of_nat (length (links s)))
  ∧ (∀ s id title,
       links (performDelete (requestDeleteLink id title s))
       = filter (λ l, link_id l ≠ id) (links s))
  ∧ (∃ s id title newId now linkData,
       let s' := handleSaveLink newId now linkData
                   (performDelete (requestDeleteLink id title s)) in
       link_order <$> links s = [0; 1]
       ∧ link_order <$> links s' = [1; 1])
  ∧ (∀ s op, op_dragged op ≠ op_target op →
       op_dragged op ∈ link_id <$> links s →
       op_target op ∈ link_id <$> links s →
       NoDup (link_order <$> links (reorderLink op s))
       ∧ link_order <$> links (reorderLink op s)
         = Z.of_nat <$> seq 0 (length (links s))).
Proof.
  split_and!.
  - intros s newId now linkData Hid. eexists. split_and!.
    + unfold handleSaveLink. rewrite Hid. simpl. reflexivity.
    + done.
    + done.
  - done.
  - exists scenario_two_links, "a", "a", "c", 0,
      (mkLinkData None "c" "https://c" None "uncategorized" None None []).
    by vm_compute.
  - intros s op Hne Hd Ht.
    assert (Hpos : positional (links (reorderLink op s))).
    { rewrite reorderLink_links. by apply dropLinks_effective. }
    split; [by apply positional_NoDup|].
    rewrite (positional_orders _ Hpos). do 2 f_equal.
    rewrite reorderLink_links.
    rewrite <-(length_fmap link_id (dropLinks _ _ _ _ _)), <-(length_fmap link_id (links s)).
    apply Permutation_length, dropLinks_ids.
Qed.

(** ** The claims on concrete states *)

(** The scenario of the specification: A (category X, order 2) dropped
    before B (category Y, order 0). *)
Example scenario_AB_result :
  links (reorderLink (mkLinkDrop "A" "B" true) scenario_AB)
  = [aLink "A" "Y" 0; aLink "B" "Y" 1; aLink "C" "Y" 2].
Proof. by vm_compute. Qed.

Lemma link_dropped_on_link_witness :
  let s := handleDragOver true "B"
             (handleDragStart (mkDragItem LINK "A" None) scenario_AB) in
  let d' := with_categoryId "Y" (aLink "A" "X" 2) in
  let result := links (handleDropWithState "B" LINK s) in
  ∃ pre post,
    delete 2%nat (links s) = pre ++ aLink "B" "Y" 0 :: post
    ∧ findIndex (λ l, link_id l = "B") (delete 2%nat (links s))
      = Z.of_nat (length pre)
    ∧ result = renumber (if decide (dropPosition s = Some AFTER)
                         then pre ++ aLink "B" "Y" 0 :: d' :: post
                         else pre ++ d' :: aLink "B" "Y" 0 :: post)
    ∧ length result = length (links s)
    ∧ positional result
    ∧ link_categoryId <$> result
      = (link_categoryId <$> pre) ++ ["Y"; "Y"] ++ (link_categoryId <$> post)
    ∧ link_content <$> result
      = link_content <$> (if decide (dropPosition s = Some AFTER)
                          then pre ++ aLink "B" "Y" 0 :: aLink "A" "X" 2 :: post
                          else pre ++ aLink "A" "X" 2 :: aLink "B" "Y" 0 :: post).
Proof.
  intros s.
  apply (link_dropped_on_link s (mkDragItem LINK "A" None) "B" 2 0
           (aLink "A" "X" 2) (aLink "B" "Y" 0)).
  - reflexivity.
  - reflexivity.
  - reflexivity.
  - reflexivity.
  - lia.
Defined.

(** C2 as the specification words it fails: dragging the first of three
    categories onto the last puts it last, not before the last. *)
Lemma category_drop_counterexample :
  let s := handleDragStart (mkDragItem CATEGORY "a" None) scenario_abc in
  cat_id <$> categories (handleDropWithState "c" CATEGORY s) = ["b"; "c"; "a"]
  ∧ cat_id <$> spec_dropCategories "a" "c" (categories s) = ["b"; "a"; "c"]
  ∧ categories (handleDropWithState "c" CATEGORY s)
    ≠ spec_dropCategories "a" "c" (categories s).
Proof. by vm_compute. Qed.

(** Dragged up the list, the category lands right before the target. *)
Example category_dragged_up :
  let s := handleDragStart (mkDragItem CATEGORY "c" None) scenario_abc in
  categories (handleDropWithState "a" CATEGORY s)
  = [mkCategory "c" "C" 0; mkCategory "a" "A" 1; mkCategory "b" "B" 2].
Proof. by vm_compute. Qed.

Lemma category_dropped_on_category_witness :
  let s := handleDragStart (mkDragItem CATEGORY "a" None) scenario_abc in
  let result := categories (handleDropWithState "c" CATEGORY s) in
  ∃ arranged,
    result = cat_renumber arranged
    ∧ arranged !! 2%nat = Some (mkCategory "a" "A" 0)
    ∧ delete 2%nat arranged = delete 0%nat (categories s)
    ∧ arranged !! (if decide (0 < 2)%nat then pred 2 else 3%nat)
      = Some (mkCategory "c" "C" 2)
    ∧ length result = length (categories s)
    ∧ cat_positional result.
Proof.
  intros s.
  apply (category_dropped_on_category s (mkDragItem CATEGORY "a" None) "c" 0 2
           (mkCategory "a" "A" 0) (mkCategory "c" "C" 2)).
  - reflexivity.
  - reflexivity.
  - reflexivity.
  - reflexivity.
  - lia.
Defined.

(** C3 as stated fails: with two categories, a reorder within category X
    leaves its two links with the orders 1 and 2; and a drop of a link on
    itself renumbers nothing, so orders with gaps stay as they are. *)
Lemma reorder_counterexample :
  let final := links (reorderLinks [mkLinkDrop "b" "a" true] scenario_two_categories) in
  let final' := links (reorderLinks [mkLinkDrop "a" "a" true] scenario_gaps) in
  NoDup (link_order <$> links scenario_two_categories)
  ∧ link_order <$> linksOf "X" final = [1; 2]
  ∧ ¬ category_orders_contiguous "X" final
  ∧ NoDup (link_order <$> links scenario_gaps)
  ∧ link_order <$> linksOf "X" final' = [5; 9]
  ∧ ¬ category_orders_contiguous "X" final'.
Proof.
  assert (Hno : ∀ a b : Z, 0 ≠ a → 0 ≠ b → ¬ [a; b] ≡ₚ [0; 1]%Z).
  { intros a b Ha Hb Hperm.
    assert (0 ∈ [a; b]) as Hin by (rewrite Hperm; left).
    apply elem_of_cons in Hin as [?|Hin]; [done|].
    apply elem_of_cons in Hin as [?|Hin]; [done|].
    by apply elem_of_nil in Hin. }
  split_and!.
  - by apply (bool_decide_unpack _).
  - by vm_compute.
  - unfold category_orders_contiguous.
    replace (link_order <$> linksOf "X" _) with [1; 2] by by vm_compute.
    by apply Hno.
  - by apply (bool_decide_unpack _).
  - by vm_compute.
  - unfold category_orders_contiguous.
    replace (link_order <$> linksOf "X" _) with [5; 9] by by vm_compute.
    by apply Hno.
Qed.

Lemma reorder_sequence_orders_witness :
  let s := scenario_two_categories in
  let ops := [mkLinkDrop "b" "a" true; mkLinkDrop "c" "b" false] in
  let final := links (reorderLinks ops s) in
  length final = length (links s)
  ∧ link_order <$> final = Z.of_nat <$> seq 0 (length final)
  ∧ ∀ c, let shown := linksOf c final in
      StronglySorted order_lt shown
      ∧ Forall (λ x, 0 ≤ link_order x < Z.of_nat (length final)) shown
      ∧ @getFilteredLinks asciiStrings "" shown = shown
      ∧ (length shown = length final →
         link_order <$> shown = Z.of_nat <$> seq 0 (length shown)).
Proof.
  intros s ops.
  apply (@reorder_sequence_orders asciiStrings s ops).
  right. exists (mkLinkDrop "b" "a" true). split_and!.
  - left.
  - discriminate.
  - simpl. right. right. left.
  - simpl. right. left.
Defined.

(** C4 as stated fails for categories: once "Development" is deleted from
    the seed data, dropping "Design" on itself renumbers the categories. *)
Lemma drop_on_itself_counterexample :
  let s := handleDragStart (mkDragItem CATEGORY "cat_design" None)
             scenario_after_delete in
  categories scenario_after_delete
  = [mkCategory "cat_design" "Design" 1; mkCategory "cat_news" "Reading" 2]
  ∧ categories (handleDropWithState "cat_design" CATEGORY s)
    = [mkCategory "cat_design" "Design" 0; mkCategory "cat_news" "Reading" 1]
  ∧ categories (handleDropWithState "cat_design" CATEGORY s)
    ≠ categories scenario_after_delete.
Proof. by vm_compute. Qed.

(** The search on the seed data, with the ASCII mappings. *)
Lemma search_filter_witness :
  let seed := data_links (SEED_DATA 0) in
  let result := @getFilteredLinks asciiStrings "GIT" seed in
  StronglySorted order_le result
  ∧ (@trim asciiStrings "GIT" = "" → result ≡ₚ seed)
  ∧ (@trim asciiStrings "GIT" ≠ "" →
       result
       ≡ₚ filter (λ l, @matchesQuery asciiStrings (@toLowerCase asciiStrings "GIT") l
                       = true) seed
       ∧ ∀ l, l ∈ result ↔ l ∈ seed ∧ @Found asciiStrings "GIT" l)
  ∧ (ascii_text "GIT" →
       (blank "GIT" → result ≡ₚ seed)
       ∧ (¬ blank "GIT" →
          ∀ l, ascii_link l → (l ∈ result ↔ l ∈ seed ∧ Matches "GIT" l))).
Proof.
  intros seed. apply (@search_filter asciiStrings "GIT" seed).
Defined.

Example search_finds_github :
  link_id <$> @getFilteredLinks asciiStrings "GIT" (data_links (SEED_DATA 0))
  = ["link_1"].
Proof. reflexivity. Qed.

(** * Verification of the worker *)

(** ** The digest on known inputs *)

Example round_constants :
  length SHA256.K = 64%nat
  ∧ head SHA256.K = Some 0x428a2f98
  ∧ last SHA256.K = Some 0xc67178f2
  ∧ SHA256.H0.2 = 0x5be0cd19.
Proof. by vm_compute. Qed.

Example hashPassword_empty :
  hashPassword "" = "e3b0c44298fc1c149afbf4c8996fb92427ae41e4649b934ca495991b7852b855".
Proof. vm_compute. reflexivity. Qed.

Example hashPassword_abc :
  hashPassword "abc" = "ba7816bf8f01cfea414140de5dae2223b00361a396177a9cb410ff61f20015ad".
Proof. vm_compute. reflexivity. Qed.

Example hashPassword_a64 :
  hashPassword "aaaaaaaaaaaaaaaaaaaaaaaaaaaaaaaaaaaaaaaaaaaaaaaaaaaaaaaaaaaaaaaa"
  = "ffe054fe7ae0cb6dc65c3af9b61d5209f439851db43d0ba5997337df154668eb".
Proof. vm_compute. reflexivity. Qed.

(** ** The hash is a non-empty string of hexadecimal digits *)

Lemma be_bytes_range (n : nat) (x : Z) :
  Forall (λ b, 0 ≤ b < 256) (SHA256.be_bytes n x).
Proof.
  unfold SHA256.be_bytes. apply Forall_fmap, Forall_forall. intros i _. simpl.
  apply Z.mod_pos_bound. lia.
Qed.

Lemma be_bytes_length (n : nat) (x : Z) : length (SHA256.be_bytes n x) = n.
Proof.
  unfold SHA256.be_bytes. by rewrite length_fmap, length_reverse, length_seq.
Qed.

Lemma digest_bytes (msg : list Z) :
  Forall (λ b, 0 ≤ b < 256) (SHA256.digest msg)
  ∧ length (SHA256.digest msg) = 32%nat.
Proof.
  unfold SHA256.digest.
  destruct (SHA256.blocks _ _ _) as [[[[[[[a b] c] d] e] f] g] h].
  split.
  - repeat (apply Forall_app; split); apply be_bytes_range.
  - by rewrite !length_app, !be_bytes_length.
Qed.

Lemma padStart2_toString16_byte (b : Z) :
  0 ≤ b < 256 →
  padStart2 (toString16 b)
  = String (hex_digit false (b / 16)) (String (hex_digit false (b mod 16)) "").
Proof.
  intros Hb.
  assert (Hall : Forall (λ b, padStart2 (toString16 b)
                   = String (hex_digit false (b / 16))
                       (String (hex_digit false (b mod 16)) "")) (seqZ 0 256))
    by (apply (bool_decide_unpack _); by vm_compute).
  eapply Forall_forall in Hall; [done|]. apply elem_of_seqZ. lia.
Qed.

Lemma hex_digit_lower (d : Z) :
  0 ≤ d < 16 → is_lower_hex (hex_digit false d) = true.
Proof.
  intros Hd.
  assert (Hall : Forall (λ d, is_lower_hex (hex_digit false d) = true) (seqZ 0 16))
    by (apply (bool_decide_unpack _); by vm_compute).
  eapply Forall_forall in Hall; [done|]. apply elem_of_seqZ. lia.
Qed.

Lemma hex_string_app (a b : string) :
  hex_string a → hex_string b → hex_string (a +:+ b).
Proof.
  unfold hex_string. induction a as [|c a IH]; [done|].
  rewrite append_cons. simpl. rewrite !Forall_cons.
  intros [Hc Ha] Hb. split; [done|by apply IH].
Qed.

Lemma concat_empty_cons (x : string) (xs : list string) :
  String.concat "" (x :: xs) = x +:+ String.concat "" xs.
Proof.
  destruct xs as [|y xs]; simpl; [|done].
  induction x as [|c x IH]; [done|]. rewrite append_cons. by f_equal.
Qed.

Lemma hex_of_bytes (bytes : list Z) :
  Forall (λ b, 0 ≤ b < 256) bytes →
  hex_string (String.concat "" ((λ b, padStart2 (toString16 b)) <$> bytes)).
Proof.
  induction 1 as [|b bytes Hb _ IH]; [constructor|].
  rewrite fmap_cons, concat_empty_cons. apply hex_string_app; [|done].
  rewrite padStart2_toString16_byte by done.
  repeat constructor; apply hex_digit_lower.
  - split; [apply Z.div_pos|apply Z.div_lt_upper_bound]; lia.
  - apply Z.mod_pos_bound. lia.
Qed.

Lemma hashPassword_hex (password : string) : hex_string (hashPassword password).
Proof. apply hex_of_bytes, digest_bytes. Qed.

Lemma hashPassword_nonempty (password : string) : hashPassword password ≠ "".
Proof.
  unfold hashPassword.
  destruct (digest_bytes (encode password)) as [Hr Hlen].
  destruct (SHA256.digest (encode password)) as [|b bytes]; [done|].
  apply Forall_cons in Hr as [Hb _].
  rewrite fmap_cons, concat_empty_cons, padStart2_toString16_byte by done.
  by rewrite append_cons.
Qed.

(** ** Cookies that carry a hash *)

Lemma lower_hex_chars (c : ascii) :
  is_lower_hex c = true →
  uri_unreserved c = true
  ∧ c ≠ "%"%char ∧ c ≠ ";"%char ∧ c ≠ "="%char ∧ c ≠ " "%char.
Proof.
  destruct c as [[] [] [] [] [] [] [] []]; vm_compute; intros; try done;
    by split_and!.
Qed.

Lemma encodeURIComponent_hex (s : string) :
  hex_string s → encodeURIComponent s = s.
Proof.
  unfold hex_string. induction s as [|c s IH]; simpl; [done|].
  intros [Hc Hs]%Forall_cons. destruct (lower_hex_chars c Hc) as [-> _].
  by rewrite IH.
Qed.

Lemma uriTokens_hex (s : string) :
  hex_string s → uriTokens s = Ok (ULit <$> String.list_ascii_of_string s).
Proof.
  unfold hex_string. induction s as [|c s IH]; simpl; [done|].
  intros [Hc Hs]%Forall_cons. destruct (lower_hex_chars c Hc) as (_ & Hp & _).
  rewrite bool_decide_eq_false_2 by done. by rewrite IH.
Qed.

Lemma uriBytes_literals (s : string) (lo hi : Z) :
  uriBytes 0 lo hi (ULit <$> String.list_ascii_of_string s) = Ok s.
Proof.
  revert lo hi. induction s as [|c s IH]; intros lo hi; simpl; [done|].
  by rewrite IH.
Qed.

Lemma decodeURIComponent_hex (s : string) :
  hex_string s → decodeURIComponent s = Ok s.
Proof.
  intros Hs. unfold decodeURIComponent. rewrite uriTokens_hex by done.
  apply uriBytes_literals.
Qed.

Lemma splitCookie_hex (s : string) : hex_string s → splitCookie false s = [s].
Proof.
  unfold hex_string. induction s as [|c s IH]; simpl; [done|].
  intros [Hc Hs]%Forall_cons. destruct (lower_hex_chars c Hc) as (_ & _ & Hp & _).
  rewrite bool_decide_eq_false_2 by done. by rewrite IH.
Qed.

Lemma splitEq_hex (s : string) : hex_string s → splitEq s = [s].
Proof.
  unfold hex_string. induction s as [|c s IH]; simpl; [done|].
  intros [Hc Hs]%Forall_cons. destruct (lower_hex_chars c Hc) as (_ & _ & _ & Hp & _).
  rewrite bool_decide_eq_false_2 by done. by rewrite IH.
Qed.

(** The header [LM_AUTH=hash] is read back as [hash]. *)
Lemma getCookie_authCookie (req : Request) (hash : string) :
  req_cookie req = Some (authCookie hash) →
  hex_string hash → hash ≠ "" →
  getCookie req AUTH_COOKIE = Ok (Some hash).
Proof.
  intros Hc Hhex Hne. unfold getCookie. rewrite Hc.
  rewrite decide_False by done.
  assert (splitCookie false (authCookie hash) = [authCookie hash]) as ->.
  { unfold authCookie, AUTH_COOKIE. rewrite !append_cons, append_empty_l. simpl.
    by rewrite splitCookie_hex. }
  cbn [getCookie_parts].
  assert (splitEq (authCookie hash) = [AUTH_COOKIE; hash]) as ->.
  { unfold authCookie, AUTH_COOKIE. rewrite !append_cons, append_empty_l. simpl.
    by rewrite splitEq_hex. }
  simpl. rewrite bool_decide_eq_true_2 by done. simpl.
  by rewrite decodeURIComponent_hex.
Qed.

Lemma setAuthCookie_hash (password : string) :
  setAuthCookie (hashPassword password)
  = "LM_AUTH=" +:+ hashPassword password
      +:+ "; Path=/; HttpOnly; Secure; SameSite=Lax; Max-Age=2592000".
Proof.
  unfold setAuthCookie. by rewrite encodeURIComponent_hex by apply hashPassword_hex.
Qed.

(** ** Authentication *)

Lemma isAuthenticated_token (req : Request) (env : Env) (token : string) :
  getCookie req AUTH_COOKIE = Ok (Some token) →
  isAuthenticated req env
  = Ok (bool_decide (token ≠ "")
        && str_strict_eq token (getCurrentPasswordHash env)).
Proof.
  intros Hc. unfold isAuthenticated. rewrite Hc. simpl.
  case_decide; [by rewrite bool_decide_eq_false_2 by naive_solver|].
  by rewrite bool_decide_eq_true_2.
Qed.

Lemma isAuthenticated_no_cookie (req : Request) (env : Env) :
  getCookie req AUTH_COOKIE = Ok None → isAuthenticated req env = Ok false.
Proof. intros Hc. unfold isAuthenticated. by rewrite Hc. Qed.

Lemma str_strict_eq_spec (a : string) (v : JsVal) :
  str_strict_eq a v = true ↔ v = JStr a.
Proof.
  destruct v; simpl; try done. rewrite bool_decide_eq_true. naive_solver.
Qed.

(** No hash is configured: the default password applies. *)
Lemma getCurrentPasswordHash_default (env : Env) :
  truthy (js_get "passwordHash" (getConfig env)) = false →
  getCurrentPasswordHash env = JStr (hashPassword DEFAULT_PASSWORD).
Proof.
  unfold getCurrentPasswordHash.
  destruct (js_get "passwordHash" (getConfig env)) as [h|]; [|done].
  by intros ->.
Qed.


(** The configured hash after a change of password. *)
Lemma getCurrentPasswordHash_saved (env : Env) (props : list (string * JsVal))
    (newHash : string) :
  newHash ≠ "" →
  getCurrentPasswordHash
    (saveConfig env (JObj (assoc_set "passwordHash" (JStr newHash) props)))
  = JStr newHash.
Proof.
  intros Hne. unfold getCurrentPasswordHash, getConfig, saveConfig, kv_put. simpl.
  rewrite lookup_insert_eq. simpl.
  assert (assoc "passwordHash" (assoc_set "passwordHash" (JStr newHash) props)
          = Some (JStr newHash)) as ->.
  { induction props as [|[k v] props IH]; simpl; [done|].
    case_decide; simpl; [done|]. by rewrite decide_False. }
  simpl. by rewrite bool_decide_eq_true_2.
Qed.

(** ** The branches of [fetch] *)

#[local] Opaque hashPassword.

Lemma fetch_login (env : Env) (cookie : option string) (body : JsVal)
    (password : string) :
  orEmpty_toString (js_get "password" body) = Ok password →
  fetch (mkRequest "POST" "/api/login" cookie (Some body)) env
  = if decide (password = "")
    then Ok (Respond (json (error "Password required") 400 []), env)
    else if str_strict_eq (hashPassword password) (getCurrentPasswordHash env)
    then Ok (Respond (json ok_true 200
                        [("Set-Cookie", setAuthCookie (hashPassword password))]), env)
    else Ok (Respond (json (error "Wrong password") 401 []), env).
Proof.
  intros Hpw. unfold fetch. simpl. rewrite Hpw. simpl.
  case_decide; [done|]. by destruct (str_strict_eq _ _).
Qed.


Lemma authenticate_iff (password : string) (env : Env) :
  password ≠ "" →
  authenticate password env ↔ getCurrentPasswordHash env = JStr (hashPassword password).
Proof.
  intros Hne. unfold authenticate, loginRequest, passwordBody.
  rewrite (fetch_login _ _ _ password)
    by (simpl; by rewrite bool_decide_eq_true_2).
  rewrite decide_False by done. rewrite <-str_strict_eq_spec.
  destruct (str_strict_eq _ _); split; try done.
  - intros _. eexists. split; [done|]. done.
  - intros (r & [= <-] & Hs). done.
Qed.

Lemma fetch_changePassword (env : Env) (cookie : option string) (old new : string) :
  old ≠ "" → new ≠ "" →
  fetch (changePasswordRequest cookie old new) env
  = authed ← isAuthenticated (changePasswordRequest cookie old new) env;
    if negb authed then Ok (Respond (json (error "Unauthorized") 401 []), env)
    else if negb (str_strict_eq (hashPassword old) (getCurrentPasswordHash env))
    then Ok (Respond (json (error "Old password incorrect") 400 []), env)
    else
      cfg ← set_passwordHash (hashPassword new) (getConfig env);
      Ok (Respond (json ok_true 200
                     [("Set-Cookie", setAuthCookie (hashPassword new))]),
          saveConfig env cfg).
Proof.
  intros Ho Hn. unfold fetch. simpl.
  destruct (isAuthenticated _ env) as [[]|]; simpl; [|done..].
  rewrite !(bool_decide_eq_true_2 (_ ≠ "")) by done. simpl.
  rewrite !bool_decide_eq_false_2 by done. simpl. done.
Qed.

Lemma fetch_data (req : Request) (env : Env) :
  req_pathname req = "/api/data" →
  fetch req env
  = authed ← isAuthenticated req env;
    if negb authed then Ok (Respond (json (error "Unauthorized") 401 []), env)
    else if bool_decide (req_method req = "GET") then
      Ok (Respond (json (if truthy (LINKS_KV env !! DATA_KEY)
                         then default emptyDataset (LINKS_KV env !! DATA_KEY)
                         else emptyDataset) 200 []), env)
    else if bool_decide (req_method req = "POST") then
      match req_json req with
      | None => Throw SyntaxError
      | Some body => Ok (Respond (json ok_true 200 []), kv_put DATA_KEY body env)
      end
    else Ok (Respond (json (error "Method not allowed") 405 []), env).
Proof.
  intros Hp. unfold fetch. rewrite Hp. simpl.
  destruct (isAuthenticated req env) as [[]|]; simpl; [|done..].
  case_bool_decide; [|done].
  destruct (LINKS_KV env !! DATA_KEY) as [d|]; [|done].
  by destruct (truthy (Some d)).
Qed.

(** The responses [json] builds, field by field. *)
Lemma json_plain (data : JsVal) (status : Z) :
  json data status []
  = mkResponse status [("Content-Type", "application/json; charset=utf-8")] data.
Proof. reflexivity. Qed.

Lemma json_cookie (data : JsVal) (status : Z) (cookie : string) :
  json data status [("Set-Cookie", cookie)]
  = mkResponse status
      [("Set-Cookie", cookie); ("Content-Type", "application/json; charset=utf-8")]
      data.
Proof. reflexivity. Qed.


(** C7, as the code has it.  With no hash configured the default password
    logs in.  A change of password throws when [getCookie] throws (the
    value of the cookie is no percent-encoding); it is refused with 401
    [{"error": "Unauthorized"}] when [getCookie] reads no cookie, an empty
    one or a value that is not the current hash, and with 400
    [{"error": "Old password incorrect"}] when the cookie is the current
    hash and the hash of the old password is not; otherwise (the
    configuration being an object or absent) the hash of the new password
    is stored in the configuration and sent as the cookie with 200
    [{"ok": true}], and then the new password logs in and its cookie is
    accepted, and, when the two hashes differ, the old password is answered
    by 401 [{"error": "Wrong password"}] and a cookie with the old hash is
    rejected. *)
Theorem change_password (env : Env) (cookie : option string) (old new : string) :
  old ≠ "" → new ≠ "" →
  let req := changePasswordRequest cookie old new in
  let ct := ("Content-Type", "application/json; charset=utf-8") in
  (truthy (js_get "passwordHash" (getConfig env)) = false →
   authenticate "linkmanager" env)
  ∧ (∀ e, getCookie req AUTH_COOKIE = Throw e → fetch req env = Throw e)
  ∧ (∀ token, getCookie req AUTH_COOKIE = Ok token →
     (∀ t, token = Some t → t ≠ "" → getCurrentPasswordHash env ≠ JStr t) →
     fetch req env
     = Ok (Respond (mkResponse 401 [ct] (JObj [("error", JStr "Unauthorized")])), env))
  ∧ (∀ t, getCookie req AUTH_COOKIE = Ok (Some t) → t ≠ "" →
     getCurrentPasswordHash env = JStr t →
     (getCurrentPasswordHash env ≠ JStr (hashPassword old) →
      fetch req env
      = Ok (Respond (mkResponse 400 [ct]
                       (JObj [("error", JStr "Old password incorrect")])), env))
     ∧ ∀ props, getConfig env = JObj props →
       getCurrentPasswordHash env = JStr (hashPassword old) →
       ∃ env',
         fetch req env
         = Ok (Respond
                 (mkResponse 200
                    [("Set-Cookie",
                      "LM_AUTH=" +:+ hashPassword new
                        +:+ "; Path=/; HttpOnly; Secure; SameSite=Lax; Max-Age=2592000");
                     ct]
                    (JObj [("ok", JBool true)])),
               env')
         ∧ LINKS_KV env'
           = <[CONFIG_KEY :=
                 JObj (assoc_set "passwordHash" (JStr (hashPassword new)) props)]>
               (LINKS_KV env)
         ∧ getCurrentPasswordHash env' = JStr (hashPassword new)
         ∧ authenticate new env'
         ∧ (∀ req', req_cookie req' = Some (authCookie (hashPassword new)) →
              isAuthenticated req' env' = Ok true)
         ∧ (hashPassword old ≠ hashPassword new →
            ¬ authenticate old env'
            ∧ fetch (loginRequest (Some (passwordBody old))) env'
              = Ok (Respond (mkResponse 401 [ct]
                               (JObj [("error", JStr "Wrong password")])), env')
            ∧ ∀ req', getCookie req' AUTH_COOKIE = Ok (Some (hashPassword old)) →
                isAuthenticated req' env' = Ok false)).
Proof.
  intros Ho Hn req ct.
  assert (Hauth : ∀ t, getCookie req AUTH_COOKIE = Ok (Some t) → t ≠ "" →
            getCurrentPasswordHash env = JStr t → isAuthenticated req env = Ok true).
  { intros t Hc Ht Hcur. rewrite (isAuthenticated_token _ _ _ Hc), Hcur. simpl.
    by rewrite !bool_decide_eq_true_2. }
  split_and!.
  - intros Hnone. apply authenticate_iff; [done|].
    by apply getCurrentPasswordHash_default.
  - intros e Hc. unfold req. rewrite fetch_changePassword by done. fold req.
    unfold isAuthenticated. by rewrite Hc.
  - intros token Hc Hne. unfold req. rewrite fetch_changePassword by done. fold req.
    assert (isAuthenticated req env = Ok false) as ->; [|by rewrite json_plain].
    destruct token as [t|]; [|by apply isAuthenticated_no_cookie].
    rewrite (isAuthenticated_token _ _ _ Hc).
    destruct (decide (t = "")) as [->|Ht]; [done|].
    rewrite bool_decide_eq_true_2 by done.
    destruct (str_strict_eq t _) eqn:He; [|done].
    apply str_strict_eq_spec in He. by destruct (Hne t).
  - intros t Hc Ht Hcur. pose proof (Hauth t Hc Ht Hcur) as Ha. split.
    + intros Hh. unfold req. rewrite fetch_changePassword by done.
      fold req. rewrite Ha. simpl.
      destruct (str_strict_eq _ _) eqn:He; [|by rewrite json_plain].
      by apply str_strict_eq_spec in He.
    + intros props Hcfg Hh.
      set (cfg := JObj (assoc_set "passwordHash" (JStr (hashPassword new)) props)).
      assert (Hcur' : getCurrentPasswordHash (saveConfig env cfg)
                      = JStr (hashPassword new))
        by apply getCurrentPasswordHash_saved, hashPassword_nonempty.
      exists (saveConfig env cfg). split_and!.
      * unfold req. rewrite fetch_changePassword by done.
        fold req. rewrite Ha. simpl.
        apply str_strict_eq_spec in Hh. rewrite Hh. simpl.
        rewrite Hcfg. simpl. by rewrite json_cookie, setAuthCookie_hash.
      * done.
      * done.
      * by apply authenticate_iff.
      * intros req' Hc'.
        rewrite (isAuthenticated_token _ _ (hashPassword new))
          by (apply getCookie_authCookie;
              auto using hashPassword_hex, hashPassword_nonempty).
        rewrite Hcur'. simpl.
        by rewrite !bool_decide_eq_true_2 by auto using hashPassword_nonempty.
      * intros Hdiff. split_and!.
        -- rewrite authenticate_iff by done. rewrite Hcur'. congruence.
        -- unfold loginRequest, passwordBody.
           rewrite (fetch_login _ _ _ old)
             by (simpl; by rewrite bool_decide_eq_true_2).
           rewrite decide_False by done. rewrite Hcur'. simpl.
           by rewrite bool_decide_eq_false_2.
        -- intros req' Hc'. rewrite (isAuthenticated_token _ _ _ Hc'), Hcur'. simpl.
           rewrite (bool_decide_eq_false_2 (hashPassword old = _)) by done.
           by rewrite andb_false_r.
Qed.

(** C7 as stated fails: a wrong old password is answered by 400 "Old
    password incorrect", not by "Unauthorized"; and changing the password
    to itself succeeds, after which the old password still logs in and the
    cookie issued before is still accepted. *)
Lemma change_password_counterexample :
  let cookie := Some (authCookie (hashPassword "linkmanager")) in
  let ct := ("Content-Type", "application/json; charset=utf-8") in
  fetch (changePasswordRequest cookie "wrong" "s3cret") unconfigured
  = Ok (Respond (mkResponse 400 [ct]
                   (JObj [("error", JStr "Old password incorrect")])), unconfigured)
  ∧ ∃ r env',
      fetch (changePasswordRequest cookie "linkmanager" "linkmanager") unconfigured
      = Ok (Respond r, env')
      ∧ res_status r = 200
      ∧ (∃ r', fetch (loginRequest (Some (passwordBody "linkmanager"))) env'
               = Ok (Respond r', env')
               ∧ res_status r' = 200)
      ∧ isAuthenticated (dataRequest "GET" cookie None) env' = Ok true.
Proof.
  split; [by vm_compute|].
  eexists _, _. split_and!.
  - vm_compute. reflexivity.
  - done.
  - eexists. split; [vm_compute; reflexivity|done].
  - by vm_compute.
Qed.

(** A cookie that is no percent-encoding: the worker throws. *)
Example change_password_malformed_cookie :
  fetch (changePasswordRequest (Some "LM_AUTH=%") "linkmanager" "s3cret") unconfigured
  = Throw URIError.
Proof. by vm_compute. Qed.

Lemma change_password_witness :
  let env := unconfigured in
  let cookie := Some (authCookie (hashPassword "linkmanager")) in
  let req := changePasswordRequest cookie "linkmanager" "s3cret" in
  let ct := ("Content-Type", "application/json; charset=utf-8") in
  getCookie req AUTH_COOKIE = Ok (Some (hashPassword "linkmanager"))
  ∧ getCurrentPasswordHash env = JStr (hashPassword "linkmanager")
  ∧ hashPassword "linkmanager" ≠ hashPassword "s3cret"
  ∧ ∃ env',
      fetch req env
      = Ok (Respond
              (mkResponse 200
                 [("Set-Cookie",
                   "LM_AUTH=" +:+ hashPassword "s3cret"
                     +:+ "; Path=/; HttpOnly; Secure; SameSite=Lax; Max-Age=2592000");
                  ct]
                 (JObj [("ok", JBool true)])),
            env')
      ∧ authenticate "s3cret" env'
      ∧ ¬ authenticate "linkmanager" env'.
Proof.
  intros env cookie req ct.
  assert (Hc : getCookie req AUTH_COOKIE = Ok (Some (hashPassword "linkmanager")))
    by by vm_compute.
  assert (Hh : getCurrentPasswordHash env = JStr (hashPassword "linkmanager"))
    by by vm_compute.
  assert (Hd : hashPassword "linkmanager" ≠ hashPassword "s3cret")
    by by vm_compute.
  split_and!; [done..|].
  destruct (change_password env cookie "linkmanager" "s3cret"
              ltac:(discriminate) ltac:(discriminate))
    as (_ & _ & _ & Hok).
  destruct (Hok (hashPassword "linkmanager") Hc (hashPassword_nonempty _) Hh)
    as [_ Hok'].
  destruct (Hok' [] ltac:(reflexivity) Hh) as (env' & Hf & _ & _ & Hnew & _ & Hold).
  exists env'. split_and!; [done..|]. by apply Hold.
Defined.

(** ** The data API *)

(** Without a cookie equal to the current hash: 401. *)
Lemma data_unauthorized (req : Request) (env : Env) :
  req_pathname req = "/api/data" →
  isAuthenticated req env = Ok false →
  fetch req env = Ok (Respond (json (error "Unauthorized") 401 []), env).
Proof. intros Hp Ha. rewrite fetch_data by done. by rewrite Ha. Qed.

(** A cookie that is read without error and is not the current hash: 401. *)
Lemma data_wrong_cookie (req : Request) (env : Env) (token : option string) :
  req_pathname req = "/api/data" →
  getCookie req AUTH_COOKIE = Ok token →
  (∀ t, token = Some t → getCurrentPasswordHash env ≠ JStr t) →
  fetch req env = Ok (Respond (json (error "Unauthorized") 401 []), env).
Proof.
  intros Hp Hc Hne. apply data_unauthorized; [done|].
  destruct token as [t|]; [|by apply isAuthenticated_no_cookie].
  rewrite (isAuthenticated_token _ _ _ Hc).
  destruct (str_strict_eq t _) eqn:He; [|by rewrite andb_false_r].
  apply str_strict_eq_spec in He. by destruct (Hne t).
Qed.

(** A cookie with a malformed escape is not answered at all:
    [decodeURIComponent] throws in [getCookie], and nothing catches it. *)
Example data_malformed_cookie :
  fetch (dataRequest "GET" (Some "LM_AUTH=%") None) unconfigured = Throw URIError.
Proof. by vm_compute. Qed.

(** An authenticated GET returns the stored document, or the empty data set
    when nothing (or a falsy JSON value) is stored; an authenticated POST
    with a JSON body replaces the stored document, whatever it was. *)
Lemma data_get_post (req : Request) (env : Env) :
  req_pathname req = "/api/data" →
  isAuthenticated req env = Ok true →
  (req_method req = "GET" →
   (LINKS_KV env !! DATA_KEY = None →
    fetch req env = Ok (Respond (json emptyDataset 200 []), env))
   ∧ (∀ d, LINKS_KV env !! DATA_KEY = Some d → truthy (Some d) = true →
      fetch req env = Ok (Respond (json d 200 []), env)))
  ∧ (req_method req = "POST" → ∀ body, req_json req = Some body →
     ∃ env', fetch req env = Ok (Respond (json ok_true 200 []), env')
             ∧ LINKS_KV env' !! DATA_KEY = Some body
             ∧ LINKS_KV env' !! CONFIG_KEY = LINKS_KV env !! CONFIG_KEY).
Proof.
  intros Hp Ha. split.
  - intros Hm. split.
    + intros Hk. rewrite fetch_data by done. rewrite Ha, Hm, Hk. done.
    + intros d Hk Ht. rewrite fetch_data by done. rewrite Ha, Hm, Hk. simpl.
      simpl in Ht. by rewrite Ht.
  - intros Hm body Hb. exists (kv_put DATA_KEY body env). split_and!.
    + rewrite fetch_data by done. by rewrite Ha, Hm, Hb.
    + simpl. by rewrite lookup_insert_eq.
    + simpl. by rewrite lookup_insert_ne.
Qed.

(** C9. An authenticated POST to /api/data whose body is not JSON is not
    answered by 400: [req.json()] rejects, nothing catches it, and the
    handler throws. *)
Theorem data_post_unparseable :
  fetch (dataRequest "POST" (Some (authCookie (hashPassword "linkmanager"))) None)
    unconfigured
  = Throw SyntaxError
  ∧ ∀ req env,
      req_pathname req = "/api/data" → req_method req = "POST" →
      isAuthenticated req env = Ok true → req_json req = None →
      fetch req env = Throw SyntaxError.
Proof.
  split; [by vm_compute|].
  intros req env Hp Hm Ha Hb. rewrite fetch_data by done. by rewrite Ha, Hm, Hb.
Qed.

(** * Further properties of the ordering engine *)

(** ** What a drop keeps *)

(** The links after a drop of a link on a different link. *)
Lemma link_dropped_on_link_aux (s : State) (di : DragItem) (targetId : string)
    (i j : nat) (d t : LinkItem) :
  draggedItem s = Some di →
  drag_type di = LINK →
  list_find (λ l, link_id l = drag_id di) (links s) = Some (i, d) →
  list_find (λ l, link_id l = targetId) (links s) = Some (j, t) →
  i ≠ j →
  ∃ pre post,
    delete i (links s) = pre ++ t :: post
    ∧ links (handleDropWithState targetId LINK s)
      = renumber (if decide (dropPosition s = Some AFTER)
                  then pre ++ t :: with_categoryId (link_categoryId t) d :: post
                  else pre ++ with_categoryId (link_categoryId t) d :: t :: post).
Proof.
  intros Hdi Hty Hd Ht Hij.
  destruct (dropLinks_on_link _ _ _ (dropPosition s) _ _ _ _ Hd Ht Hij)
    as [Hrest Hres].
  destruct (list_find_split _ _ _ _ Hrest) as (Hsplit & Hlen & _).
  eexists _, _. split; [exact Hsplit|].
  rewrite (handleDrop_links _ _ _ _ Hdi), decide_True by done.
  rewrite Hres. f_equal.
  destruct (insert_at_split _ _ _ t (with_categoryId (link_categoryId t) d) _
              Hsplit Hlen) as [Hb Ha].
  by destruct (decide (dropPosition s = Some AFTER)).
Qed.

Lemma renumber_content (l : list LinkItem) :
  link_content <$> renumber l = link_content <$> l.
Proof.
  apply list_eq. intros k. unfold renumber.
  rewrite !list_lookup_fmap, list_lookup_imap. by destruct (l !! k).
Qed.

Lemma cat_renumber_content (l : list Category) :
  cat_content <$> cat_renumber l = cat_content <$> l.
Proof.
  apply list_eq. intros k. unfold cat_renumber.
  rewrite !list_lookup_fmap, list_lookup_imap. by destruct (l !! k).
Qed.

(** Taking an element out and putting it back somewhere permutes. *)
Lemma reinsert_Permutation {A} (l : list A) (i k : nat) (x : A) :
  l !! i = Some x →
  take k (delete i l) ++ x :: drop k (delete i l) ≡ₚ l.
Proof.
  intros Hx. rewrite <-Permutation_middle, take_drop.
  symmetry. by apply delete_Permutation.
Qed.

Lemma dropLinks_content draggedId targetId type pos (l : list LinkItem) :
  link_content <$> dropLinks draggedId targetId type pos l ≡ₚ link_content <$> l.
Proof.
  destruct type.
  - unfold dropLinks. case_decide; [done|].
    rewrite <-list_fmap_compose.
    erewrite list_fmap_ext; [done|]. intros k x _. simpl. by case_decide.
  - destruct (dropLinks_link_cases draggedId targetId pos l)
      as [->|(i & j & d & t & Hd & Ht & Hij)]; [done|].
    destruct (dropLinks_on_link _ _ _ pos _ _ _ _ Hd Ht Hij) as [_ ->].
    apply list_find_Some in Hd as (Hi & _ & _).
    rewrite renumber_content.
    transitivity (link_content <$>
                    (take (if decide (pos = Some AFTER)
                           then S (if decide (i < j)%nat then pred j else j)
                           else if decide (i < j)%nat then pred j else j)
                       (delete i l)
                     ++ d :: drop (if decide (pos = Some AFTER)
                                   then S (if decide (i < j)%nat then pred j else j)
                                   else if decide (i < j)%nat then pred j else j)
                              (delete i l))).
    + destruct (decide (pos = Some AFTER)); by rewrite !fmap_app, !fmap_cons.
    + by rewrite reinsert_Permutation.
Qed.

Lemma dropCategories_content draggedId targetId (l : list Category) :
  cat_content <$> dropCategories draggedId targetId l ≡ₚ cat_content <$> l.
Proof.
  destruct (list_find (λ c, cat_id c = draggedId) l) as [[i m]|] eqn:Hd;
    [|by rewrite dropCategories_not_found by auto].
  destruct (list_find (λ c, cat_id c = targetId) l) as [[j t]|] eqn:Ht;
    [|by rewrite dropCategories_not_found by auto].
  rewrite (dropCategories_found _ _ _ _ _ _ _ Hd Ht), cat_renumber_content.
  apply list_find_Some in Hd as (Hi & _ & _). by rewrite reinsert_Permutation.
Qed.

Lemma link_id_content (l : list LinkItem) :
  link_id <$> l = (λ c, c.1.1.1.1.1) <$> (link_content <$> l).
Proof. by rewrite <-list_fmap_compose. Qed.

Lemma cat_id_content (l : list Category) :
  cat_id <$> l = fst <$> (cat_content <$> l).
Proof. by rewrite <-list_fmap_compose. Qed.

(** X1. No drop loses, duplicates or rewrites a link or a category: whatever
    is dragged and wherever it is dropped, the links are the same up to
    their order in the array, their [order] and their [categoryId], and the
    categories are the same up to their order in the array and their
    [order]; ids that were unique stay unique. *)
Theorem drop_conserves (s : State) (targetId : string) (type : ItemType) :
  let s' := handleDropWithState targetId type s in
  link_content <$> links s' ≡ₚ link_content <$> links s
  ∧ cat_content <$> categories s' ≡ₚ cat_content <$> categories s
  ∧ length (links s') = length (links s)
  ∧ length (categories s') = length (categories s)
  ∧ (NoDup (link_id <$> links s) → NoDup (link_id <$> links s'))
  ∧ (NoDup (cat_id <$> categories s) → NoDup (cat_id <$> categories s')).
Proof.
  intros s'.
  assert (Hl : link_content <$> links s' ≡ₚ link_content <$> links s).
  { unfold s'. destruct (draggedItem s) as [di|] eqn:Hdi.
    - rewrite (handleDrop_links _ _ _ _ Hdi). case_decide; [|done].
      apply dropLinks_content.
    - unfold handleDropWithState. simpl. by rewrite Hdi. }
  assert (Hc : cat_content <$> categories s' ≡ₚ cat_content <$> categories s).
  { unfold s'. destruct (draggedItem s) as [di|] eqn:Hdi.
    - rewrite (handleDrop_categories _ _ _ _ Hdi). case_decide; [|done].
      apply dropCategories_content.
    - unfold handleDropWithState. simpl. by rewrite Hdi. }
  split_and!; [done..| | | |].
  - apply Permutation_length in Hl. by rewrite !length_fmap in Hl.
  - apply Permutation_length in Hc. by rewrite !length_fmap in Hc.
  - rewrite !link_id_content. by rewrite Hl.
  - rewrite !cat_id_content. by rewrite Hc.
Qed.

Lemma fmap_fixed {A} (f : A → A) (l : list A) :
  (∀ x, x ∈ l → f x = x) → f <$> l = l.
Proof.
  intros Hf. induction l as [|x l IH]; [done|].
  rewrite fmap_cons, Hf, IH; [done| |left]. intros y Hy. apply Hf. by right.
Qed.

(** X2. A link dropped on a category (or on "uncategorized") is moved there
    and nothing is reordered: every link stays at its index with its order
    and its content, the links with the dragged id get the target as their
    category, and the categories are untouched, wherever the pointer was. *)
Theorem link_dropped_on_category (s0 : State) (linkId targetId : string)
    (dragCat : option string) :
  let s := handleDragStart (mkDragItem LINK linkId dragCat) s0 in
  let s' := handleDropWithState targetId CATEGORY s in
  categories s' = categories s0
  ∧ length (links s') = length (links s0)
  ∧ link_order <$> links s' = link_order <$> links s0
  ∧ link_content <$> links s' = link_content <$> links s0
  ∧ ∀ (k : nat) l, links s0 !! k = Some l →
      ∃ l', links s' !! k = Some l'
            ∧ link_categoryId l'
              = if decide (link_id l = linkId) then targetId else link_categoryId l.
Proof.
  intros s s'.
  assert (Hdi : draggedItem s = Some (mkDragItem LINK linkId dragCat)) by done.
  assert (Hl : links s' = (λ l, if decide (link_id l = linkId)
                                then with_categoryId targetId l else l) <$> links s0).
  { unfold s'. rewrite (handleDrop_links _ _ _ _ Hdi). simpl.
    unfold dropLinks. case_decide as Hf; [|done].
    apply findIndex_None, list_find_None in Hf.
    symmetry. apply fmap_fixed. intros x Hx. rewrite decide_False; [done|].
    by eapply Forall_forall in Hf. }
  split_and!.
  - unfold s'. by rewrite (handleDrop_categories _ _ _ _ Hdi).
  - by rewrite Hl, length_fmap.
  - rewrite Hl, <-list_fmap_compose. apply list_fmap_ext.
    intros k x _. simpl. by case_decide.
  - rewrite Hl, <-list_fmap_compose. apply list_fmap_ext.
    intros k x _. simpl. by case_decide.
  - intros k l Hk. rewrite Hl, list_lookup_fmap, Hk. simpl.
    eexists. split; [done|]. by case_decide.
Qed.

Lemma handleDrop_searchQuery (s : State) (targetId : string) (type : ItemType) :
  searchQuery (handleDropWithState targetId type s) = searchQuery s.
Proof.
  unfold handleDropWithState. simpl.
  destruct (draggedItem s); [by repeat case_decide|done].
Qed.

(** X3. A drop ends the drag and touches only what was dragged: the three
    drag variables are cleared; the search, the selection, the flag of the
    link dialog and the pending deletion are left alone; a dragged link
    never changes the categories, a dragged category never changes the
    links, and neither links nor categories change when nothing was
    dragged or when a category is dropped on a link card. *)
Theorem drop_frame (s : State) (targetId : string) (type : ItemType) :
  let s' := handleDropWithState targetId type s in
  (draggedItem s' = None ∧ dragOverId s' = None ∧ dropPosition s' = None)
  ∧ (searchQuery s' = searchQuery s ∧ selectedCategory s' = selectedCategory s
     ∧ isLinkModalOpen s' = isLinkModalOpen s
     ∧ deleteTarget s' = deleteTarget s)
  ∧ (draggedItem s = None → links s' = links s ∧ categories s' = categories s)
  ∧ (∀ d, draggedItem s = Some d → drag_type d = LINK →
       categories s' = categories s)
  ∧ (∀ d, draggedItem s = Some d → drag_type d = CATEGORY →
       links s' = links s ∧ (type = LINK → categories s' = categories s)).
Proof.
  intros s'.
  split; [|split; [|split; [|split]]].
  - unfold s', handleDropWithState. simpl.
    destruct (draggedItem s) eqn:Hd; [by repeat case_decide|by simpl].
  - unfold s', handleDropWithState. simpl.
    destruct (draggedItem s); [by repeat case_decide|by simpl].
  - intros Hn. unfold s', handleDropWithState. simpl. by rewrite Hn.
  - intros d Hd Hty. unfold s'. rewrite (handleDrop_categories _ _ _ _ Hd).
    rewrite decide_False; [done|]. rewrite Hty. by intros [? _].
  - intros d Hd Hty. unfold s'. split.
    + rewrite (handleDrop_links _ _ _ _ Hd). rewrite decide_False; [done|].
      by rewrite Hty.
    + intros ->. rewrite (handleDrop_categories _ _ _ _ Hd).
      rewrite decide_False; [done|]. by intros [_ ?].
Qed.

(** X4. Saving an edited link changes the links with its id and nothing
    else: the array keeps its length and every link its index and id; a
    link with the id takes the title, url, category and sub-links of the
    form data and, where the form data have them, the description, the
    order and the creation time (the form of an edited link carries those
    the link had when the dialog was opened).  So the orders are
    unchanged when the order of the form data is the one of every link
    with the id; when no link has the id, nothing changes; the dialog is
    closed. *)
Theorem edit_link (s : State) (newId : string) (now : Z) (linkData : LinkData)
    (lid : string) :
  ld_id linkData = Some lid → lid ≠ "" →
  let s' := handleSaveLink newId now linkData s in
  length (links s') = length (links s)
  ∧ link_id <$> links s' = link_id <$> links s
  ∧ (∀ (k : nat) l, links s !! k = Some l → link_id l ≠ lid →
       links s' !! k = Some l)
  ∧ (∀ (k : nat) l, links s !! k = Some l → link_id l = lid →
       ∃ l', links s' !! k = Some l'
             ∧ link_title l' = ld_title linkData ∧ link_url l' = ld_url linkData
             ∧ link_categoryId l' = ld_categoryId linkData
             ∧ link_subLinks l' = ld_subLinks linkData
             ∧ link_description l'
               = match ld_description linkData with
                 | Some d => Some d
                 | None => link_description l
                 end
             ∧ link_order l'
               = match ld_order linkData with
                 | Some n => n
                 | None => link_order l
                 end
             ∧ link_createdAt l'
               = match ld_createdAt linkData with
                 | Some t => t
                 | None => link_createdAt l
                 end)
  ∧ ((∀ l n, l ∈ links s → link_id l = lid → ld_order linkData = Some n →
        n = link_order l) →
     link_order <$> links s' = link_order <$> links s)
  ∧ (lid ∉ link_id <$> links s → links s' = links s)
  ∧ categories s' = categories s
  ∧ isLinkModalOpen s' = false ∧ editingLink s' = None.
Proof.
  intros Hid Hne s'.
  assert (Hl : links s' = (λ l, if decide (link_id l = lid)
                                then mergeLinkData l linkData else l) <$> links s).
  { unfold s', handleSaveLink. rewrite Hid. by rewrite decide_True. }
  split_and!.
  - by rewrite Hl, length_fmap.
  - rewrite Hl, <-list_fmap_compose. apply list_fmap_ext.
    intros k x _. simpl. case_decide; [|done]. simpl. by rewrite Hid.
  - intros k l Hk Hn. rewrite Hl, list_lookup_fmap, Hk. simpl.
    by rewrite decide_False.
  - intros k l Hk Hy. rewrite Hl, list_lookup_fmap, Hk. simpl.
    rewrite decide_True by done. eexists. split; [done|].
    by split_and!.
  - intros Hsame. rewrite Hl, <-list_fmap_compose. apply list_fmap_ext.
    intros k x Hk. simpl. case_decide as Hx; [|done]. simpl.
    destruct (ld_order linkData) as [n|] eqn:Hn; [|done]. simpl.
    apply (Hsame x n); [by eapply list_elem_of_lookup_2|done..].
  - intros Hnot. rewrite Hl. apply fmap_fixed. intros x Hin.
    rewrite decide_False; [done|].
    intros Hx. apply Hnot. apply list_elem_of_fmap. by exists x.
  - by unfold s', handleSaveLink; rewrite Hid, decide_True.
  - by unfold s', handleSaveLink; rewrite Hid, decide_True.
  - by unfold s', handleSaveLink; rewrite Hid, decide_True.
Qed.

Lemma edit_link_witness :
  let s := scenario_two_links in
  let linkData :=
    mkLinkData (Some "b") "B" "https://b.example" None "cat" (Some 3) (Some 5) [] in
  let s' := handleSaveLink "fresh" 7 linkData s in
  length (links s') = length (links s)
  ∧ link_id <$> links s' = link_id <$> links s
  ∧ (∀ (k : nat) l, links s !! k = Some l → link_id l ≠ "b" →
       links s' !! k = Some l)
  ∧ (∀ (k : nat) l, links s !! k = Some l → link_id l = "b" →
       ∃ l', links s' !! k = Some l'
             ∧ link_title l' = ld_title linkData ∧ link_url l' = ld_url linkData
             ∧ link_categoryId l' = ld_categoryId linkData
             ∧ link_subLinks l' = ld_subLinks linkData
             ∧ link_description l'
               = match ld_description linkData with
                 | Some d => Some d
                 | None => link_description l
                 end
             ∧ link_order l'
               = match ld_order linkData with
                 | Some n => n
                 | None => link_order l
                 end
             ∧ link_createdAt l'
               = match ld_createdAt linkData with
                 | Some t => t
                 | None => link_createdAt l
                 end)
  ∧ ((∀ l n, l ∈ links s → link_id l = "b" → ld_order linkData = Some n →
        n = link_order l) →
     link_order <$> links s' = link_order <$> links s)
  ∧ ("b" ∉ link_id <$> links s → links s' = links s)
  ∧ categories s' = categories s
  ∧ isLinkModalOpen s' = false ∧ editingLink s' = None.
Proof.
  intros s linkData.
  apply (edit_link s "fresh" 7 linkData "b").
  - reflexivity.
  - discriminate.
Defined.

(** The order of the form data wins over the one of the link: saving form
    data that carry the order 5 moves the link "b" from order 1 to 5. *)
Example edit_link_stale_order :
  let linkData :=
    mkLinkData (Some "b") "B" "https://b.example" None "cat" (Some 3) (Some 5) [] in
  link_order <$> links scenario_two_links = [0; 1]
  ∧ link_order <$> links (handleSaveLink "fresh" 7 linkData scenario_two_links)
    = [0; 5].
Proof. by vm_compute. Qed.

(** X5. Adding a link and deleting it again gives back the links there
    were, whenever the generated id was not in use. *)
Theorem add_then_delete_link (s : State) (newId title : string) (now : Z)
    (linkData : LinkData) :
  ld_id linkData = None →
  newId ∉ link_id <$> links s →
  let s1 := handleSaveLink newId now linkData s in
  let s2 := performDelete (requestDeleteLink newId title s1) in
  length (links s1) = S (length (links s))
  ∧ links s2 = links s
  ∧ categories s2 = categories s.
Proof.
  intros Hid Hfresh s1 s2.
  assert (H1 : links s1 = links s ++ [newLink newId now linkData (links s)]).
  { unfold s1, handleSaveLink. by rewrite Hid. }
  split_and!.
  - rewrite H1, length_app. simpl. lia.
  - change (links s2) with (filter (λ l, link_id l ≠ newId) (links s1)).
    rewrite H1, filter_app, filter_cons_False, filter_nil, app_nil_r
      by (simpl; tauto).
    clear -Hfresh. induction (links s) as [|x l IH]; [done|].
    rewrite fmap_cons, not_elem_of_cons in Hfresh. destruct Hfresh as [Hx Hl].
    rewrite filter_cons_True by done. by rewrite IH.
  - unfold s2, s1, handleSaveLink. by rewrite Hid.
Qed.

Lemma add_then_delete_link_witness :
  let s := scenario_two_links in
  let linkData := mkLinkData None "C" "https://c.example" None "cat" None None [] in
  let s1 := handleSaveLink "c" 7 linkData s in
  let s2 := performDelete (requestDeleteLink "c" "C" s1) in
  length (links s1) = S (length (links s))
  ∧ links s2 = links s
  ∧ categories s2 = categories s.
Proof.
  intros s linkData.
  apply (add_then_delete_link s "c" "C" 7 linkData).
  - reflexivity.
  - by apply (bool_decide_unpack _).
Defined.

(** X6. Once a category other than "uncategorized" is deleted, nothing
    refers to it any more: no category has its id and no link has it as its
    category; the view falls back to ['ALL'] when the deleted category was
    selected; and confirming the same deletion again changes nothing. *)
Theorem deleted_category_unreferenced (s : State) (id name : string) :
  id ≠ "uncategorized" →
  let s' := performDelete (requestDeleteCategory id name s) in
  let s'' := performDelete (requestDeleteCategory id name s') in
  (∀ c, c ∈ categories s' → cat_id c ≠ id)
  ∧ (∀ l, l ∈ links s' → link_categoryId l ≠ id)
  ∧ selectedCategory s'
    = (if decide (selectedCategory s = id) then "ALL" else selectedCategory s)
  ∧ deleteTarget s' = None
  ∧ categories s'' = categories s' ∧ links s'' = links s'.
Proof.
  intros Hne s' s''.
  assert (Hc : ∀ t, categories (performDelete (requestDeleteCategory id name t))
                    = filter (λ c, cat_id c ≠ id) (categories t)).
  { intros t. unfold performDelete, requestDeleteCategory. simpl. by case_decide. }
  assert (Hl : ∀ t, links (performDelete (requestDeleteCategory id name t))
                    = (λ l, if decide (link_categoryId l = id)
                            then with_categoryId "uncategorized" l else l)
                      <$> links t).
  { intros t. unfold performDelete, requestDeleteCategory. simpl. by case_decide. }
  assert (Hun : ∀ l, l ∈ links s' → link_categoryId l ≠ id).
  { intros l. unfold s'. rewrite Hl. intros (x & -> & _)%list_elem_of_fmap.
    case_decide; [|done]. simpl. congruence. }
  split_and!.
  - intros c. unfold s'. rewrite Hc. by intros [? _]%list_elem_of_filter.
  - done.
  - unfold s', performDelete, requestDeleteCategory. simpl. by case_decide.
  - unfold s', performDelete, requestDeleteCategory. simpl. by repeat case_decide.
  - unfold s''. rewrite Hc. unfold s'. rewrite Hc.
    rewrite list_filter_filter. apply list_filter_iff.
    intros c. split; [by intros [? _]|by split].
  - unfold s''. rewrite Hl. apply fmap_fixed. intros x Hin.
    rewrite decide_False; [done|]. by apply Hun.
Qed.

Lemma deleted_category_unreferenced_witness :
  let s := loadData (SEED_DATA 0) initialState in
  let s' := performDelete (requestDeleteCategory "cat_dev" "Development" s) in
  let s'' := performDelete (requestDeleteCategory "cat_dev" "Development" s') in
  (∀ c, c ∈ categories s' → cat_id c ≠ "cat_dev")
  ∧ (∀ l, l ∈ links s' → link_categoryId l ≠ "cat_dev")
  ∧ selectedCategory s'
    = (if decide (selectedCategory s = "cat_dev") then "ALL" else selectedCategory s)
  ∧ deleteTarget s' = None
  ∧ categories s'' = categories s' ∧ links s'' = links s'.
Proof.
  intros s.
  apply (deleted_category_unreferenced s "cat_dev" "Development").
  discriminate.
Defined.

(** ** The search *)

Lemma filter_all {A} (P : A → Prop) `{!∀ x, Decision (P x)} (l : list A) :
  Forall P l → filter P l = l.
Proof.
  induction 1 as [|x l Hx _ IH]; [done|]. by rewrite filter_cons_True, IH.
Qed.

Lemma getFilteredLinks_keeps {SP : StringPrototype} (q : string) (L : list LinkItem) :
  getFilteredLinks q L = js_sort by_order (filter (keeps q) L).
Proof.
  unfold getFilteredLinks. case_decide as Hq.
  - rewrite filter_all; [done|]. apply Forall_forall. intros; by left.
  - f_equal. apply list_filter_iff. intros l. unfold keeps. tauto.
Qed.

Lemma getFilteredLinks_perm {SP : StringPrototype} (q : string) (L : list LinkItem) :
  getFilteredLinks q L ≡ₚ filter (keeps q) L.
Proof. rewrite getFilteredLinks_keeps. apply js_sort_perm. Qed.

Lemma getFilteredLinks_elem {SP : StringPrototype} (q : string) (L : list LinkItem) (l : LinkItem) :
  l ∈ getFilteredLinks q L ↔ keeps q l ∧ l ∈ L.
Proof. by rewrite getFilteredLinks_perm, list_elem_of_filter. Qed.

Lemma append_assoc (a b c : string) : (a +:+ b) +:+ c = a +:+ b +:+ c.
Proof.
  induction a as [|x a IH]; [done|]. rewrite !append_cons. by f_equal.
Qed.

Lemma contains_part (s a q b : string) :
  contains s (a +:+ q +:+ b) → contains s q.
Proof.
  intros (pre & post & ->).
  exists (pre +:+ a), (b +:+ post). by rewrite !append_assoc.
Qed.

Lemma blank_part (a q b : string) : blank (a +:+ q +:+ b) → blank q.
Proof.
  unfold blank. induction a as [|c a IH].
  - rewrite append_empty_l. induction q as [|c q IH]; [constructor|].
    rewrite append_cons. simpl. rewrite !Forall_cons. tauto.
  - rewrite append_cons. simpl. rewrite Forall_cons. tauto.
Qed.

Lemma keeps_part {SP : StringPrototype} (a q b : string) (l : LinkItem) :
  ascii_text (a +:+ q +:+ b) → keeps (a +:+ q +:+ b) l → keeps q l.
Proof.
  intros Hall.
  pose proof Hall as [Ha Hqb]%ascii_text_app.
  apply ascii_text_app in Hqb as [Hq' Hb].
  unfold keeps. rewrite !trim_ascii, !trimASCII_empty by done.
  intros [Hblank|Hm]; [left; by eapply blank_part|right].
  apply matchesQuery_texts in Hm as (text & Hin & Hc).
  apply matchesQuery_texts. exists text. split; [done|].
  rewrite (toLowerCase_ascii _ Hall), !toLowerCaseASCII_app in Hc.
  rewrite (toLowerCase_ascii _ Hq'). by eapply contains_part.
Qed.

(** X7. On a query of ASCII characters, narrowing never adds a card: every
    link found for a query is found for each part of the query, whatever
    the texts of the links are.  And for any query, searching within the
    result of a search gives the same result. *)
Theorem search_refines {SP : StringPrototype} (a q b : string) (L : list LinkItem) :
  (ascii_text (a +:+ q +:+ b) →
   ∀ l, l ∈ getFilteredLinks (a +:+ q +:+ b) L → l ∈ getFilteredLinks q L)
  ∧ getFilteredLinks q (getFilteredLinks q L) = getFilteredLinks q L.
Proof.
  split.
  - intros Hall l. rewrite !getFilteredLinks_elem. intros [Hk Hin].
    split; [|done]. by eapply keeps_part.
  - rewrite (getFilteredLinks_keeps q (getFilteredLinks q L)).
    rewrite filter_all.
    + apply js_sort_of_sorted, StronglySorted_Sorted.
      rewrite getFilteredLinks_keeps. apply js_sort_sorted.
    + apply Forall_forall. intros l Hl. by apply getFilteredLinks_elem in Hl as [? _].
Qed.

Lemma search_refines_witness :
  let seed := data_links (SEED_DATA 0) in
  (ascii_text ("G" +:+ "it" +:+ "Hub") →
   ∀ l, l ∈ @getFilteredLinks asciiStrings ("G" +:+ "it" +:+ "Hub") seed →
        l ∈ @getFilteredLinks asciiStrings "it" seed)
  ∧ @getFilteredLinks asciiStrings "it" (@getFilteredLinks asciiStrings "it" seed)
    = @getFilteredLinks asciiStrings "it" seed.
Proof.
  intros seed. apply (@search_refines asciiStrings "G" "it" "Hub" seed).
Defined.

(** X8. The sort of the search is stable: the links of one and the same
    order come out in the sequence in which they are in the list. *)
Theorem search_stable {SP : StringPrototype} (q : string) (L : list LinkItem) (n : Z) :
  filter (λ l, link_order l = n) (getFilteredLinks q L)
  = filter (λ l, link_order l = n ∧ keeps q l) L.
Proof.
  rewrite getFilteredLinks_keeps, js_sort_stable. apply list_filter_filter.
Qed.

(** ** The cards of the page *)

Lemma filter_or_disjoint {A} (P Q : A → Prop) `{!∀ x, Decision (P x)}
    `{!∀ x, Decision (Q x)} (l : list A) :
  (∀ x, P x → Q x → False) →
  filter P l ++ filter Q l ≡ₚ filter (λ x, P x ∨ Q x) l.
Proof.
  intros Hd. induction l as [|x l IH]; [done|].
  rewrite !filter_cons. destruct (decide (P x)) as [HP|HP], (decide (Q x)) as [HQ|HQ].
  - by destruct (Hd x).
  - rewrite decide_True by auto. simpl. by rewrite IH.
  - rewrite decide_True by auto. by rewrite <-Permutation_middle, IH.
  - rewrite decide_False by tauto. done.
Qed.

(** The sections of the categories together. *)
Lemma sections_perm {SP : StringPrototype} (q : string) (cats : list Category) (L : list LinkItem) :
  NoDup (cat_id <$> cats) →
  mjoin ((λ c, getFilteredLinks q (filter (λ l, link_categoryId l = cat_id c) L))
           <$> cats)
  ≡ₚ filter (λ l, keeps q l ∧ link_categoryId l ∈ cat_id <$> cats) L.
Proof.
  induction cats as [|c cats IH]; intros Hnd.
  - simpl. induction L as [|x L IHL]; [done|].
    rewrite filter_cons_False; [done|]. intros [_ H]. by apply elem_of_nil in H.
  - rewrite fmap_cons in Hnd. apply NoDup_cons in Hnd as [Hc Hnd].
    rewrite fmap_cons. simpl. rewrite IH by done.
    rewrite getFilteredLinks_perm, list_filter_filter, filter_or_disjoint.
    + apply eq_subrelation; [apply _|]. apply list_filter_iff.
      intros l. rewrite elem_of_cons. tauto.
    + intros l [_ H1] [_ H2]. by rewrite H1 in H2.
Qed.

Lemma find_category_None (cats : list Category) (id : string) :
  list_find (λ c, cat_id c = id) cats = None ↔ id ∉ cat_id <$> cats.
Proof.
  rewrite list_find_None, Forall_forall. split.
  - intros H (c & -> & Hc)%list_elem_of_fmap. by apply (H c).
  - intros H c Hc Hid. apply H. apply list_elem_of_fmap. by exists c.
Qed.

Lemma shownCards_all {SP : StringPrototype} (s : State) :
  selectedCategory s = "ALL" →
  shownCards s = mjoin (categoryLinks s <$> categories s) ++ uncategorizedLinks s.
Proof.
  intros Hsel. unfold shownCards.
  destruct (decide (length (links s) = 0%nat)) as [Hlen|Hlen];
    [|by rewrite decide_True].
  apply nil_length_inv in Hlen.
  assert (Hnil : ∀ P `{!∀ x, Decision (P x)},
            getFilteredLinks (searchQuery s) (filter P (links s)) = []).
  { intros P ?. rewrite Hlen. unfold getFilteredLinks. by case_decide. }
  unfold uncategorizedLinks. rewrite Hnil, app_nil_r.
  induction (categories s) as [|c cats IH]; [done|].
  rewrite fmap_cons. simpl. rewrite <-IH. unfold categoryLinks. by rewrite Hnil.
Qed.

(** X9. In the view of all links no link is hidden and, when the category
    ids are distinct and none is "uncategorized", none is shown twice: the
    cards are the links the search keeps, each in the section of its
    category, or in "uncategorized" when no category has that id. *)
Theorem all_view_partition {SP : StringPrototype} (s : State) :
  selectedCategory s = "ALL" →
  (∀ l, l ∈ shownCards s ↔ l ∈ links s ∧ keeps (searchQuery s) l)
  ∧ (NoDup (cat_id <$> categories s) →
     "uncategorized" ∉ cat_id <$> categories s →
     shownCards s ≡ₚ getFilteredLinks (searchQuery s) (links s)).
Proof.
  intros Hsel. rewrite (shownCards_all s Hsel). split.
  - intros l. rewrite elem_of_app, list_elem_of_join. split.
    + intros [(sec & Hl & (c & -> & Hc)%list_elem_of_fmap)|Hl].
      * unfold categoryLinks in Hl.
        apply getFilteredLinks_elem in Hl as [? [_ ?]%list_elem_of_filter]. done.
      * unfold uncategorizedLinks in Hl.
        apply getFilteredLinks_elem in Hl as [? [_ ?]%list_elem_of_filter]. done.
    + intros [Hl Hk].
      destruct (list_find (λ c, cat_id c = link_categoryId l) (categories s))
        as [[i c]|] eqn:Hf.
      * left. apply list_find_Some in Hf as (Hi & Hid & _).
        exists (categoryLinks s c). split.
        -- apply getFilteredLinks_elem. split; [done|].
           by apply list_elem_of_filter.
        -- apply list_elem_of_fmap. exists c. split; [done|].
           by eapply list_elem_of_lookup_2.
      * right. apply getFilteredLinks_elem. split; [done|].
        apply list_elem_of_filter. auto.
  - intros Hnd Hun. unfold categoryLinks.
    rewrite (sections_perm _ _ _ Hnd). unfold uncategorizedLinks.
    rewrite !getFilteredLinks_perm, list_filter_filter, filter_or_disjoint.
    + apply eq_subrelation; [apply _|]. apply list_filter_iff.
      intros l. rewrite find_category_None.
      destruct (decide (link_categoryId l ∈ cat_id <$> categories s)); tauto.
    + intros l [_ Hin] [_ [Hu|Hnone]].
      * by rewrite Hu in Hin.
      * by apply find_category_None in Hnone.
Qed.

Lemma all_view_partition_witness :
  let s := loadData (SEED_DATA 0) initialState in
  (∀ l, l ∈ @shownCards asciiStrings s
        ↔ l ∈ links s ∧ @keeps asciiStrings (searchQuery s) l)
  ∧ (NoDup (cat_id <$> categories s) →
     "uncategorized" ∉ cat_id <$> categories s →
     @shownCards asciiStrings s
     ≡ₚ @getFilteredLinks asciiStrings (searchQuery s) (links s)).
Proof.
  intros s. apply (@all_view_partition asciiStrings s). reflexivity.
Defined.

(** X10. A link whose category is neither "uncategorized" nor the id of a
    category is shown in the view of all links (in the section
    "uncategorized") and in no other view that the side bar offers. *)
Theorem dangling_link_views {SP : StringPrototype} (s : State) (l : LinkItem) :
  l ∈ links s →
  keeps (searchQuery s) l →
  link_categoryId l ≠ "uncategorized" →
  link_categoryId l ∉ cat_id <$> categories s →
  l ∈ shownCards (setSelectedCategory "ALL" s)
  ∧ l ∈ uncategorizedLinks s
  ∧ ∀ sel, sel ∈ "uncategorized" :: (cat_id <$> categories s) → sel ≠ "ALL" →
      l ∉ shownCards (setSelectedCategory sel s).
Proof.
  intros Hl Hk Hu Hc.
  assert (Hin : l ∈ uncategorizedLinks s).
  { apply getFilteredLinks_elem. split; [done|]. apply list_elem_of_filter.
    split; [|done]. right. by apply find_category_None. }
  split_and!.
  - rewrite shownCards_all by done. apply elem_of_app. by right.
  - done.
  - intros sel Hsel Hall. unfold shownCards. simpl.
    case_decide; [by apply not_elem_of_nil|]. rewrite decide_False by done.
    unfold singleCategoryLinks. simpl.
    intros [_ [Hcat _]%list_elem_of_filter]%getFilteredLinks_elem.
    apply elem_of_cons in Hsel as [->|Hsel]; congruence.
Qed.

Lemma dangling_link_views_witness :
  let s := aState [mkCategory "X" "X" 0] [aLink "a" "X" 0; aLink "b" "gone" 1] in
  let l := aLink "b" "gone" 1 in
  l ∈ @shownCards asciiStrings (setSelectedCategory "ALL" s)
  ∧ l ∈ @uncategorizedLinks asciiStrings s
  ∧ ∀ sel, sel ∈ "uncategorized" :: (cat_id <$> categories s) → sel ≠ "ALL" →
      l ∉ @shownCards asciiStrings (setSelectedCategory sel s).
Proof.
  intros s l.
  apply (@dangling_link_views asciiStrings s l).
  - right. left.
  - by left.
  - discriminate.
  - by apply (bool_decide_unpack _).
Defined.

(** X11. Renaming a category changes names only: the categories keep their
    ids, orders and places, those with the given id get the new name, the
    links are untouched, and the page shows the same cards. *)
Theorem rename_category {SP : StringPrototype} (s : State) (rid rname : string) :
  let s' := performRenameCategory (Some (rid, rname)) s in
  cat_id <$> categories s' = cat_id <$> categories s
  ∧ cat_order <$> categories s' = cat_order <$> categories s
  ∧ cat_name <$> categories s'
    = (λ c, if decide (cat_id c = rid) then rname else cat_name c) <$> categories s
  ∧ links s' = links s
  ∧ shownCards s' = shownCards s.
Proof.
  intros s'.
  set (f := λ c, if decide (cat_id c = rid)
                 then mkCategory (cat_id c) rname (cat_order c) else c).
  assert (Hc : categories s' = f <$> categories s) by done.
  assert (Hid : ∀ c, cat_id (f c) = cat_id c) by (intros c; unfold f; by case_decide).
  assert (Hids : cat_id <$> categories s' = cat_id <$> categories s).
  { rewrite Hc, <-list_fmap_compose. apply list_fmap_ext. intros ? c _. apply Hid. }
  split_and!.
  - done.
  - rewrite Hc, <-list_fmap_compose. apply list_fmap_ext.
    intros ? c _. simpl. unfold f. by case_decide.
  - rewrite Hc, <-list_fmap_compose. apply list_fmap_ext.
    intros ? c _. simpl. unfold f. by case_decide.
  - done.
  - unfold shownCards. change (links s') with (links s).
    change (selectedCategory s') with (selectedCategory s).
    case_decide; [done|]. case_decide; [|done]. f_equal.
    + rewrite Hc, <-list_fmap_compose. f_equal. apply list_fmap_ext.
      intros ? c _. simpl. unfold categoryLinks.
      change (links s') with (links s). change (searchQuery s') with (searchQuery s).
      by rewrite Hid.
    + unfold uncategorizedLinks.
      change (links s') with (links s). change (searchQuery s') with (searchQuery s).
      f_equal. apply list_filter_iff. intros l.
      by rewrite !find_category_None, Hids.
Qed.

(** ** The card next to its target *)

Lemma filter_renumber_ids (P : LinkItem → Prop) `{!∀ x, Decision (P x)}
    (L : list LinkItem) :
  (∀ n x, P (with_order n x) ↔ P x) →
  link_id <$> filter P (renumber L) = link_id <$> filter P L.
Proof.
  intros HP. unfold renumber.
  generalize (λ idx : nat, Z.of_nat idx) as g. intros g.
  change (imap (λ idx x, with_order (Z.of_nat idx) x) L)
    with (imap (λ idx x, with_order ((λ i : nat, Z.of_nat i) idx) x) L).
  generalize (λ i : nat, Z.of_nat i) as h. clear g. intros h. revert h.
  induction L as [|x L IH]; intros h; [done|].
  rewrite imap_cons, !filter_cons.
  destruct (decide (P x)) as [Hx|Hx].
  - rewrite decide_True by by apply HP. rewrite !fmap_cons. f_equal.
    apply (IH (h ∘ S)).
  - rewrite decide_False by by rewrite HP. apply (IH (h ∘ S)).
Qed.

Lemma filter_other_ids (L : list LinkItem) (i : nat) (d : LinkItem) :
  NoDup (link_id <$> L) → L !! i = Some d →
  filter (λ l, link_id l ≠ link_id d) L = delete i L.
Proof.
  revert i. induction L as [|x L IH]; intros i Hnd Hi; [done|].
  rewrite fmap_cons in Hnd. apply NoDup_cons in Hnd as [Hx Hnd].
  destruct i as [|i]; simpl in *.
  - injection Hi as ->. rewrite filter_cons_False by (intros ?; done).
    apply filter_all, Forall_forall. intros l Hl Heq. apply Hx.
    apply list_elem_of_fmap. by exists l.
  - rewrite filter_cons_True.
    + f_equal. by apply IH.
    + intros Heq. apply Hx. rewrite Heq. apply list_elem_of_fmap.
      exists d. split; [done|]. by eapply list_elem_of_lookup_2.
Qed.

(** X12. After a link is dropped on a different link, and with no search
    running, the section of the target's category shows the dragged card
    right before the target, or right after it for a drop on the right
    half, among the other links of the category in the sequence they have
    in the links array.  When the orders were the array positions and the
    ids distinct before the drop, that is the sequence in which the
    section showed its other cards before: they keep their sequence. *)
Theorem dropped_card_next_to_target {SP : StringPrototype} (s : State) (di : DragItem)
    (targetId : string) (i j : nat) (d t : LinkItem) (cat : Category) :
  draggedItem s = Some di →
  drag_type di = LINK →
  list_find (λ l, link_id l = drag_id di) (links s) = Some (i, d) →
  list_find (λ l, link_id l = targetId) (links s) = Some (j, t) →
  i ≠ j →
  trim (searchQuery s) = "" →
  cat_id cat = link_categoryId t →
  let s' := handleDropWithState targetId LINK s in
  ∃ before after : list string,
    link_id <$> categoryLinks s' cat
    = before ++ (if decide (dropPosition s = Some AFTER)
                 then [targetId; drag_id di] else [drag_id di; targetId]) ++ after
    ∧ before ++ targetId :: after
      = link_id <$> filter (λ l, link_categoryId l = cat_id cat) (delete i (links s))
    ∧ (positional (links s) → NoDup (link_id <$> links s) →
       before ++ targetId :: after
       = link_id <$> filter (λ l, link_id l ≠ drag_id di) (categoryLinks s cat)).
Proof.
  intros Hdi Hty Hd Ht Hij Hq Hcat s'.
  destruct (link_dropped_on_link_aux s di targetId i j d t Hdi Hty Hd Ht Hij)
    as (pre & post & Hrest & Hres).
  set (P := λ l : LinkItem, link_categoryId l = cat_id cat).
  assert (HPd : P (with_categoryId (link_categoryId t) d)) by (unfold P; by simpl).
  assert (HPt : P t) by done.
  apply list_find_Some in Hd as (Hi & Hdid & _).
  apply list_find_Some in Ht as (_ & Htid & _).
  exists (link_id <$> filter P pre), (link_id <$> filter P post).
  assert (Hsorted : ∀ L, positional L →
            getFilteredLinks (searchQuery s) (filter P L) = filter P L).
  { intros L HL. unfold getFilteredLinks. rewrite decide_True by done.
    apply js_sort_of_sorted, StronglySorted_Sorted.
    eapply StronglySorted_weaken;
      [|by apply StronglySorted_filter, positional_sorted].
    unfold order_lt, order_le. intros; lia. }
  assert (Hshown : categoryLinks s' cat = filter P (links s')).
  { unfold categoryLinks, s'. rewrite handleDrop_searchQuery. fold s'.
    apply Hsorted. fold s' in Hres. rewrite Hres. apply renumber_positional. }
  split_and!.
  - rewrite Hshown. fold s' in Hres. rewrite Hres, filter_renumber_ids by done.
    destruct (decide (dropPosition s = Some AFTER)).
    + rewrite filter_app, !filter_cons_True by done.
      rewrite fmap_app, !fmap_cons. simpl. by rewrite Htid, Hdid.
    + rewrite filter_app, !filter_cons_True by done.
      rewrite fmap_app, !fmap_cons. simpl. by rewrite Htid, Hdid.
  - rewrite Hrest, filter_app, filter_cons_True by done.
    by rewrite fmap_app, fmap_cons, Htid.
  - intros Hpos Hnd. unfold categoryLinks. rewrite Hsorted by done.
    transitivity
      (link_id <$> filter P (filter (λ l, link_id l ≠ link_id d) (links s))).
    2:{ f_equal. rewrite !list_filter_filter. apply list_filter_iff.
        intros l. rewrite Hdid. tauto. }
    rewrite (filter_other_ids _ i d) by done.
    rewrite Hrest, filter_app, filter_cons_True by done.
    by rewrite fmap_app, fmap_cons, Htid.
Qed.

Lemma dropped_card_next_to_target_witness :
  let s := handleDragOver true "B"
             (handleDragStart (mkDragItem LINK "A" None) scenario_AB) in
  let s' := handleDropWithState "B" LINK s in
  ∃ before after : list string,
    link_id <$> @categoryLinks asciiStrings s' (mkCategory "Y" "Y" 1)
    = before ++ (if decide (dropPosition s = Some AFTER)
                 then ["B"; "A"] else ["A"; "B"]) ++ after
    ∧ before ++ "B" :: after
      = link_id <$> filter (λ l, link_categoryId l = "Y") (delete 2%nat (links s))
    ∧ (positional (links s) → NoDup (link_id <$> links s) →
       before ++ "B" :: after
       = link_id <$> filter (λ l, link_id l ≠ "A")
                       (@categoryLinks asciiStrings s (mkCategory "Y" "Y" 1))).
Proof.
  intros s.
  apply (@dropped_card_next_to_target asciiStrings s (mkDragItem LINK "A" None) "B"
           2 0 (aLink "A" "X" 2) (aLink "B" "Y" 0) (mkCategory "Y" "Y" 1)).
  - reflexivity.
  - reflexivity.
  - reflexivity.
  - reflexivity.
  - lia.
  - reflexivity.
  - reflexivity.
Defined.

(** With orders that are not the array positions the section can show its
    other cards in a new sequence: in the seed data with Figma moved to
    Development, the section shows link_1, link_3, link_2; dropping link_1
    after link_3 gives link_2, link_3, link_1. *)
Example dropped_card_resorts :
  let s0 := loadData (SEED_DATA 0) initialState in
  let s1 := handleDropWithState "cat_dev" CATEGORY
              (handleDragStart (mkDragItem LINK "link_3" None) s0) in
  let s2 := handleDropWithState "link_3" LINK
              (handleDragOver false "link_3"
                 (handleDragStart (mkDragItem LINK "link_1" None) s1)) in
  let dev := mkCategory "cat_dev" "Development" 0 in
  link_id <$> @categoryLinks asciiStrings s1 dev = ["link_1"; "link_3"; "link_2"]
  ∧ link_id <$> @categoryLinks asciiStrings s2 dev = ["link_2"; "link_3"; "link_1"].
Proof. by vm_compute. Qed.

(** ** Categories added and deleted *)

(** X13. A category that is added and then deleted leaves the categories
    and the links as they were, whenever its generated id was not in use,
    neither by a category nor by a link. *)
Theorem add_then_delete_category (s : State) (newId name : string) :
  let cid := "cat_" +:+ newId in
  cid ∉ cat_id <$> categories s →
  cid ∉ link_categoryId <$> links s →
  let s1 := handleAddCategory newId name s in
  let s2 := performDelete (requestDeleteCategory cid name s1) in
  categories s1
  = categories s ++ [mkCategory cid name (Z.of_nat (length (categories s)))]
  ∧ links s1 = links s
  ∧ categories s2 = categories s
  ∧ links s2 = links s.
Proof.
  intros cid Hc Hl s1 s2.
  assert (H2c : categories s2 = filter (λ c, cat_id c ≠ cid) (categories s1)).
  { unfold s2, performDelete, requestDeleteCategory. simpl. by case_decide. }
  assert (H2l : links s2 = (λ l, if decide (link_categoryId l = cid)
                                 then with_categoryId "uncategorized" l else l)
                           <$> links s).
  { unfold s2, performDelete, requestDeleteCategory. simpl. by case_decide. }
  split_and!; [done..| |].
  - rewrite H2c. change (categories s1) with
      (categories s ++ [mkCategory cid name (Z.of_nat (length (categories s)))]).
    rewrite filter_app, filter_cons_False, filter_nil, app_nil_r by (simpl; tauto).
    apply filter_all, Forall_forall. intros c Hin Hid. apply Hc.
    apply list_elem_of_fmap. by exists c.
  - rewrite H2l. apply fmap_fixed. intros l Hin. rewrite decide_False; [done|].
    intros Hid. apply Hl. apply list_elem_of_fmap. by exists l.
Qed.

Lemma add_then_delete_category_witness :
  let s := loadData (SEED_DATA 0) initialState in
  let s1 := handleAddCategory "k3x9" "Tools" s in
  let s2 := performDelete (requestDeleteCategory "cat_k3x9" "Tools" s1) in
  categories s1
  = categories s ++ [mkCategory "cat_k3x9" "Tools" (Z.of_nat (length (categories s)))]
  ∧ links s1 = links s
  ∧ categories s2 = categories s
  ∧ links s2 = links s.
Proof.
  intros s.
  apply (add_then_delete_category s "k3x9" "Tools").
  - by apply (bool_decide_unpack _).
  - by apply (bool_decide_unpack _).
Defined.

(** ** The displayed URL *)

Lemma append_empty_r (s : string) : s +:+ "" = s.
Proof. induction s as [|c s IH]; [done|]. rewrite append_cons. by f_equal. Qed.

Lemma stripPrefix_app (p x : string) : stripPrefix p (p +:+ x) = Some x.
Proof.
  induction p as [|c p IH]; [by destruct x|].
  rewrite append_cons. simpl. by rewrite decide_True.
Qed.

Lemma stripTrailingSlash_snoc (u : string) : stripTrailingSlash (u +:+ "/") = u.
Proof.
  induction u as [|c u IH]; [done|]. rewrite append_cons.
  cbn [stripTrailingSlash]. rewrite IH.
  destruct (u +:+ "/") eqn:E; [by destruct u|done].
Qed.

(** A prefix found only once something is appended ends in the appended
    part. *)
Lemma stripPrefix_app_None (p u x r : string) :
  stripPrefix p u = None → stripPrefix p (u +:+ x) = Some r →
  ∃ k, k ≠ "" ∧ p = u +:+ k ∧ x = k +:+ r.
Proof.
  revert u. induction p as [|a p IH]; intros u; [done|].
  destruct u as [|b u].
  - rewrite append_empty_l. intros _ Hx. exists (String a p).
    split_and!; [done..|]. clear IH. revert x Hx.
    generalize (String a p) as q. induction q as [|c q IHq]; intros x Hx.
    + simpl in Hx. destruct x; by simplify_eq.
    + destruct x as [|c' x]; [done|]. simpl in Hx. case_decide; [|done].
      subst. rewrite append_cons. f_equal. by apply IHq.
  - rewrite append_cons. simpl. case_decide; [|done]. subst.
    intros Hn Hs. destruct (IH u Hn Hs) as (k & Hk & -> & ->).
    exists k. by rewrite append_cons.
Qed.

Lemma append_slash_inj (u v : string) : u +:+ "/" = v +:+ "/" → u = v.
Proof.
  revert v. induction u as [|c u IH]; intros [|c' v]; try done.
  - rewrite append_cons. intros [= _ H]. by destruct v.
  - rewrite append_cons. intros [= _ H]. by destruct u.
  - rewrite !append_cons. intros [= -> H]. f_equal. by apply IH.
Qed.

(** X14. A URL is displayed without its scheme and without one trailing
    slash: all six spellings of a URL, with ["https://"], ["http://"] or no
    scheme and with or without a final slash, are displayed alike. *)
Theorem formatUrlDisplay_spellings (u scheme slash : string) :
  stripPrefix "https://" u = None →
  stripPrefix "http://" u = None →
  stripTrailingSlash u = u →
  scheme ∈ ["https://"; "http://"; ""] →
  slash ∈ ["/"; ""] →
  formatUrlDisplay (scheme +:+ u +:+ slash) = u.
Proof.
  intros Hs Hh Hu Hscheme Hslash.
  assert (Hend : stripTrailingSlash (u +:+ slash) = u).
  { apply elem_of_cons in Hslash as [->|Hslash]; [apply stripTrailingSlash_snoc|].
    apply list_elem_of_singleton in Hslash as ->. by rewrite append_empty_r. }
  assert (Hno : ∀ p, p = "https://" ∨ p = "http://" →
                     stripPrefix p u = None → stripPrefix p (u +:+ slash) = None).
  { intros p Hp Hn. destruct (stripPrefix p (u +:+ slash)) as [r|] eqn:E; [|done].
    destruct (stripPrefix_app_None _ _ _ _ Hn E) as (k & Hk & Hpu & Hx).
    apply elem_of_cons in Hslash as [->|Hslash].
    - destruct k as [|c [|c' k]]; [done| |by destruct r].
      rewrite append_cons, append_empty_l in Hx. injection Hx as <- <-.
      exfalso. destruct Hp as [-> | ->].
      + change "https://" with ("https:/" +:+ "/") in Hpu.
        apply append_slash_inj in Hpu as <-. discriminate Hu.
      + change "http://" with ("http:/" +:+ "/") in Hpu.
        apply append_slash_inj in Hpu as <-. discriminate Hu.
    - apply list_elem_of_singleton in Hslash as ->. by destruct k. }
  unfold formatUrlDisplay.
  apply elem_of_cons in Hscheme as [->|Hscheme].
  { by rewrite stripPrefix_app. }
  apply elem_of_cons in Hscheme as [->|Hscheme].
  { replace (stripPrefix "https://" ("http://" +:+ u +:+ slash)) with (@None string)
      by done.
    by rewrite stripPrefix_app. }
  apply list_elem_of_singleton in Hscheme as ->. rewrite append_empty_l.
  by rewrite !Hno by auto.
Qed.

Lemma formatUrlDisplay_spellings_witness :
  formatUrlDisplay ("https://" +:+ "github.com/issues" +:+ "/") = "github.com/issues".
Proof.
  apply (formatUrlDisplay_spellings "github.com/issues" "https://" "/").
  - reflexivity.
  - reflexivity.
  - reflexivity.
  - left.
  - left.
Defined.

(** ** The rows of sub-links in the form *)

(** X15. In the link form, editing a row changes that field of that row
    only, removing a row deletes exactly that row (and nothing when there
    is no such row), and removing the row just added gives back the rows
    there were. *)
Theorem sublink_rows (formData : FormData) (idx : nat) (field : SubLinkField)
    (value newId : string) :
  let subs := default [] (fd_subLinks formData) in
  (is_Some (handleSubLinkChange idx field value formData) ↔ (idx < length subs)%nat)
  ∧ (∀ fd', handleSubLinkChange idx field value formData = Some fd' →
       ∃ subs' sub,
         fd_subLinks fd' = Some subs' ∧ subs !! idx = Some sub
         ∧ length subs' = length subs
         ∧ subs' !! idx = Some (with_field field value sub)
         ∧ subs' !! idx
           = Some (match field with
                   | F_id => mkSubLink value (sub_title sub) (sub_url sub)
                   | F_title => mkSubLink (sub_id sub) value (sub_url sub)
                   | F_url => mkSubLink (sub_id sub) (sub_title sub) value
                   end)
         ∧ (∀ k, k ≠ idx → subs' !! k = subs !! k)
         ∧ (field ≠ F_id → sub_id <$> subs' = sub_id <$> subs))
  ∧ fd_subLinks (removeSubLink idx formData) = Some (delete idx subs)
  ∧ ((length subs ≤ idx)%nat → fd_subLinks (removeSubLink idx formData) = Some subs)
  ∧ removeSubLink (length subs) (addSubLink newId formData)
    = with_subLinks subs formData.
Proof.
  intros subs.
  assert (Hrem : ∀ i (l : list SubLink), (splice (Z.of_nat i) 1 [] l).2 = delete i l).
  { intros i l. destruct (l !! i) as [x|] eqn:Hx.
    - by rewrite (splice_remove_one _ _ _ Hx).
    - apply lookup_ge_None in Hx. unfold splice. rewrite decide_False by lia.
      simpl. replace (Z.to_nat (Z.of_nat i `min` Z.of_nat (length l)))
        with (length l) by lia.
      rewrite firstn_all, drop_ge, app_nil_r by lia.
      clear -Hx. revert i Hx. induction l as [|y l IH]; intros [|i] Hx;
        simpl in *; try done; try lia. f_equal. apply IH. lia. }
  split_and!.
  - unfold handleSubLinkChange. fold subs. rewrite <-lookup_lt_is_Some.
    destruct (subs !! idx); split; intros [? ?]; by eauto.
  - intros fd'. unfold handleSubLinkChange. fold subs.
    destruct (subs !! idx) as [sub|] eqn:Hsub; [|done]. intros [= <-].
    exists (<[idx:=with_field field value sub]> subs), sub.
    pose proof (lookup_lt_Some _ _ _ Hsub) as Hlt. split_and!.
    + done.
    + done.
    + by rewrite length_insert.
    + by rewrite list_lookup_insert_eq.
    + by rewrite list_lookup_insert_eq.
    + intros k Hk. by rewrite list_lookup_insert_ne.
    + intros Hf. apply list_eq. intros k. rewrite !list_lookup_fmap.
      destruct (decide (k = idx)) as [->|Hk].
      * rewrite list_lookup_insert_eq, Hsub by done. simpl. by destruct field.
      * by rewrite list_lookup_insert_ne.
  - unfold removeSubLink, with_subLinks. cbn [fd_subLinks]. fold subs.
    by rewrite Hrem.
  - intros Hge. unfold removeSubLink, with_subLinks. cbn [fd_subLinks].
    fold subs. rewrite Hrem.
    f_equal. clear -Hge. revert idx Hge.
    induction subs as [|y l IH]; intros [|i] Hx; simpl in *; try done; try lia.
    f_equal. apply IH. lia.
  - unfold removeSubLink, addSubLink, with_subLinks.
    cbn [fd_subLinks fd_id fd_title fd_url fd_description fd_categoryId
         fd_createdAt fd_order default]. fold subs.
    rewrite Hrem. unfold id. f_equal. f_equal.
    by rewrite delete_middle, app_nil_r.
Qed.

(** ** The drag gesture as a whole *)

Lemma handleDragOver_frame (leftOfCenter : bool) (id : string) (s : State) :
  let s' := handleDragOver leftOfCenter id s in
  links s' = links s ∧ categories s' = categories s
  ∧ draggedItem s' = draggedItem s
  ∧ handleDragEnd s' = handleDragEnd s.
Proof.
  unfold handleDragOver. destruct (draggedItem s) as [d|] eqn:Hd; [|done].
  by case_decide.
Qed.

Lemma hovers_frame (hovers : list (bool * string)) (s : State) :
  let s' := foldl (λ s h, handleDragOver h.1 h.2 s) s hovers in
  links s' = links s ∧ categories s' = categories s
  ∧ draggedItem s' = draggedItem s
  ∧ handleDragEnd s' = handleDragEnd s.
Proof.
  revert s. induction hovers as [|h hovers IH]; intros s; [done|].
  cbn [foldl].
  destruct (IH (handleDragOver h.1 h.2 s)) as (-> & -> & -> & ->).
  apply handleDragOver_frame.
Qed.

(** X16. A drag gesture is its start, any number of hovers and its end.
    Hovering changes neither links nor categories; a gesture that is
    cancelled leaves an idle page exactly as it was; and a gesture that
    ends in a drop applies the reordering of the dragged item and the drop
    target with the side of the last hover, whatever was hovered before
    (for a dragged category the side plays no part). *)
Theorem drag_gesture (s0 : State) (d : DragItem) (hovers : list (bool * string))
    (leftOfCenter : bool) (targetId : string) (type : ItemType) :
  let hover s (h : bool * string) := handleDragOver h.1 h.2 s in
  let s := foldl hover (handleDragStart d s0) hovers in
  let dropped := handleDropWithState targetId type (hover s (leftOfCenter, targetId)) in
  (links s = links s0 ∧ categories s = categories s0)
  ∧ (draggedItem s0 = None ∧ dragOverId s0 = None ∧ dropPosition s0 = None →
     handleDragEnd s = s0)
  ∧ (drag_type d = LINK →
     links dropped
     = dropLinks (drag_id d) targetId type
         (Some (if leftOfCenter then BEFORE else AFTER)) (links s0)
     ∧ categories dropped = categories s0)
  ∧ (drag_type d = CATEGORY →
     links dropped = links s0
     ∧ categories dropped
       = match type with
         | CATEGORY => dropCategories (drag_id d) targetId (categories s0)
         | LINK => categories s0
         end).
Proof.
  intros hover s dropped.
  destruct (hovers_frame hovers (handleDragStart d s0)) as (Hl & Hc & Hd & He).
  fold hover in Hl, Hc, Hd, He. fold s in Hl, Hc, Hd, He.
  change (links (handleDragStart d s0)) with (links s0) in Hl.
  change (categories (handleDragStart d s0)) with (categories s0) in Hc.
  change (draggedItem (handleDragStart d s0)) with (Some d) in Hd.
  destruct (handleDragOver_frame leftOfCenter targetId s) as (Hl' & Hc' & Hd' & _).
  assert (Hd1 : draggedItem (hover s (leftOfCenter, targetId)) = Some d)
    by (unfold hover; cbn [fst snd]; congruence).
  split_and!.
  - done.
  - done.
  - intros (H1 & H2 & H3). rewrite He. clear -H1 H2 H3.
    destruct s0. simpl in *. by subst.
  - intros Ht. unfold dropped.
    rewrite (handleDrop_links _ d), (handleDrop_categories _ d) by done.
    rewrite decide_True by done.
    rewrite decide_False by (intros [? _]; congruence).
    unfold hover, handleDragOver. cbn [fst snd]. rewrite Hd.
    rewrite decide_True by done. simpl. by rewrite Hl, Hc.
  - intros Ht. unfold dropped.
    rewrite (handleDrop_links _ d), (handleDrop_categories _ d) by done.
    rewrite (decide_False (P := drag_type d = LINK)) by congruence.
    unfold hover. cbn [fst snd]. rewrite Hl', Hc', Hl, Hc.
    split; [done|]. destruct type.
    + by rewrite decide_True.
    + by rewrite decide_False by (intros [_ ?]; congruence).
Qed.

(** * Further properties of the worker *)

(** ** The hash *)

Lemma length_append (a b : string) :
  String.length (a +:+ b) = (String.length a + String.length b)%nat.
Proof.
  induction a as [|c a IH]; [done|]. rewrite append_cons. simpl. by rewrite IH.
Qed.

Lemma hex_length (bytes : list Z) :
  Forall (λ b, 0 ≤ b < 256) bytes →
  String.length (String.concat "" ((λ b, padStart2 (toString16 b)) <$> bytes))
  = (2 * length bytes)%nat.
Proof.
  induction 1 as [|b bytes Hb _ IH]; [done|].
  rewrite fmap_cons, concat_empty_cons, length_append, IH.
  rewrite padStart2_toString16_byte by done. simpl. lia.
Qed.

(** X17. Whatever the password, its hash is a string of exactly 64
    lower-case hexadecimal digits: every byte of the digest gives two
    digits, a small byte being padded with a zero. *)
Theorem hashPassword_format (password : string) :
  String.length (hashPassword password) = 64%nat
  ∧ hex_string (hashPassword password)
  ∧ encodeURIComponent (hashPassword password) = hashPassword password.
Proof.
  split_and!.
  - destruct (digest_bytes (encode password)) as [Hr Hlen].
    with_strategy transparent [hashPassword] unfold hashPassword.
    rewrite hex_length by done. by rewrite Hlen.
  - apply hashPassword_hex.
  - apply encodeURIComponent_hex, hashPassword_hex.
Qed.

(** ** What the login reads of the body *)



(** ** All the outcomes of [fetch] *)

Lemma fetch_cases (req : Request) (env : Env) (out : Outcome) (env' : Env) :
  fetch req env = Ok (out, env') →
  (out = Assets req ∧ env' = env
   ∧ req_pathname req ≠ "/api/data")
  ∨ (∃ b, out = Respond (json (JObj [("authenticated", JBool b)]) 200 [])
          ∧ env' = env ∧ isAuthenticated req env = Ok b
          ∧ req_pathname req = "/api/auth-status")
  ∨ (∃ msg st, out = Respond (json (error msg) st []) ∧ env' = env
               ∧ st ∈ [400; 401; 405])
  ∨ (∃ h, out = Respond (json ok_true 200 [("Set-Cookie", setAuthCookie h)])
          ∧ env' = env ∧ req_pathname req = "/api/login")
  ∨ (∃ h cfg, out = Respond (json ok_true 200 [("Set-Cookie", setAuthCookie h)])
              ∧ env' = saveConfig env cfg
              ∧ set_passwordHash h (getConfig env) = Ok cfg
              ∧ isAuthenticated req env = Ok true
              ∧ req_pathname req = "/api/change-password"
              ∧ req_method req = "POST")
  ∨ (∃ d, out = Respond (json d 200 []) ∧ env' = env
          ∧ isAuthenticated req env = Ok true
          ∧ req_pathname req = "/api/data" ∧ req_method req = "GET")
  ∨ (∃ body, out = Respond (json ok_true 200 []) ∧ env' = kv_put DATA_KEY body env
             ∧ req_json req = Some body
             ∧ isAuthenticated req env = Ok true
             ∧ req_pathname req = "/api/data" ∧ req_method req = "POST").
Proof.
  unfold fetch. intros H.
  destruct (bool_decide (req_pathname req = "/api/auth-status")
            && bool_decide (req_method req = "GET")) eqn:E1.
  { apply andb_true_iff in E1 as [Hp%bool_decide_eq_true _].
    destruct (isAuthenticated req env) as [b|e] eqn:Ha; simpl in H; simplify_eq.
    right; left. eauto 10. }
  destruct (bool_decide (req_pathname req = "/api/login")
            && bool_decide (req_method req = "POST")) eqn:E2.
  { apply andb_true_iff in E2 as [Hp%bool_decide_eq_true _].
    destruct (req_json req) as [body|].
    - destruct (orEmpty_toString _) as [pw|e]; simpl in H; [|done].
      case_decide.
      + simplify_eq. do 2 right; left. exists "Password required", 400.
        split_and!; [done..|]. left.
      + destruct (str_strict_eq _ _); simpl in H; simplify_eq.
        * do 3 right; left. eauto.
        * do 2 right; left. exists "Wrong password", 401.
          split_and!; [done..|]. right; left.
    - simplify_eq. do 2 right; left. exists "Invalid JSON", 400.
      split_and!; [done..|]. left. }
  destruct (bool_decide (req_pathname req = "/api/change-password")
            && bool_decide (req_method req = "POST")) eqn:E3.
  { apply andb_true_iff in E3 as [Hp%bool_decide_eq_true Hm%bool_decide_eq_true].
    destruct (isAuthenticated req env) as [[]|e] eqn:Ha; simpl in H; [| |done].
    - destruct (req_json req) as [body|].
      + destruct (orEmpty_toString (js_get "oldPassword" body)) as [old|e];
          simpl in H; [|done].
        destruct (orEmpty_toString (js_get "newPassword" body)) as [new|e];
          simpl in H; [|done].
        destruct (_ || _).
        * simplify_eq. do 2 right; left.
          exists "oldPassword and newPassword are required", 400.
          split_and!; [done..|]. left.
        * destruct (str_strict_eq _ _); simpl in H.
          -- destruct (set_passwordHash _ _) as [cfg|e] eqn:Hc; simpl in H; [|done].
             simplify_eq. do 4 right; left. eauto 10.
          -- simplify_eq. do 2 right; left. exists "Old password incorrect", 400.
             split_and!; [done..|]. left.
      + simplify_eq. do 2 right; left. exists "Invalid JSON", 400.
        split_and!; [done..|]. left.
    - simplify_eq. do 2 right; left. exists "Unauthorized", 401.
      split_and!; [done..|]. right; left. }
  destruct (bool_decide (req_pathname req = "/api/data")) eqn:E4.
  { apply bool_decide_eq_true in E4.
    destruct (isAuthenticated req env) as [[]|e] eqn:Ha; simpl in H; [| |done].
    - case_bool_decide as Hg.
      + do 5 right; left.
        destruct (LINKS_KV env !! DATA_KEY) as [d|];
          [destruct (truthy (Some d))|]; simplify_eq; eauto 10.
      + case_bool_decide as Hm.
        * destruct (req_json req) as [body|] eqn:Hb; [|done]. simplify_eq.
          do 6 right. eauto 10.
        * simplify_eq. do 2 right; left. exists "Method not allowed", 405.
          split_and!; [done..|]. right; right; left.
    - simplify_eq. do 2 right; left. exists "Unauthorized", 401.
      split_and!; [done..|]. right; left. }
  apply bool_decide_eq_false in E4. simplify_eq. by left.
Qed.

Lemma getCurrentPasswordHash_config (env1 env2 : Env) :
  LINKS_KV env1 !! CONFIG_KEY = LINKS_KV env2 !! CONFIG_KEY →
  getCurrentPasswordHash env1 = getCurrentPasswordHash env2.
Proof. intros Hk. unfold getCurrentPasswordHash, getConfig. by rewrite Hk. Qed.

Lemma isAuthenticated_config (req : Request) (env1 env2 : Env) :
  LINKS_KV env1 !! CONFIG_KEY = LINKS_KV env2 !! CONFIG_KEY →
  isAuthenticated req env1 = isAuthenticated req env2.
Proof.
  intros Hk. unfold isAuthenticated.
  by rewrite (getCurrentPasswordHash_config env1 env2).
Qed.

Lemma isAuthenticated_cookie (req1 req2 : Request) (env : Env) :
  req_cookie req1 = req_cookie req2 →
  isAuthenticated req1 env = isAuthenticated req2 env.
Proof. intros Hc. unfold isAuthenticated, getCookie. by rewrite Hc. Qed.

Lemma assoc_set_ne {V} (k k' : string) (x : V) (l : list (string * V)) :
  k' ≠ k → assoc k' (assoc_set k x l) = assoc k' l.
Proof.
  intros Hne. induction l as [|[k0 v] l IH]; simpl.
  - by rewrite decide_False.
  - destruct (decide (k0 = k)) as [->|]; simpl.
    + by rewrite !decide_False by done.
    + by rewrite IH.
Qed.

Lemma assoc_set_eq {V} (k : string) (x : V) (l : list (string * V)) :
  assoc k (assoc_set k x l) = Some x.
Proof.
  induction l as [|[k0 v] l IH]; simpl.
  - by rewrite decide_True.
  - destruct (decide (k0 = k)) as [->|]; simpl.
    + by rewrite decide_True.
    + by rewrite decide_False.
Qed.

(** X19. The store changes only on an authenticated POST to
    /api/change-password or /api/data that is answered by 200: a request
    without the cookie of the current hash, a GET, a request answered by an
    error and a request for another path all leave every key as it was. *)
Theorem writes_need_authentication (req : Request) (env env' : Env) (out : Outcome) :
  fetch req env = Ok (out, env') →
  env' ≠ env →
  isAuthenticated req env = Ok true
  ∧ req_method req = "POST"
  ∧ (req_pathname req = "/api/change-password" ∨ req_pathname req = "/api/data")
  ∧ ∃ r, out = Respond r ∧ res_status r = 200 ∧ res_data r = ok_true.
Proof.
  intros H Hne.
  destruct (fetch_cases _ _ _ _ H)
    as [(_ & ? & _)|[(b & _ & ? & _)|[(msg & st & _ & ? & _)|[(h & _ & ? & _)
       |[(h & cfg & -> & _ & _ & Ha & Hp & Hm)|[(d & _ & ? & _)
       |(body & -> & _ & _ & Ha & Hp & Hm)]]]]]]; try done.
  - split_and!; [done|done|by left|]. by eexists.
  - split_and!; [done|done|by right|]. by eexists.
Qed.

Lemma writes_need_authentication_witness :
  let req := dataRequest "POST" (Some (authCookie (hashPassword DEFAULT_PASSWORD)))
               (Some emptyDataset) in
  isAuthenticated req unconfigured = Ok true
  ∧ req_method req = "POST"
  ∧ (req_pathname req = "/api/change-password" ∨ req_pathname req = "/api/data")
  ∧ ∃ r, Respond (json ok_true 200 []) = Respond r
         ∧ res_status r = 200 ∧ res_data r = ok_true.
Proof.
  apply (writes_need_authentication _ unconfigured
           (kv_put DATA_KEY emptyDataset unconfigured)).
  - vm_compute. reflexivity.
  - intros Heq. apply (f_equal (λ e, LINKS_KV e !! DATA_KEY)) in Heq.
    vm_compute in Heq. discriminate.
Defined.

(** X20. The two documents of the store are kept apart, and no other key
    is ever written: a request for a path other than /api/change-password
    leaves the configuration, hence the password in force, as it was; a
    request for a path other than /api/data leaves the data as they were;
    and a password change keeps every other property of a stored
    configuration. *)
Theorem store_keys_separate (req : Request) (env env' : Env) (out : Outcome) :
  fetch req env = Ok (out, env') →
  (∀ k, k ≠ CONFIG_KEY → k ≠ DATA_KEY → LINKS_KV env' !! k = LINKS_KV env !! k)
  ∧ (req_pathname req ≠ "/api/change-password" →
     LINKS_KV env' !! CONFIG_KEY = LINKS_KV env !! CONFIG_KEY
     ∧ getCurrentPasswordHash env' = getCurrentPasswordHash env)
  ∧ (req_pathname req ≠ "/api/data" →
     LINKS_KV env' !! DATA_KEY = LINKS_KV env !! DATA_KEY)
  ∧ (∀ k, k ≠ "passwordHash" →
     js_get k (getConfig env') = js_get k (getConfig env)).
Proof.
  intros H.
  destruct (fetch_cases _ _ _ _ H)
    as [(_ & -> & _)|[(b & _ & -> & _)|[(msg & st & _ & -> & _)|[(h & _ & -> & _)
       |[(h & cfg & _ & -> & Hcfg & _ & Hp & _)|[(d & _ & -> & _)
       |(body & _ & -> & _ & _ & Hp & _)]]]]]]; try done.
  - split_and!.
    + intros k Hk _. unfold saveConfig, kv_put. simpl.
      by rewrite lookup_insert_ne.
    + done.
    + intros _. unfold saveConfig, kv_put. simpl. by rewrite lookup_insert_ne.
    + intros k Hk. unfold saveConfig, kv_put, getConfig at 1. simpl.
      rewrite lookup_insert_eq.
      destruct (getConfig env) as [| | | |items|props]; simpl in Hcfg; simplify_eq.
      * done.
      * simpl. by apply assoc_set_ne.
  - assert (Hc : LINKS_KV (kv_put DATA_KEY body env) !! CONFIG_KEY
                 = LINKS_KV env !! CONFIG_KEY)
      by (unfold kv_put; simpl; by rewrite lookup_insert_ne).
    split_and!.
    + intros k _ Hk. unfold kv_put. simpl. by rewrite lookup_insert_ne.
    + intros _. split; [done|]. by apply getCurrentPasswordHash_config.
    + done.
    + intros k _. unfold getConfig. by rewrite Hc.
Qed.

Lemma store_keys_separate_witness :
  let env := mkEnv {[ CONFIG_KEY := JObj [("theme", JStr "dark")] ]} in
  let req := changePasswordRequest
               (Some (authCookie (hashPassword DEFAULT_PASSWORD)))
               DEFAULT_PASSWORD "secret" in
  let env' := saveConfig env
                (JObj [("theme", JStr "dark");
                       ("passwordHash", JStr (hashPassword "secret"))]) in
  (∀ k, k ≠ CONFIG_KEY → k ≠ DATA_KEY → LINKS_KV env' !! k = LINKS_KV env !! k)
  ∧ (req_pathname req ≠ "/api/change-password" →
     LINKS_KV env' !! CONFIG_KEY = LINKS_KV env !! CONFIG_KEY
     ∧ getCurrentPasswordHash env' = getCurrentPasswordHash env)
  ∧ (req_pathname req ≠ "/api/data" →
     LINKS_KV env' !! DATA_KEY = LINKS_KV env !! DATA_KEY)
  ∧ (∀ k, k ≠ "passwordHash" →
     js_get k (getConfig env') = js_get k (getConfig env)).
Proof.
  apply (store_keys_separate _ _ _
           (Respond (json ok_true 200
                       [("Set-Cookie", setAuthCookie (hashPassword "secret"))]))).
  vm_compute. reflexivity.
Defined.

(** X21. What an authenticated POST to /api/data stores is what the next
    authenticated GET returns, whatever was stored before: the POST is
    answered by 200 [{"ok": true}] and puts the body (a value of
    [json_value]) under the data key, the GET by 200 and that body; a
    falsy body (null, false, 0, the empty string) is read back as the empty
    data set. *)
Theorem data_round_trip (env : Env) (cookie : option string) (body : JsVal) :
  json_value body = true →
  isAuthenticated (dataRequest "GET" cookie None) env = Ok true →
  ∃ posted got env1,
    fetch (dataRequest "POST" cookie (Some body)) env = Ok (Respond posted, env1)
    ∧ res_status posted = 200
    ∧ res_data posted = JObj [("ok", JBool true)]
    ∧ LINKS_KV env1 = <[DATA_KEY := body]> (LINKS_KV env)
    ∧ fetch (dataRequest "GET" cookie None) env1 = Ok (Respond got, env1)
    ∧ res_status got = 200
    ∧ res_headers got = [("Content-Type", "application/json; charset=utf-8")]
    ∧ res_data got
      = if truthy (Some body) then body
        else JObj [("categories", JArr []); ("links", JArr [])].
Proof.
  intros _ Ha.
  exists (json ok_true 200 []),
    (json (if truthy (Some body) then body else emptyDataset) 200 []),
    (kv_put DATA_KEY body env).
  split_and!; try done.
  - rewrite fetch_data by done.
    rewrite (isAuthenticated_cookie _ (dataRequest "GET" cookie None)) by done.
    by rewrite Ha.
  - rewrite fetch_data by done.
    rewrite (isAuthenticated_config _ _ env)
      by (unfold kv_put; simpl; by rewrite lookup_insert_ne).
    rewrite Ha. simpl. unfold kv_put. simpl. rewrite lookup_insert_eq. simpl.
    by destruct (truthy (Some body)).
Qed.

Lemma data_round_trip_witness :
  let cookie := Some (authCookie (hashPassword DEFAULT_PASSWORD)) in
  ∃ posted got env1,
    fetch (dataRequest "POST" cookie (Some JNull)) unconfigured
    = Ok (Respond posted, env1)
    ∧ res_status posted = 200
    ∧ res_data posted = JObj [("ok", JBool true)]
    ∧ LINKS_KV env1 = <[DATA_KEY := JNull]> (LINKS_KV unconfigured)
    ∧ fetch (dataRequest "GET" cookie None) env1 = Ok (Respond got, env1)
    ∧ res_status got = 200
    ∧ res_headers got = [("Content-Type", "application/json; charset=utf-8")]
    ∧ res_data got
      = if truthy (Some JNull) then JNull
        else JObj [("categories", JArr []); ("links", JArr [])].
Proof.
  apply (data_round_trip unconfigured
           (Some (authCookie (hashPassword DEFAULT_PASSWORD))) JNull).
  - reflexivity.
  - vm_compute. reflexivity.
Defined.

Lemma fetch_authStatus (req : Request) (env : Env) :
  req_pathname req = "/api/auth-status" → req_method req = "GET" →
  fetch req env
  = ok ← isAuthenticated req env;
    Ok (Respond (json (JObj [("authenticated", JBool ok)]) 200 []), env).
Proof. intros Hp Hm. unfold fetch. by rewrite Hp, Hm. Qed.

Lemma isAuthenticated_authCookie (req : Request) (env : Env) (password : string) :
  req_cookie req = Some (authCookie (hashPassword password)) →
  getCurrentPasswordHash env = JStr (hashPassword password) →
  isAuthenticated req env = Ok true.
Proof.
  intros Hc Hcur.
  rewrite (isAuthenticated_token _ _ (hashPassword password))
    by (apply getCookie_authCookie;
        [done|apply hashPassword_hex|apply hashPassword_nonempty]).
  rewrite Hcur. simpl.
  rewrite !bool_decide_eq_true_2; [done..|apply hashPassword_nonempty].
Qed.

(** X22. A login answered by 200 sets a cookie whose name=value pair, sent
    back in the [Cookie] header, authenticates a request of any method,
    path and body, so that /api/auth-status then reports [true]; without a
    cookie it reports [false]. *)
Theorem login_then_authenticated (env : Env) (password : string) (r : Response) :
  fetch (loginRequest (Some (passwordBody password))) env = Ok (Respond r, env) →
  res_status r = 200 →
  ∃ pair,
    assoc "Set-Cookie" (res_headers r)
    = Some (pair +:+ "; Path=/; HttpOnly; Secure; SameSite=Lax; Max-Age=2592000")
    ∧ (∀ method pathname body,
         isAuthenticated (mkRequest method pathname (Some pair) body) env = Ok true)
    ∧ fetch (mkRequest "GET" "/api/auth-status" (Some pair) None) env
      = Ok (Respond (json (JObj [("authenticated", JBool true)]) 200 []), env)
    ∧ fetch (mkRequest "GET" "/api/auth-status" None None) env
      = Ok (Respond (json (JObj [("authenticated", JBool false)]) 200 []), env).
Proof.
  intros H Hst. unfold loginRequest in H.
  rewrite (fetch_login _ _ _ password) in H by (by destruct password).
  destruct (decide (password = "")) as [|Hne]; [by simplify_eq|].
  destruct (str_strict_eq _ _) eqn:Heq; [|by simplify_eq].
  apply str_strict_eq_spec in Heq. simplify_eq.
  exists (authCookie (hashPassword password)).
  assert (Hauth : ∀ method pathname body,
    isAuthenticated (mkRequest method pathname
                       (Some (authCookie (hashPassword password))) body) env
    = Ok true) by (intros; by apply (isAuthenticated_authCookie _ _ password)).
  split_and!.
  - unfold json. cbn [headers_has existsb res_headers assoc].
    rewrite setAuthCookie_hash. reflexivity.
  - done.
  - rewrite fetch_authStatus by done. by rewrite Hauth.
  - done.
Qed.

Lemma login_then_authenticated_witness :
  ∃ pair,
    assoc "Set-Cookie"
      (res_headers (json ok_true 200
         [("Set-Cookie", setAuthCookie (hashPassword DEFAULT_PASSWORD))]))
    = Some (pair +:+ "; Path=/; HttpOnly; Secure; SameSite=Lax; Max-Age=2592000")
    ∧ (∀ method pathname body,
         isAuthenticated (mkRequest method pathname (Some pair) body) unconfigured
         = Ok true)
    ∧ fetch (mkRequest "GET" "/api/auth-status" (Some pair) None) unconfigured
      = Ok (Respond (json (JObj [("authenticated", JBool true)]) 200 []),
            unconfigured)
    ∧ fetch (mkRequest "GET" "/api/auth-status" None None) unconfigured
      = Ok (Respond (json (JObj [("authenticated", JBool false)]) 200 []),
            unconfigured).
Proof.
  apply (login_then_authenticated unconfigured DEFAULT_PASSWORD).
  - vm_compute. reflexivity.
  - reflexivity.
Defined.

(** X23. Every response the worker builds itself has one of the statuses
    200, 400, 401 and 405 and is declared as JSON; its only other header is
    the [Set-Cookie] of a login or a password change answered by 200; and a
    status other than 200 comes with a body [{"error": msg}] and an
    unchanged store. *)
Theorem response_shapes (req : Request) (env env' : Env) (r : Response) :
  fetch req env = Ok (Respond r, env') →
  res_status r ∈ [200; 400; 401; 405]
  ∧ assoc "Content-Type" (res_headers r) = Some "application/json; charset=utf-8"
  ∧ (res_headers r = [("Content-Type", "application/json; charset=utf-8")]
     ∨ ∃ h, res_headers r = [("Set-Cookie", setAuthCookie h);
                             ("Content-Type", "application/json; charset=utf-8")]
            ∧ res_status r = 200 ∧ req_method req = "POST"
            ∧ (req_pathname req = "/api/login"
               ∨ req_pathname req = "/api/change-password"))
  ∧ (res_status r ≠ 200 → env' = env ∧ ∃ msg, res_data r = error msg).
Proof.
  intros H. pose proof H as H0.
  assert (Hpost : req_pathname req = "/api/login" → req_method req = "POST").
  { intros Hp. unfold fetch in H0. rewrite Hp in H0. simpl in H0.
    destruct (bool_decide (req_method req = "POST")) eqn:Hm;
      [by apply bool_decide_eq_true in Hm|].
    simpl in H0. simplify_eq. }
  destruct (fetch_cases _ _ _ _ H)
    as [(? & _)|[(b & ? & -> & _)|[(msg & st & ? & -> & Hst)|[(h & ? & -> & Hp)
       |[(h & cfg & ? & -> & _ & _ & Hp & Hm)|[(d & ? & -> & _)
       |(body & ? & -> & _)]]]]]]; simplify_eq.
  - split_and!; [left|done|by left|done].
  - split_and!; [|done|by left|].
    + set_unfold. simpl. tauto.
    + intros _. split; [done|]. by eexists.
  - split_and!; [left|done| |done]. right. exists h. split_and!; [done..| |by left].
    by apply Hpost.
  - split_and!; [left|done| |done]. right. exists h. split_and!; [done..|by right].
  - split_and!; [left|done|by left|done].
  - split_and!; [left|done|by left|done].
Qed.

Lemma response_shapes_witness :
  let r := json (error "Unauthorized") 401 [] in
  res_status r ∈ [200; 400; 401; 405]
  ∧ assoc "Content-Type" (res_headers r) = Some "application/json; charset=utf-8"
  ∧ (res_headers r = [("Content-Type", "application/json; charset=utf-8")]
     ∨ ∃ h, res_headers r = [("Set-Cookie", setAuthCookie h);
                             ("Content-Type", "application/json; charset=utf-8")]
            ∧ res_status r = 200 ∧ req_method (dataRequest "GET" None None) = "POST"
            ∧ (req_pathname (dataRequest "GET" None None) = "/api/login"
               ∨ req_pathname (dataRequest "GET" None None) = "/api/change-password"))
  ∧ (res_status r ≠ 200 → unconfigured = unconfigured ∧ ∃ msg, res_data r = error msg).
Proof.
  apply (response_shapes (dataRequest "GET" None None) unconfigured).
  reflexivity.
Defined.

(** ** Cookies: encoding, decoding and the header *)

Lemma encode_char (c : ascii) :
  (uri_unreserved c = true →
   c ≠ "%"%char ∧ c ≠ ";"%char ∧ c ≠ "="%char ∧ code c < 0x80)
  ∧ hex_value (hex_digit true (code c / 16)) = Some (code c / 16)
  ∧ hex_value (hex_digit true (code c mod 16)) = Some (code c mod 16)
  ∧ hex_digit true (code c / 16) ≠ ";"%char
  ∧ hex_digit true (code c / 16) ≠ "="%char
  ∧ hex_digit true (code c mod 16) ≠ ";"%char
  ∧ hex_digit true (code c mod 16) ≠ "="%char
  ∧ byte_char (code c) = c
  ∧ 16 * (code c / 16) + code c mod 16 = code c.
Proof.
  destruct c as [[] [] [] [] [] [] [] []]; vm_compute; split_and!; try done.
Qed.

Lemma uriTokens_encode (s : string) :
  uriTokens (encodeURIComponent s)
  = Ok (token_of <$> String.list_ascii_of_string s).
Proof.
  induction s as [|c s IH]; [done|].
  destruct (encode_char c) as (Hu & Hx & Hy & _ & _ & _ & _ & _ & Hn).
  cbn [encodeURIComponent String.list_ascii_of_string fmap list_fmap].
  unfold token_of at 1. destruct (uri_unreserved c) eqn:Hc.
  - destruct (Hu eq_refl) as (Hp & _). cbn [uriTokens].
    rewrite bool_decide_eq_false_2 by done. by rewrite IH.
  - cbn [uriTokens]. rewrite bool_decide_eq_true_2 by done.
    fold (code c). rewrite Hx, Hy, IH. simpl. by rewrite Hn.
Qed.

Lemma uriBytes_token (c : ascii) (lo hi : Z) (ts : list UriToken) :
  code c < 0x80 →
  uriBytes 0 lo hi (token_of c :: ts)
  = s ← uriBytes 0 0x80 0xbf ts; Ok (String c s).
Proof.
  intros Hc. destruct (encode_char c) as (_ & _ & _ & _ & _ & _ & _ & Hb & _).
  unfold token_of. destruct (uri_unreserved c); simpl; [done|].
  rewrite decide_True by done. by rewrite Hb.
Qed.

Lemma token_of_high (c : ascii) : 0x80 ≤ code c → token_of c = UEsc (code c).
Proof.
  intros Hc. unfold token_of.
  destruct (encode_char c) as (Hu & _).
  destruct (uri_unreserved c); [|done]. destruct (Hu eq_refl) as (_ & _ & _ & ?). lia.
Qed.

Lemma uriBytes_first (c : ascii) (n : nat) (lo hi lo' hi' : Z) (ts : list UriToken) :
  0x80 ≤ code c →
  (0xc2 ≤ code c ≤ 0xdf ∧ n = 1%nat ∧ lo = 0x80 ∧ hi = 0xbf)
  ∨ (code c = 0xe0 ∧ n = 2%nat ∧ lo = 0xa0 ∧ hi = 0xbf)
  ∨ (code c = 0xed ∧ n = 2%nat ∧ lo = 0x80 ∧ hi = 0x9f)
  ∨ (0xe1 ≤ code c ≤ 0xef ∧ code c ≠ 0xed ∧ n = 2%nat ∧ lo = 0x80 ∧ hi = 0xbf)
  ∨ (code c = 0xf0 ∧ n = 3%nat ∧ lo = 0x90 ∧ hi = 0xbf)
  ∨ (0xf1 ≤ code c ≤ 0xf3 ∧ n = 3%nat ∧ lo = 0x80 ∧ hi = 0xbf)
  ∨ (code c = 0xf4 ∧ n = 3%nat ∧ lo = 0x80 ∧ hi = 0x8f) →
  uriBytes 0 lo' hi' (token_of c :: ts)
  = s ← uriBytes n lo hi ts; Ok (String c s).
Proof.
  intros Hc Hcases. rewrite token_of_high by done.
  destruct (encode_char c) as (_ & _ & _ & _ & _ & _ & _ & Hb & _).
  cbn [uriBytes]. rewrite Hb.
  repeat (destruct (decide _); try lia);
    destruct Hcases as [?|[?|[?|[?|[?|[?|?]]]]]]; destruct_and!; subst;
    try lia; done.
Qed.

Lemma uriBytes_next (c : ascii) (n : nat) (lo hi : Z) (ts : list UriToken) :
  0x80 ≤ code c → lo ≤ code c ≤ hi →
  uriBytes (S n) lo hi (token_of c :: ts)
  = s ← uriBytes n 0x80 0xbf ts; Ok (String c s).
Proof.
  intros Hc Hr. rewrite token_of_high by done.
  destruct (encode_char c) as (_ & _ & _ & _ & _ & _ & _ & Hb & _).
  cbn [uriBytes]. rewrite Hb. by rewrite decide_True.
Qed.

Lemma uriBytes_wf (s : string) (lo hi : Z) :
  wf_utf8 s →
  uriBytes 0 lo hi (token_of <$> String.list_ascii_of_string s) = Ok s.
Proof.
  intros Hs. revert lo hi.
  induction Hs as [|c s Hc Hs IH|c1 c2 s H1 H2 Hs IH|c1 c2 c3 s H1 H3 Hs IH
                   |c1 c2 c3 c4 s H1 H3 H4 Hs IH]; intros lo hi;
    unfold continuation in *;
    cbn [String.list_ascii_of_string fmap list_fmap].
  - done.
  - rewrite uriBytes_token by done. by rewrite IH.
  - rewrite (uriBytes_first c1 1 0x80 0xbf) by (try left; lia).
    rewrite uriBytes_next by lia. by rewrite IH.
  - destruct H1 as [[? ?]|[(? & ? & ?)|[? ?]]].
    + rewrite (uriBytes_first c1 2 0xa0 0xbf) by (try (right; left); lia).
      rewrite !uriBytes_next by lia. by rewrite IH.
    + rewrite (uriBytes_first c1 2 0x80 0xbf) by (try (do 3 right; left); lia).
      rewrite !uriBytes_next by lia. by rewrite IH.
    + rewrite (uriBytes_first c1 2 0x80 0x9f) by (try (do 2 right; left); lia).
      rewrite !uriBytes_next by lia. by rewrite IH.
  - destruct H1 as [[? ?]|[[? ?]|[? ?]]].
    + rewrite (uriBytes_first c1 3 0x90 0xbf) by (try (do 4 right; left); lia).
      rewrite !uriBytes_next by lia. by rewrite IH.
    + rewrite (uriBytes_first c1 3 0x80 0xbf) by (try (do 5 right; left); lia).
      rewrite !uriBytes_next by lia. by rewrite IH.
    + rewrite (uriBytes_first c1 3 0x80 0x8f) by (try (do 6 right); lia).
      rewrite !uriBytes_next by lia. by rewrite IH.
Qed.

Lemma decode_encode (s : string) :
  wf_utf8 s → decodeURIComponent (encodeURIComponent s) = Ok s.
Proof.
  intros Hs. unfold decodeURIComponent. rewrite uriTokens_encode. simpl.
  by apply uriBytes_wf.
Qed.

Lemma encode_free (s : string) :
  free_of ";" (encodeURIComponent s) ∧ free_of "=" (encodeURIComponent s).
Proof.
  unfold free_of. induction s as [|c s [IH1 IH2]]; simpl.
  - split; apply not_elem_of_nil.
  - destruct (encode_char c) as (Hu & _ & _ & ? & ? & ? & ? & _).
    destruct (uri_unreserved c).
    + destruct (Hu eq_refl) as (_ & ? & ? & _). simpl.
      rewrite !not_elem_of_cons. done.
    + simpl. rewrite !not_elem_of_cons. done.
Qed.

Lemma encode_nonempty (s : string) : s ≠ "" → encodeURIComponent s ≠ "".
Proof. destruct s as [|c s]; [done|]. simpl. by destruct (uri_unreserved c). Qed.

Lemma splitCookie_part (a rest : string) :
  free_of ";" a →
  splitCookie false (a +:+ String ";" rest) = a :: splitCookie true rest.
Proof.
  unfold free_of. induction a as [|c a IH]; simpl; [done|].
  rewrite not_elem_of_cons. intros [Hc Ha]. rewrite ?append_cons. simpl.
  rewrite bool_decide_eq_false_2 by done. by rewrite IH.
Qed.

Lemma splitCookie_last (a : string) : free_of ";" a → splitCookie false a = [a].
Proof.
  unfold free_of. induction a as [|c a IH]; simpl; [done|].
  rewrite not_elem_of_cons. intros [Hc Ha].
  rewrite bool_decide_eq_false_2 by done. by rewrite IH.
Qed.

Lemma splitEq_part (k v : string) :
  free_of "=" k → splitEq (k +:+ String "=" v) = k :: splitEq v.
Proof.
  unfold free_of. induction k as [|c k IH]; simpl; [done|].
  rewrite not_elem_of_cons. intros [Hc Hk]. rewrite ?append_cons. simpl.
  rewrite bool_decide_eq_false_2 by done. by rewrite IH.
Qed.

Lemma splitEq_last (v : string) : free_of "=" v → splitEq v = [v].
Proof.
  unfold free_of. induction v as [|c v IH]; simpl; [done|].
  rewrite not_elem_of_cons. intros [Hc Hv].
  rewrite bool_decide_eq_false_2 by done. by rewrite IH.
Qed.

Lemma splitEq_cons (v : string) : ∃ p ps, splitEq v = p :: ps.
Proof.
  induction v as [|c v (p & ps & IH)]; simpl; [by eauto|].
  case_bool_decide; [by eauto|]. rewrite IH. by eauto.
Qed.

Lemma free_of_app (c : ascii) (a b : string) :
  free_of c a → free_of c b → free_of c (a +:+ b).
Proof.
  unfold free_of. induction a as [|x a IH]; [done|].
  rewrite append_cons. simpl. rewrite !not_elem_of_cons.
  intros [Hx Ha] Hb. split; [done|by apply IH].
Qed.

Lemma append_nonempty (a b : string) : b ≠ "" → a +:+ b ≠ "".
Proof. destruct a; [by rewrite append_empty_l|by rewrite append_cons]. Qed.

Lemma getCookie_first (req : Request) (hash rest : string) :
  wf_utf8 hash → hash ≠ "" →
  rest = "" ∨ (∃ rest', rest = String ";" rest') →
  req_cookie req = Some (AUTH_COOKIE +:+ "=" +:+ encodeURIComponent hash +:+ rest) →
  getCookie req AUTH_COOKIE = Ok (Some hash).
Proof.
  intros Hwf Hne Hrest Hc. unfold getCookie. rewrite Hc.
  destruct (encode_free hash) as [Hsemi Heq].
  pose proof (encode_nonempty hash Hne) as Hene.
  rewrite decide_False by done.
  assert (Hpair : free_of ";" (AUTH_COOKIE +:+ "=" +:+ encodeURIComponent hash)).
  { unfold free_of, AUTH_COOKIE. rewrite !append_cons, append_empty_l. simpl.
    rewrite !not_elem_of_cons. split_and!; done. }
  assert (Hsplit : ∃ ps,
    splitCookie false (AUTH_COOKIE +:+ "=" +:+ encodeURIComponent hash +:+ rest)
    = (AUTH_COOKIE +:+ "=" +:+ encodeURIComponent hash) :: ps).
  { destruct Hrest as [->|[rest' ->]].
    - rewrite append_empty_r. eexists. by apply splitCookie_last.
    - assert (AUTH_COOKIE +:+ "=" +:+ encodeURIComponent hash +:+ String ";" rest'
              = (AUTH_COOKIE +:+ "=" +:+ encodeURIComponent hash) +:+ String ";" rest')
        as -> by (by rewrite !append_assoc).
      rewrite splitCookie_part by done. by eexists. }
  destruct Hsplit as [ps ->]. cbn [getCookie_parts].
  assert (splitEq (AUTH_COOKIE +:+ "=" +:+ encodeURIComponent hash)
          = [AUTH_COOKIE; encodeURIComponent hash]) as ->.
  { change ("=" +:+ encodeURIComponent hash)
      with (String "=" (encodeURIComponent hash)).
    rewrite splitEq_part by (apply (bool_decide_unpack _); by vm_compute).
    by rewrite splitEq_last. }
  simpl. rewrite !bool_decide_eq_true_2 by done. simpl.
  by rewrite decode_encode.
Qed.

(** X24. The cookie written by [setAuthCookie] is read back by
    [getCookie]: for every non-empty hash that is well-formed UTF-8,
    whatever characters it holds (blanks, semicolons, equals and percent
    signs included), [decodeURIComponent] undoes [encodeURIComponent], and
    [getCookie] finds the hash both in the name=value pair and in the whole
    [Set-Cookie] text with its attributes. *)
Theorem cookie_round_trip (req : Request) (hash : string) :
  wf_utf8 hash → hash ≠ "" →
  req_cookie req = Some (AUTH_COOKIE +:+ "=" +:+ encodeURIComponent hash)
  ∨ req_cookie req = Some (setAuthCookie hash) →
  decodeURIComponent (encodeURIComponent hash) = Ok hash
  ∧ getCookie req AUTH_COOKIE = Ok (Some hash).
Proof.
  intros Hwf Hne Hc. split; [by apply decode_encode|].
  destruct Hc as [Hc|Hc].
  - apply (getCookie_first _ _ ""); [done|done|by left|].
    by rewrite append_empty_r.
  - eapply getCookie_first; [done|done| |exact Hc]. right. by eexists.
Qed.

Lemma cookie_round_trip_witness :
  decodeURIComponent (encodeURIComponent "a b;c=d%") = Ok "a b;c=d%"
  ∧ getCookie (cookieRequest "GET" "/api/data" (setAuthCookie "a b;c=d%")) AUTH_COOKIE
    = Ok (Some "a b;c=d%").
Proof.
  apply (cookie_round_trip
           (cookieRequest "GET" "/api/data" (setAuthCookie "a b;c=d%")) "a b;c=d%").
  - repeat (apply utf8_one; [by vm_compute|]). apply utf8_empty.
  - discriminate.
  - right. reflexivity.
Defined.

(** X25. A cookie of another name in front of the header is skipped: the
    header [k=v; rest] gives for every name other than [k] what [rest]
    gives, provided [rest] does not start with a blank (the blanks after a
    semicolon belong to the separator). *)
Theorem other_cookie_skipped (method pathname name k v rest : string) :
  k ≠ name → free_of ";" k → free_of "=" k → free_of ";" v →
  (∀ r, rest ≠ String " " r) →
  getCookie (cookieRequest method pathname (k +:+ "=" +:+ v +:+ "; " +:+ rest)) name
  = getCookie (cookieRequest method pathname rest) name.
Proof.
  intros Hk Hks Hke Hvs Hrest. unfold getCookie, cookieRequest.
  cbn [req_cookie].
  rewrite decide_False by (by apply append_nonempty).
  assert (k +:+ "=" +:+ v +:+ "; " +:+ rest
          = (k +:+ String "=" v) +:+ String ";" (String " " rest)) as ->
    by (by rewrite !append_assoc).
  rewrite splitCookie_part
    by (apply free_of_app; [done|];
        apply (free_of_app _ "=" v); [|done];
        apply (bool_decide_unpack _); by vm_compute).
  cbn [getCookie_parts]. rewrite splitEq_part by done.
  destruct (splitEq_cons v) as (p & ps & ->). cbn [lookup list_lookup].
  rewrite (bool_decide_eq_false_2 (k = name)) by done. cbn [andb].
  assert (splitCookie true (String " " rest) = splitCookie false rest) as ->.
  { cbn [splitCookie]. rewrite bool_decide_eq_true_2 by done. cbn [andb].
    destruct rest as [|c rest]; [done|]. cbn [splitCookie].
    rewrite (bool_decide_eq_false_2 (c = " "%char)); [done|].
    intros ->. by apply (Hrest rest). }
  destruct (decide (rest = "")) as [->|]; done.
Qed.

Lemma other_cookie_skipped_witness :
  getCookie (cookieRequest "GET" "/api/data"
               ("theme" +:+ "=" +:+ "dark" +:+ "; " +:+ "LM_AUTH=abc")) AUTH_COOKIE
  = getCookie (cookieRequest "GET" "/api/data" "LM_AUTH=abc") AUTH_COOKIE.
Proof.
  apply (other_cookie_skipped "GET" "/api/data" AUTH_COOKIE "theme" "dark"
           "LM_AUTH=abc").
  - discriminate.
  - apply (bool_decide_unpack _). reflexivity.
  - apply (bool_decide_unpack _). reflexivity.
  - apply (bool_decide_unpack _). reflexivity.
  - discriminate.
Defined.
